(** * sentry.testutils.silo: a shallow embedding and its properties

    The module under study is [src/sentry/testutils/silo.py].  It holds
    - the silo-mode test decorators ([SiloModeTestDecorator],
      [_SiloModeTestModification]),
    - the context manager [assume_test_silo_mode],
    - the scanner of executed statements [validate_protected_queries],
    - the validators of the model graph
      ([validate_no_cross_silo_foreign_keys] and friends).

    Python values are embedded as follows.  A frozenset or a set is a
    [gset]; a class object of the test hierarchy lives in a store addressed
    by [nat], since decoration writes an attribute into the class that every
    subclass sees; a Django model class is a key of type [Model] with its
    metadata read through the registry [Apps]; an [int] is a [Z]; a [str] is a
    [string] (statements are taken to be ASCII text); a raised exception is
    the [Raise] branch of [result]. *)

From Stdlib Require Import ZArith Ascii String List Lia.
From stdpp Require Import base gmap strings list.
From Equations Require Import Equations.

Local Open Scope Z_scope.

(** ** Values shared by the whole module *)

(** [sentry.silo.SiloMode]: the module refers to its three members. *)
Inductive SiloMode : Type := CONTROL | REGION | MONOLITH.

#[global] Instance SiloMode_eq_dec : EqDecision SiloMode.
Proof. solve_decision. Defined.

#[global] Instance SiloMode_countable : Countable SiloMode.
Proof.
  refine (inj_countable'
            (λ m, match m with CONTROL => 0%nat | REGION => 1%nat | MONOLITH => 2%nat end)
            (λ n, match n with 0%nat => CONTROL | 1%nat => REGION | _ => MONOLITH end) _).
  by intros [].
Defined.

(** [silo_mode.name] *)
Definition SiloMode_name (m : SiloMode) : string :=
  match m with
  | CONTROL => "CONTROL"
  | REGION => "REGION"
  | MONOLITH => "MONOLITH"
  end.

(** A call either returns a value or raises. *)
Inductive result (E A : Type) : Type :=
| Return (a : A)
| Raise (e : E).
Arguments Return {E A} a.
Arguments Raise {E A} e.

#[global] Instance result_ret {E : Type} : MRet (result E) := λ A a, Return a.
#[global] Instance result_bind {E : Type} : MBind (result E) := λ A B k r,
  match r with
  | Return a => k a
  | Raise e => Raise e
  end.

Definition raises {E A : Type} (r : result E A) : Prop := ∃ e, r = Raise e.

(** ** Text *)

Definition dquote : ascii := "034"%char.
Definition newline : ascii := "010"%char.

Definition is_upper (c : ascii) : bool :=
  (65 <=? nat_of_ascii c)%nat && (nat_of_ascii c <=? 90)%nat.
Definition is_lower (c : ascii) : bool :=
  (97 <=? nat_of_ascii c)%nat && (nat_of_ascii c <=? 122)%nat.

(** [str.lower] and [str.upper] on one ASCII character; the module applies
    them to the names of the members of [SiloMode]. *)
Definition lower (c : ascii) : ascii :=
  if is_upper c then ascii_of_nat (nat_of_ascii c + 32) else c.
Definition upper (c : ascii) : ascii :=
  if is_lower c then ascii_of_nat (nat_of_ascii c - 32) else c.

Fixpoint str_lower (s : string) : string :=
  match s with
  | EmptyString => EmptyString
  | String c s' => String (lower c) (str_lower s')
  end.

(** [needle in hay] for two strings *)
Fixpoint str_contains (needle hay : string) : bool :=
  String.prefix needle hay ||
  match hay with
  | EmptyString => false
  | String _ hay' => str_contains needle hay'
  end.

(** [sep.join(items)] for items that are all strings *)
Fixpoint str_join (sep : string) (items : list string) : string :=
  match items with
  | [] => EmptyString
  | [x] => x
  | x :: rest => x +:+ sep +:+ str_join sep rest
  end.

(** [c * n] for a one-character string *)
Fixpoint str_repeat (c : ascii) (n : nat) : string :=
  match n with
  | O => EmptyString
  | S n' => String c (str_repeat c n')
  end.

(** [l[start:stop]] for two indexes that are not negative *)
Definition slice {A : Type} (l : list A) (start stop : Z) : list A :=
  take (Z.to_nat (stop - start)) (drop (Z.to_nat start) l).

(** ** Protected statements

    [protected_table(table, operation)] compiles, with [re.IGNORECASE], the
    expression made of: the operation keyword; one or more characters other
    than a double quote; a double quote; the table name; a double quote.
    Every call site passes an operation keyword and a table name, which are
    made of letters, digits and underscores and so stand for themselves in
    the expression; the compiled pattern is kept as these two texts.

    The matcher below is the expression on ASCII text with such a table
    name.  It does not follow [re] where the statement holds letters outside
    ASCII, which [re.IGNORECASE] folds as well (U+017F and U+212A onto s and
    k, U+0130 and U+0131 onto i), nor where a table name holds characters
    that [re] reads as operators. *)
Record Pattern : Type := protected_table { pattern_table : string; pattern_operation : string }.

(** Consumes [literal] at the head of [s], ignoring case. *)
Fixpoint match_literal (literal s : string) : option string :=
  match literal, s with
  | EmptyString, _ => Some s
  | String a literal', String b s' =>
      if bool_decide (lower a = lower b) then match_literal literal' s' else None
  | String _ _, EmptyString => None
  end.

(** Consumes everything up to and including the first double quote. *)
Fixpoint match_until_quote (s : string) : option string :=
  match s with
  | EmptyString => None
  | String c s' => if bool_decide (c = dquote) then Some s' else match_until_quote s'
  end.

(** [protected.match(sql)]: the expression is anchored at the start of the
    statement only.  The run of characters between the keyword and the table
    name has at least one character and cannot step over a double quote, so
    the quote that opens the table name is the first quote after the
    operation keyword. *)
Definition Pattern_match (protected : Pattern) (sql : string) : bool :=
  match match_literal (pattern_operation protected) sql with
  | Some (String c after_first) =>
      if bool_decide (c = dquote) then false
      else
        match match_until_quote after_first with
        | Some after_quote =>
            match match_literal (pattern_table protected) after_quote with
            | Some (String c' _) => bool_decide (c' = dquote)
            | _ => false
            end
        | None => false
        end
  | _ => false
  end.

(** ** The model registry

    [django.apps.apps] and the model metadata the module reads.  A model
    class is a key of type [Model]; relations between models are keys too,
    so the graph may be cyclic. *)

(** [field.related_model] of a [RelatedField]: a model class or the literal
    ['self']. *)
Inductive related (Model : Type) : Type :=
| self
| model_class (model : Model).
Arguments self {Model}.
Arguments model_class {Model} model.

(** One entry of [model._meta.fields], seen through the two [isinstance]
    tests the module applies to it. *)
Record Field (Model : Type) : Type := {
  (** [Some related_model] when [isinstance(field, RelatedField)] *)
  RelatedField : option (related Model);
  (** [Some foreign_model] when [isinstance(field, HybridCloudForeignKey)];
      [foreign_model] may be [None] *)
  HybridCloudForeignKey : option (option Model);
}.
Arguments RelatedField {Model} _.
Arguments HybridCloudForeignKey {Model} _.

Record Apps (Model : Type) : Type := {
  (** [app_config.name] for each entry of [apps.get_app_configs()] *)
  get_app_configs : list string;
  (** [apps.all_models.items()], the inner dictionaries as their values *)
  all_models : list (string * list Model);
  __module__ : Model → string;
  _meta_fields : Model → list (Field Model);
  (** [getattr(t._meta, 'silo_limit', None)]: the [modes] of the
      [ModelSiloLimit], [None] when the attribute is absent or of another
      type *)
  _meta_silo_limit : Model → option (gset SiloMode);
  _meta_db_table : Model → string;
  (** [issubclass(model, SnowflakeIdMixin)] and the like *)
  SnowflakeIdMixin : Model → bool;
  ReplicatedControlModel : Model → bool;
  ReplicatedRegionModel : Model → bool;
  (** the two model classes the module names *)
  Actor : Model;
  NotificationSetting : Model;
}.
Arguments get_app_configs {Model} _.
Arguments all_models {Model} _.
Arguments __module__ {Model} _ _.
Arguments _meta_fields {Model} _ _.
Arguments _meta_silo_limit {Model} _ _.
Arguments _meta_db_table {Model} _ _.
Arguments SnowflakeIdMixin {Model} _ _.
Arguments ReplicatedControlModel {Model} _ _.
Arguments ReplicatedRegionModel {Model} _ _.
Arguments Actor {Model} _.
Arguments NotificationSetting {Model} _.

Section Registry.
Context {Model : Type} `{Countable Model}.
Variable apps : Apps Model.

Definition is_framework_or_fixture (model : Model) : bool :=
  String.prefix "django." (__module__ apps model)
  || str_contains "tests." (__module__ apps model)
  || str_contains "fixtures." (__module__ apps model).

(** [iter_models(app_name)]; the generator is given as the list of the
    models it yields. *)
Definition iter_models (app_name : option string) : list Model :=
  flat_map
    (λ '(app, app_models),
       if bool_decide (Some app = app_name) || bool_decide (app_name = None)
       then filter (λ model, is_framework_or_fixture model = false) app_models
       else [])
    (all_models apps).

(** *** [get_protected_operations] *)

Definition protect_foreign_model
    (acc : gset Model * list Pattern) (field : Field Model) : gset Model * list Pattern :=
  match HybridCloudForeignKey field with
  | None => acc
  | Some None => acc
  | Some (Some fk_model) =>
      if bool_decide (fk_model ∈ acc.1) then acc
      else ({[fk_model]} ∪ acc.1,
            acc.2 ++ [protected_table (_meta_db_table apps fk_model) "delete"])
  end.

Definition protect_model
    (acc : gset Model * list Pattern) (model : Model) : gset Model * list Pattern :=
  let acc := foldl protect_foreign_model acc (_meta_fields apps model) in
  if ReplicatedControlModel apps model || ReplicatedRegionModel apps model
  then (acc.1,
        acc.2 ++ [protected_table (_meta_db_table apps model) "insert";
                  protected_table (_meta_db_table apps model) "update";
                  protected_table (_meta_db_table apps model) "delete"])
  else acc.

Definition protected_by_models : list Pattern :=
  (foldl (λ acc app_config, foldl protect_model acc (iter_models (Some app_config)))
         (∅, []) (get_app_configs apps)).2.

Definition protected_by_name : list Pattern :=
  [protected_table "sentry_user" "insert";
   protected_table "sentry_user" "update";
   protected_table "sentry_user" "delete";
   protected_table "sentry_organizationmember" "insert";
   protected_table "sentry_organizationmember" "update";
   protected_table "sentry_organizationmember" "delete";
   protected_table "sentry_organizationmembermapping" "insert"].

(** The argument is the module-level list [_protected_operations] as the
    call finds it; the value is the list the call returns, which is also
    the content of the module-level list afterwards. *)
Definition get_protected_operations (_protected_operations : list Pattern) : list Pattern :=
  if bool_decide (length _protected_operations ≠ 0%nat) then _protected_operations
  else protected_by_models ++ protected_by_name.

End Registry.

(** ** The fence scanner: [validate_protected_queries] *)

(** What the scanner can raise: the [AssertionError] of the source with its
    message, and the [TypeError] of [str.join] when item [item] of the
    joined list is [None]. *)
Inductive scan_error : Type :=
| AssertionError (msg : string)
| TypeError_join (item : nat).

(** [query['sql']] of one record of the log: the text, or [None]. *)
Definition query : Type := option string.

Definition context_queries : Z := 5.

(** ['\n'.join(msg)] *)
Definition join_lines (msg : list (option string)) : result scan_error string :=
  match list_find (λ line, line = None) msg with
  | Some (item, _) => Raise (TypeError_join item)
  | None => Return (str_join (String newline EmptyString) (omap id msg))
  end.

(** The list [msg] before the loop over [query_slice] *)
Definition message_head (sql : string) : list (option string) :=
  [Some "Found protected operation without explicit outbox escape!";
   Some EmptyString;
   Some sql;
   Some EmptyString;
   Some "Was not surrounded by role elevation queries, and could corrupt data if outboxes are not generated.";
   Some "If you are confident that outboxes are being generated, wrap the operation that generates this query with the `unguarded_write()` ";
   Some "context manager to resolve this failure. For example:";
   Some EmptyString;
   Some "with unguarded_write(using=router.db_for_write(OrganizationMembership):";
   Some "    member.delete()";
   Some EmptyString;
   Some "Query logs:";
   Some EmptyString].

(** What the loop over [query_slice] appends *)
Definition message_log (query_slice : list query) (sql : string) : list (option string) :=
  flat_map
    (λ query : query,
       if bool_decide (query = Some sql)
       then [query; Some (str_repeat "^" (String.length sql))]
       else [query])
    query_slice.

Definition protected_operation_error
    (queries : list query) (sql : string) (start_fence_index index : Z)
  : result scan_error string :=
  let start := Z.max 0 (start_fence_index - context_queries) in
  let stop := Z.min (index + context_queries) (Z.of_nat (length queries)) in
  let query_slice := slice queries start stop in
  join_lines (message_head sql ++ message_log query_slice sql).

(** The local variables that live across iterations, with the module-level
    list of compiled patterns. *)
Record scan_state : Type := {
  fence_depth : Z;
  start_fence_index : Z;
  _protected_operations : list Pattern;
}.

(** The error of a protected operation outside a fence, told by the first
    line of its message. *)
Definition is_unfenced_error (e : scan_error) : Prop :=
  ∃ rest, e = AssertionError ("Found protected operation without explicit outbox escape!" +:+ rest).

Section FenceScanner.
Context {Model : Type} `{Countable Model}.
Variable apps : Apps Model.

(** [sentry.silo.match_fence_query], which is not part of the module: for
    a fence marker, the text of the group [operation] of the match. *)
Variable match_fence_query : string → option string.

(** The first half of the loop body *)
Definition scan_fence (st : scan_state) (index : Z) (sql : string)
  : result scan_error scan_state :=
  match match_fence_query sql with
  | Some operation =>
      if bool_decide (operation = "start") then
        Return {| fence_depth := fence_depth st + 1;
                  start_fence_index := index;
                  _protected_operations := _protected_operations st |}
      else if bool_decide (operation = "end") then
        Return {| fence_depth := Z.max (fence_depth st - 1) 0;
                  start_fence_index := start_fence_index st;
                  _protected_operations := _protected_operations st |}
      else Raise (AssertionError "Invalid fencing operation encounted")
  | None => Return st
  end.

(** The second half: the loop over the protected patterns *)
Definition scan_protected
    (queries : list query) (st : scan_state) (index : Z) (sql : string)
  : result scan_error scan_state :=
  let operations := get_protected_operations apps (_protected_operations st) in
  if existsb (λ protected, Pattern_match protected sql && bool_decide (fence_depth st = 0))
             operations
  then msg ← protected_operation_error queries sql (start_fence_index st) index;
       Raise (AssertionError msg)
  else Return {| fence_depth := fence_depth st;
                 start_fence_index := start_fence_index st;
                 _protected_operations := operations |}.

(** One iteration of [for index, query in enumerate(queries)] *)
Definition scan_query
    (queries : list query) (st : scan_state) (index : Z) (query : query)
  : result scan_error scan_state :=
  match query with
  | None => Return st
  | Some sql =>
      st ← scan_fence st index sql;
      scan_protected queries st index sql
  end.

(** The iterations from [index] on, over the records [rest] still to come *)
Fixpoint scan_queries
    (queries : list query) (st : scan_state) (index : Z) (rest : list query)
  : result scan_error scan_state :=
  match rest with
  | [] => Return st
  | query :: rest' =>
      st ← scan_query queries st index query;
      scan_queries queries st (index + 1) rest'
  end.

(** [validate_protected_queries(queries)], run when the module-level list
    holds [compiled] *)
Definition validate_protected_queries (compiled : list Pattern) (queries : list query)
  : result scan_error unit :=
  scan_queries queries
    {| fence_depth := 0; start_fence_index := 0; _protected_operations := compiled |}
    0 queries;;
  Return ().

(** *** The depth along the scan

    The values the local variable [fence_depth] takes: for every statement
    the loop reaches, the depth once the statement's own marker has been
    counted, which is the depth the iteration ends with. *)
Fixpoint fence_depths
    (queries : list query) (st : scan_state) (index : Z) (rest : list query) : list Z :=
  match rest with
  | [] => []
  | None :: rest' => fence_depth st :: fence_depths queries st (index + 1) rest'
  | Some sql :: rest' =>
      match scan_fence st index sql with
      | Raise _ => []
      | Return st =>
          fence_depth st ::
          match scan_protected queries st index sql with
          | Raise _ => []
          | Return st => fence_depths queries st (index + 1) rest'
          end
      end
  end.

(** The depth before the first statement, then [fence_depths]. *)
Definition fence_depth_trace (compiled : list Pattern) (queries : list query) : list Z :=
  let st := {| fence_depth := 0; start_fence_index := 0; _protected_operations := compiled |} in
  fence_depth st :: fence_depths queries st 0 queries.

(** *** The scan as the specification words it *)

(** The depth after a statement, from the depth before it *)
Definition fence_depth_after (depth : Z) (query : query) : Z :=
  match query with
  | None => depth
  | Some sql =>
      match match_fence_query sql with
      | Some operation =>
          if bool_decide (operation = "start") then depth + 1
          else if bool_decide (operation = "end") then Z.max (depth - 1) 0
          else depth
      | None => depth
      end
  end.

(** The depth at statement [i]: its own marker, if it is one, counts. *)
Definition fence_depth_at (queries : list query) (i : nat) : Z :=
  foldl fence_depth_after 0 (take (S i) queries).

Definition is_protected (compiled : list Pattern) (sql : string) : bool :=
  existsb (λ protected, Pattern_match protected sql)
          (get_protected_operations apps compiled).

(** Statement [i] is a protected operation outside every fence. *)
Definition unfenced_at (compiled : list Pattern) (queries : list query) (i : nat) : Prop :=
  ∃ sql, queries !! i = Some (Some sql)
         ∧ is_protected compiled sql = true
         ∧ fence_depth_at queries i = 0.

(** Every fence marker of the log is a start or an end. *)
Definition fence_operations_valid (queries : list query) : Prop :=
  ∀ sql operation,
    Some sql ∈ queries → match_fence_query sql = Some operation →
    operation = "start" ∨ operation = "end".

End FenceScanner.

(** ** The validators of the model graph *)

(** [for item in items: st = body(st, item)], leaving at the first raise *)
Fixpoint for_each {E A S : Type} (body : S → A → result E S) (st : S) (items : list A)
  : result E S :=
  match items with
  | [] => Return st
  | item :: rest => st ← body st item; for_each body st rest
  end.

(** The [ValueError]s of the validators, by message, with the values their
    messages name; and the [TypeError] of [issubclass] on [None]. *)
Inductive validation_error (Model : Type) : Type :=
| (** [{t!r} is missing a silo limit, add a silo_model decorate to indicate
      its placement] *)
  MissingSiloLimit (t : Model)
| (** [{model!r} is marked as a pending model, but either needs a placement
      or an exemption in this test.] *)
  PendingModel (model : Model)
| (** [{model!r} runs in {mode}, but is related to {related!r} which does
      not.  Add this relationship pair as an exception or drop the foreign
      key.] *)
  CrossSiloRelation (model : Model) (mode : SiloMode) (related : Model)
| (** [{related_model!r} runs in {SiloMode.REGION}, but is related to
      {model!r} via a HybridCloudForeignKey! Region model ids are not global,
      unless you use a snowflake id.] *)
  RegionIdNotGlobal (related_model : Model) (model : Model)
| (** [issubclass() arg 1 must be a class] *)
  TypeError_issubclass.
Arguments MissingSiloLimit {Model} t.
Arguments PendingModel {Model} model.
Arguments CrossSiloRelation {Model} model mode related.
Arguments RegionIdNotGlobal {Model} related_model model.
Arguments TypeError_issubclass {Model}.

#[global] Instance related_eq_dec {Model : Type} `{EqDecision Model} : EqDecision (related Model).
Proof. solve_decision. Defined.

#[global] Instance related_countable {Model : Type} `{Countable Model} : Countable (related Model).
Proof.
  refine (inj_countable'
            (λ r, match r with self => None | model_class m => Some m end)
            (λ o, match o with None => self | Some m => model_class m end) _).
  by intros [].
Defined.

(** The mode the loop over [modes] stops at: the first mode of the model,
    in the order the set is iterated, that [related_modes] lacks. *)
Definition mode_outside (modes related_modes : gset SiloMode) : option SiloMode :=
  head (filter (λ mode, mode ∉ related_modes) (elements modes)).

(** A pair as the validators put it into a set: [(model, related)] *)
Definition model_pair (Model : Type) : Type := related Model * related Model.

Section Validators.
Context {Model : Type} `{Countable Model}.
Variable apps : Apps Model.

Definition _model_silo_limit (t : Model) : result (validation_error Model) (gset SiloMode) :=
  match _meta_silo_limit apps t with
  | Some modes => Return modes
  | None => Raise (MissingSiloLimit t)
  end.

(** [for mode in modes: if mode not in _model_silo_limit(related).modes:]
    the first such mode.  The limit of [related] is read once per
    iteration. *)
Fixpoint first_mode_outside (modes : list SiloMode) (related : Model)
  : result (validation_error Model) (option SiloMode) :=
  match modes with
  | [] => Return None
  | mode :: rest =>
      related_modes ← _model_silo_limit related;
      if bool_decide (mode ∈ related_modes) then first_mode_outside rest related
      else Return (Some mode)
  end.

Definition _is_relation_cross_silo (model related : related Model)
  : result (validation_error Model) bool :=
  match model, related with
  | model_class model, model_class related =>
      modes ← _model_silo_limit model;
      outside ← first_mode_outside (elements modes) related;
      Return (bool_decide (is_Some outside))
  | _, _ => Return false
  end.

Definition validate_relation_does_not_cross_silo_foreign_keys (model related : related Model)
  : result (validation_error Model) unit :=
  match model, related with
  | model_class model, model_class related =>
      modes ← _model_silo_limit model;
      outside ← first_mode_outside (elements modes) related;
      match outside with
      | Some mode => Raise (CrossSiloRelation model mode related)
      | None => Return ()
      end
  | _, _ => Return ()
  end.

Definition validate_hcfk_has_global_id (model : Model) (related_model : option Model)
  : result (validation_error Model) unit :=
  match related_model with
  | None => Raise TypeError_issubclass
  | Some related_model =>
      if SnowflakeIdMixin apps related_model then Return ()
      else if bool_decide (related_model = Actor apps)
              && bool_decide (model = NotificationSetting apps) then Return ()
      else
        modes ← _model_silo_limit related_model;
        if bool_decide (REGION ∈ modes) then Raise (RegionIdNotGlobal related_model model)
        else Return ()
  end.

(** The [RelatedField] branch of the loop body.  The boolean tells whether
    the branch left the iteration through [continue]. *)
Definition validate_related_field
    (model : Model) (exemptions : gset (model_pair Model)) (seen : gset (model_pair Model))
    (related_model : related Model)
  : result (validation_error Model) (gset (model_pair Model) * bool) :=
  crosses ←
    (if bool_decide ((model_class model, related_model) ∈ exemptions)
     then _is_relation_cross_silo (model_class model) related_model
     else Return false);
  if (crosses : bool) then Return (seen ∪ {[ (model_class model, related_model) ]}, true)
  else
    crosses ←
      (if bool_decide ((related_model, model_class model) ∈ exemptions)
       then _is_relation_cross_silo related_model (model_class model)
       else Return false);
    if (crosses : bool) then Return (seen ∪ {[ (related_model, model_class model) ]}, true)
    else
      validate_relation_does_not_cross_silo_foreign_keys (model_class model) related_model;;
      validate_relation_does_not_cross_silo_foreign_keys related_model (model_class model);;
      Return (seen, false).

(** One iteration of [for field in model._meta.fields] *)
Definition validate_field
    (model : Model) (exemptions : gset (model_pair Model)) (seen : gset (model_pair Model)) (field : Field Model)
  : result (validation_error Model) (gset (model_pair Model)) :=
  '(seen, continued) ←
    match RelatedField field with
    | Some related_model => validate_related_field model exemptions seen related_model
    | None => Return (seen, false)
    end;
  if (continued : bool) then Return seen
  else
    match HybridCloudForeignKey field with
    | Some foreign_model => validate_hcfk_has_global_id model foreign_model;; Return seen
    | None => Return seen
    end.

Definition validate_model_no_cross_silo_foreign_keys
    (model : Model) (exemptions : gset (model_pair Model))
  : result (validation_error Model) (gset (model_pair Model)) :=
  for_each (validate_field model exemptions) ∅ (_meta_fields apps model).

(** One iteration of [for model in iter_models(app_name)] *)
Definition collect_seen (exemptions : gset (model_pair Model)) (seen : gset (model_pair Model)) (model : Model)
  : result (validation_error Model) (gset (model_pair Model)) :=
  seen_by_model ← validate_model_no_cross_silo_foreign_keys model exemptions;
  Return (seen ∪ seen_by_model).

Definition validate_no_cross_silo_foreign_keys
    (exemptions : gset (model_pair Model)) (app_name : option string)
  : result (validation_error Model) (gset (model_pair Model)) :=
  for_each (collect_seen exemptions) ∅ (iter_models apps app_name).

(** The pairs a scan may record: exempted, and cross-silo in the order of
    the pair. *)
Definition used_exemption (exemptions : gset (model_pair Model)) (pair : model_pair Model) : Prop :=
  pair ∈ exemptions ∧ _is_relation_cross_silo pair.1 pair.2 = Return true.

Definition validate_models_have_silos (exemptions : gset Model) (app_name : option string)
  : result (validation_error Model) unit :=
  for_each
    (λ _ model,
       if bool_decide (model ∈ exemptions) then Return ()
       else
         modes ← _model_silo_limit model;
         if bool_decide (REGION ∉ modes) && bool_decide (CONTROL ∉ modes)
         then Raise (PendingModel model)
         else Return ())
    () (iter_models apps app_name).

End Validators.

(** ** Settings and the configuration contexts *)

Inductive RegionCategory : Type := MULTI_TENANT | SINGLE_TENANT.

(** [sentry.types.region.Region], by its four positional arguments *)
Record Region : Type := {
  region_name : string;
  region_snowflake_id : Z;
  region_address : string;
  region_category : RegionCategory;
}.

Definition _DEFAULT_TEST_REGIONS : list Region :=
  [ {| region_name := "us"; region_snowflake_id := 1;
       region_address := "http://us.testserver"; region_category := MULTI_TENANT |};
    {| region_name := "eu"; region_snowflake_id := 2;
       region_address := "http://eu.testserver"; region_category := MULTI_TENANT |};
    {| region_name := "acme-single-tenant"; region_snowflake_id := 3;
       region_address := "acme.my.sentry.io"; region_category := SINGLE_TENANT |} ].

(** The process-wide settings the module reads or overrides, and the
    regions in force, which [override_regions] replaces. *)
Record Settings : Type := {
  SILO_MODE : SiloMode;
  SENTRY_REGION : option string;
  SENTRY_SUBNET_SECRET : option string;
  SENTRY_CONTROL_ADDRESS : option string;
  SENTRY_MONOLITH_REGION : option string;
  FORCE_SILOED_TESTS : bool;
  regions_in_force : list Region;
}.

(** One keyword argument of [override_settings] *)
Inductive setting : Type :=
| set_SILO_MODE (value : SiloMode)
| set_SENTRY_REGION (value : string)
| set_SENTRY_SUBNET_SECRET (value : string)
| set_SENTRY_CONTROL_ADDRESS (value : string)
| set_SENTRY_MONOLITH_REGION (value : string).

Definition assign (s : Settings) (kw : setting) : Settings :=
  match kw with
  | set_SILO_MODE value =>
      {| SILO_MODE := value; SENTRY_REGION := SENTRY_REGION s;
         SENTRY_SUBNET_SECRET := SENTRY_SUBNET_SECRET s;
         SENTRY_CONTROL_ADDRESS := SENTRY_CONTROL_ADDRESS s;
         SENTRY_MONOLITH_REGION := SENTRY_MONOLITH_REGION s;
         FORCE_SILOED_TESTS := FORCE_SILOED_TESTS s;
         regions_in_force := regions_in_force s |}
  | set_SENTRY_REGION value =>
      {| SILO_MODE := SILO_MODE s; SENTRY_REGION := Some value;
         SENTRY_SUBNET_SECRET := SENTRY_SUBNET_SECRET s;
         SENTRY_CONTROL_ADDRESS := SENTRY_CONTROL_ADDRESS s;
         SENTRY_MONOLITH_REGION := SENTRY_MONOLITH_REGION s;
         FORCE_SILOED_TESTS := FORCE_SILOED_TESTS s;
         regions_in_force := regions_in_force s |}
  | set_SENTRY_SUBNET_SECRET value =>
      {| SILO_MODE := SILO_MODE s; SENTRY_REGION := SENTRY_REGION s;
         SENTRY_SUBNET_SECRET := Some value;
         SENTRY_CONTROL_ADDRESS := SENTRY_CONTROL_ADDRESS s;
         SENTRY_MONOLITH_REGION := SENTRY_MONOLITH_REGION s;
         FORCE_SILOED_TESTS := FORCE_SILOED_TESTS s;
         regions_in_force := regions_in_force s |}
  | set_SENTRY_CONTROL_ADDRESS value =>
      {| SILO_MODE := SILO_MODE s; SENTRY_REGION := SENTRY_REGION s;
         SENTRY_SUBNET_SECRET := SENTRY_SUBNET_SECRET s;
         SENTRY_CONTROL_ADDRESS := Some value;
         SENTRY_MONOLITH_REGION := SENTRY_MONOLITH_REGION s;
         FORCE_SILOED_TESTS := FORCE_SILOED_TESTS s;
         regions_in_force := regions_in_force s |}
  | set_SENTRY_MONOLITH_REGION value =>
      {| SILO_MODE := SILO_MODE s; SENTRY_REGION := SENTRY_REGION s;
         SENTRY_SUBNET_SECRET := SENTRY_SUBNET_SECRET s;
         SENTRY_CONTROL_ADDRESS := SENTRY_CONTROL_ADDRESS s;
         SENTRY_MONOLITH_REGION := Some value;
         FORCE_SILOED_TESTS := FORCE_SILOED_TESTS s;
         regions_in_force := regions_in_force s |}
  end.

(** What the test machinery can raise *)
Inductive exception : Type :=
| ValueError (msg : string)
| AncestorAlreadySiloDecoratedException (msg : string)
| IndexError
| AttributeError (name : string)
| (** whatever the code under test raises *)
  Failure (msg : string).

(** The body of a [with] statement: it runs under the settings it is given,
    may assign settings, and returns or raises. *)
Definition block (A : Type) : Type := Settings → result exception A * Settings.

(** [with override_settings(overrides): body], the keyword arguments given as a
    list.  On the way out the
    settings object that was in place on the way in is put back, whether the
    body returns or raises. *)
Definition override_settings {A : Type} (overrides : list setting) (body : block A) : block A :=
  λ s, let '(outcome, _) := body (foldl assign s overrides) in (outcome, s).

(** [with override_regions(regions): body].  The helper belongs to
    [sentry.testutils.region]; it installs [regions] for the duration of the
    body and puts the previous ones back. *)
Definition override_regions {A : Type} (regions : list Region) (body : block A) : block A :=
  λ s,
    let '(outcome, _) :=
      body {| SILO_MODE := SILO_MODE s; SENTRY_REGION := SENTRY_REGION s;
              SENTRY_SUBNET_SECRET := SENTRY_SUBNET_SECRET s;
              SENTRY_CONTROL_ADDRESS := SENTRY_CONTROL_ADDRESS s;
              SENTRY_MONOLITH_REGION := SENTRY_MONOLITH_REGION s;
              FORCE_SILOED_TESTS := FORCE_SILOED_TESTS s;
              regions_in_force := regions |} in
    (outcome, s).

(** Truth value of [getattr(settings, 'SENTRY_REGION')] *)
Definition truthy (value : option string) : bool :=
  match value with
  | None => false
  | Some text => negb (bool_decide (text = EmptyString))
  end.

Section AssumeTestSiloMode.
(** [SiloMode.get_current_mode()], which belongs to [sentry.silo]: the mode
    of the process, read off the settings. *)
Variable get_current_mode : Settings → SiloMode.

(** The dictionary [overrides] that [assume_test_silo_mode] builds, with the
    value of [desired_silo] after the first test *)
Definition assumed_silo (desired_silo : SiloMode) (can_be_monolith : bool) (s : Settings)
  : SiloMode :=
  if can_be_monolith && bool_decide (get_current_mode s = MONOLITH) then MONOLITH
  else desired_silo.

Definition assumed_overrides (desired_silo : SiloMode) (can_be_monolith : bool) (s : Settings)
  : list setting :=
  let desired_silo := assumed_silo desired_silo can_be_monolith s in
  (if bool_decide (desired_silo ≠ get_current_mode s) then [set_SILO_MODE desired_silo] else [])
  ++ (if bool_decide (desired_silo = REGION) && negb (truthy (SENTRY_REGION s))
      then [set_SENTRY_REGION "na"] else []).

(** [with assume_test_silo_mode(desired_silo, can_be_monolith): body] *)
Definition assume_test_silo_mode {A : Type}
    (desired_silo : SiloMode) (can_be_monolith : bool) (body : block A) : block A :=
  λ s,
    let overrides := assumed_overrides desired_silo can_be_monolith s in
    match overrides with
    | [] => body s
    | _ :: _ => override_settings overrides body s
    end.

End AssumeTestSiloMode.

(** ** The silo-mode test decorators *)

Record _SiloModeTestModification : Type := {
  silo_modes : gset SiloMode;
  regions : list Region;
  stable : bool;
  include_monolith_run : bool;
  run_original_class_in_silo_mode : bool;
}.

(** [with self.test_config(silo_mode): body] *)
Definition test_config {A : Type}
    (modification : _SiloModeTestModification) (silo_mode : SiloMode) (body : block A) : block A :=
  λ s,
    match regions modification with
    | [] => (Raise IndexError, s)
    | first_region :: _ =>
        let monolith_region := region_name first_region in
        override_settings
          [set_SILO_MODE silo_mode;
           set_SENTRY_SUBNET_SECRET "secret";
           set_SENTRY_CONTROL_ADDRESS "http://controlserver/";
           set_SENTRY_MONOLITH_REGION monolith_region]
          (override_regions (regions modification)
             (if bool_decide (silo_mode = REGION)
              then override_settings [set_SENTRY_REGION monolith_region] body
              else body))
          s
    end.

(** A method of a test case class: a function as the class body defines it,
    or the [wrapper] that [decorate_with_context] builds around a callable. *)
Inductive method : Type :=
| function_def
| wrapper (modification : _SiloModeTestModification) (silo_mode : SiloMode) (callable : method).

(** Calling a method; [run] is what the innermost function does. *)
Fixpoint call {A : Type} (m : method) (run : block A) : block A :=
  match m with
  | function_def => run
  | wrapper modification silo_mode callable =>
      test_config modification silo_mode (call callable run)
  end.

(** *** Class objects

    Classes live in a store, in the order of their creation; a class is
    referred to by its position.  A class statement and [type(...)] can only
    name bases that exist already, so the bases of a class lie before it. *)
Definition addr : Type := nat.

Record class_object : Type := {
  class_name : string;                        (* [__name__] *)
  class_module : string;                      (* [__module__] *)
  class_bases : list addr;                    (* [__bases__] *)
  class_mro : list addr;                      (* [__mro__], fixed when the class is created *)
  class_silo_modes : option (gset SiloMode);  (* [_silo_modes] in the class's own dictionary *)
  class_callSetUp : option method;            (* [_callSetUp] in the class's own dictionary *)
  class_callTestMethod : option method;       (* [_callTestMethod], likewise *)
}.

Record interpreter : Type := {
  classes : list class_object;
  (** [unittest.TestCase] *)
  TestCase : addr;
  (** attributes of the loaded modules that hold classes:
      [getattr(sys.modules[module], name)] *)
  namespaces : gmap (string * string) addr;
}.

Definition __bases__ (st : interpreter) (cls : addr) : list addr :=
  match classes st !! cls with
  | Some c => filter (λ base, (base < cls)%nat) (class_bases c)
  | None => []
  end.

Definition __mro__ (st : interpreter) (cls : addr) : list addr :=
  match classes st !! cls with
  | Some c => class_mro c
  | None => []
  end.

(** An attribute of the class's own dictionary *)
Definition own {V : Type} (attribute : class_object → option V) (st : interpreter) (cls : addr)
  : option V :=
  c ← classes st !! cls; attribute c.

(** [getattr(cls, name, None)]: the entry of the first class of the method
    resolution order whose dictionary has one *)
Definition getattr {V : Type} (attribute : class_object → option V) (st : interpreter) (cls : addr)
  : option V :=
  head (omap (own attribute st) (__mro__ st cls)).

Definition issubclass (st : interpreter) (cls base : addr) : bool :=
  bool_decide (base ∈ __mro__ st cls).

(** Truth value of [getattr(current_class, '_silo_modes', None)] *)
Definition silo_decorated (st : interpreter) (current_class : addr) : bool :=
  match getattr class_silo_modes st current_class with
  | Some modes => bool_decide (modes ≠ ∅)
  | None => false
  end.

(** The number of classes a walk from [cls] up through the bases visits,
    each as often as it is reached. *)
Fixpoint sum_bases (cls : addr) (f : ∀ base, (base < cls)%nat → nat) (bases : list addr) : nat :=
  match bases with
  | [] => 0
  | base :: bases' =>
      match decide (base < cls)%nat with
      | left earlier => f base earlier
      | right _ => 0
      end + sum_bases cls f bases'
  end.

Equations walk_length (st : interpreter) (cls : addr) : nat by wf cls lt :=
  walk_length st cls := S (sum_bases cls (λ base _, walk_length st base) (__bases__ st cls)).

Definition queue_length (st : interpreter) (class_queue : list addr) : nat :=
  sum_list (map (walk_length st) class_queue).

Lemma sum_bases_earlier (cls : addr) (g : addr → nat) (bases : list addr) :
  Forall (λ base, (base < cls)%nat) bases →
  sum_bases cls (λ base _, g base) bases = sum_list (map g bases).
Proof.
  induction 1 as [|base bases Hbase _ IH]; simpl; [done|].
  destruct (decide (base < cls)%nat); [|done]. by rewrite IH.
Qed.

Lemma walk_length_bases (st : interpreter) (cls : addr) :
  walk_length st cls = S (queue_length st (__bases__ st cls)).
Proof.
  rewrite walk_length_equation_1. f_equal. apply sum_bases_earlier.
  unfold __bases__. destruct (classes st !! cls); [|constructor].
  apply Forall_forall. intros base Hbase. by apply list_elem_of_filter in Hbase as [? _].
Qed.

Lemma queue_length_app (st : interpreter) (q1 q2 : list addr) :
  queue_length st (q1 ++ q2) = (queue_length st q1 + queue_length st q2)%nat.
Proof. unfold queue_length. induction q1 as [|cls q1 IH]; simpl; [done|]. rewrite IH. lia. Qed.

Lemma queue_length_pop (st : interpreter) (current_class : addr) (class_queue : list addr) :
  (queue_length st (class_queue ++ __bases__ st current_class)
   < queue_length st (current_class :: class_queue))%nat.
Proof.
  rewrite queue_length_app. unfold queue_length at 3. simpl.
  rewrite walk_length_bases. fold (queue_length st class_queue). lia.
Qed.

(** The loop of [_validate_that_no_ancestor_is_silo_decorated]: whether the
    walk over [class_queue] reaches the [raise]. *)
Equations ancestor_walk (st : interpreter) (class_queue : list addr) : bool
  by wf (queue_length st class_queue) lt :=
ancestor_walk st [] := false;
ancestor_walk st (current_class :: class_queue) :=
  if silo_decorated st current_class then true
  else ancestor_walk st (class_queue ++ __bases__ st current_class).
Next Obligation. apply queue_length_pop. Qed.

(** [base] is one of the bases of [cls]; [ancestor] is [cls] itself or is
    reached from it through bases. *)
Definition is_base (st : interpreter) (cls base : addr) : Prop := base ∈ __bases__ st cls.
Definition in_ancestry (st : interpreter) (cls ancestor : addr) : Prop :=
  rtc (is_base st) cls ancestor.

(** What the interpreter keeps true of every class: its method resolution
    order starts with the class itself and holds, besides it, only classes
    created before it. *)
Definition mro_well_formed (st : interpreter) : Prop :=
  ∀ cls c, classes st !! cls = Some c →
    head (class_mro c) = Some cls ∧ Forall (λ other, (other ≤ cls)%nat) (class_mro c).

(** No class of the ancestry of [cls] is seen as decorated. *)
Definition undecorated_ancestry (st : interpreter) (cls : addr) : Prop :=
  ∀ ancestor, in_ancestry st cls ancestor → silo_decorated st ancestor = false.

(** The message of the exception, with [object_to_validate.__name__] *)
Definition cannot_decorate (st : interpreter) (object_to_validate : addr) : string :=
  "Cannot decorate class '"
  +:+ default EmptyString (class_name <$> classes st !! object_to_validate)
  +:+ "', which inherits from a silo decorated class".

Definition _validate_that_no_ancestor_is_silo_decorated
    (st : interpreter) (object_to_validate : addr) : result exception unit :=
  if ancestor_walk st [object_to_validate] then
    Raise (AncestorAlreadySiloDecoratedException (cannot_decorate st object_to_validate))
  else Return ().

(** *** Function objects and decorated objects *)

(** [inspect.Parameter.kind], in the order in which [inspect.Signature]
    wants the parameters of a signature *)
Inductive parameter_kind : Type :=
| POSITIONAL_ONLY
| POSITIONAL_OR_KEYWORD
| VAR_POSITIONAL
| KEYWORD_ONLY
| VAR_KEYWORD.

#[global] Instance parameter_kind_eq_dec : EqDecision parameter_kind.
Proof. solve_decision. Defined.

Definition kind_rank (kind : parameter_kind) : nat :=
  match kind with
  | POSITIONAL_ONLY => 0
  | POSITIONAL_OR_KEYWORD => 1
  | VAR_POSITIONAL => 2
  | KEYWORD_ONLY => 3
  | VAR_KEYWORD => 4
  end%nat.

(** An entry of [inspect.signature(f).parameters]: its name and its kind *)
Definition parameter : Type := string * parameter_kind.

(** A function, as far as decoration looks at it: its [__name__], the
    parameters [inspect.signature] reports and the marks pytest stored on it.
    A function is either defined by a [def] statement or a lambda, or is the
    [replacement_test_method] of a decoration, which closes over the
    decoration and the test method. *)
Inductive function_object : Type :=
| def (name : string) (parameters : list parameter) (pytestmark : list (string * list SiloMode))
| replacement_test_method
    (modification : _SiloModeTestModification) (test_method : function_object)
    (name : string) (parameters : list parameter) (pytestmark : list (string * list SiloMode)).

Definition function_name (f : function_object) : string :=
  match f with
  | def name _ _ => name
  | replacement_test_method _ _ name _ _ => name
  end.

Definition function_parameters (f : function_object) : list parameter :=
  match f with
  | def _ parameters _ => parameters
  | replacement_test_method _ _ _ parameters _ => parameters
  end.

Definition function_pytestmark (f : function_object) : list (string * list SiloMode) :=
  match f with
  | def _ _ pytestmark => pytestmark
  | replacement_test_method _ _ _ _ pytestmark => pytestmark
  end.

(** What a decorator may be applied to, and what it may return: a class, a
    function, the [MarkDecorator] that pytest returns when it does not store
    a mark, with the arguments it holds, or any other object. *)
Inductive object : Type :=
| class_ref (cls : addr)
| function_ref (f : function_object)
| mark_decorator (argnames : string) (argvalues : list SiloMode) (f : function_object)
| other_object.

(** [name[0].upper() + name[1:].lower()] *)
Definition capitalized (name : string) : string :=
  match name with
  | EmptyString => EmptyString
  | String c rest => String (upper c) (str_lower rest)
  end.

Definition _get_test_name_suffix (silo_mode : SiloMode) : string :=
  "__In" +:+ capitalized (SiloMode_name silo_mode) +:+ "Mode".

(** [sorted(modes, key=str)]: whether [str] gives the member's value or the
    qualified member name, the order is CONTROL, MONOLITH, REGION. *)
Definition sorted_by_str (modes : gset SiloMode) : list SiloMode :=
  filter (λ silo_mode, silo_mode ∈ modes) [CONTROL; MONOLITH; REGION].

(** A new class object is put at the end of the store. *)
Definition add_class (st : interpreter) (c : class_object) : interpreter :=
  {| classes := classes st ++ [c];
     TestCase := TestCase st;
     namespaces := namespaces st |}.

(** [cls'] is a class made by [type(name, (cls,), methods)] in the store [st],
    which gives [st']. *)
Definition subclass_made (st st' : interpreter) (cls cls' : addr) : Prop :=
  cls' = length (classes st)
  ∧ (cls < length (classes st))%nat
  ∧ TestCase st' = TestCase st
  ∧ namespaces st' = namespaces st
  ∧ ∃ c, classes st' = classes st ++ [c]
         ∧ class_bases c = [cls]
         ∧ class_mro c = length (classes st) :: __mro__ st cls
         ∧ class_silo_modes c = None.

Section Modification.
Variable self_ : _SiloModeTestModification.

Definition _arrange_silo_modes : SiloMode * list SiloMode :=
  match elements (silo_modes self_) with
  | [silo_mode] =>
      if negb (include_monolith_run self_) then (silo_mode, [])
      else if run_original_class_in_silo_mode self_ then (silo_mode, [MONOLITH])
      else (MONOLITH, elements (silo_modes self_))
  | _ => (MONOLITH, elements (silo_modes self_))
  end.

(** The class object [type(name, (test_class,), new_methods)] makes from
    the class [c] at [test_class], whose resolution order is [mro]. *)
Definition overriding_class
    (c : class_object) (test_class : addr) (mro : list addr) (silo_mode : SiloMode)
    (name_suffix : string) (new_class : addr) (callSetUp callTestMethod : method)
  : class_object :=
  {| class_name := class_name c +:+ name_suffix;
     class_module := "sentry.testutils.silo";
     class_bases := [test_class];
     class_mro := new_class :: mro;
     class_silo_modes := None;
     class_callSetUp := Some (wrapper self_ silo_mode callSetUp);
     class_callTestMethod := Some (wrapper self_ silo_mode callTestMethod) |}.

(** [type(name, (test_class,), new_methods)] is created by a call made in
    this module, so its [__module__] is the name of this module; with a
    single base its method resolution order is itself, then that of the
    base. *)
Definition _create_overriding_test_class
    (st : interpreter) (test_class : addr) (silo_mode : SiloMode) (name_suffix : string)
  : result exception addr * interpreter :=
  match getattr class_callSetUp st test_class with
  | None => (Raise (AttributeError "_callSetUp"), st)
  | Some callSetUp =>
      match getattr class_callTestMethod st test_class with
      | None => (Raise (AttributeError "_callTestMethod"), st)
      | Some callTestMethod =>
          match classes st !! test_class with
          | None => (Raise (AttributeError "__name__"), st)
          | Some c =>
              let new_class := length (classes st) in
              (Return new_class,
               add_class st
                 (overriding_class c test_class (__mro__ st test_class) silo_mode
                    name_suffix new_class callSetUp callTestMethod))
          end
      end
  end.

(** [setattr(sys.modules[test_class.__module__], cls.__name__, cls)] *)
Definition register_in_module (st : interpreter) (test_class cls : addr) : interpreter :=
  match classes st !! test_class, classes st !! cls with
  | Some c, Some new_c =>
      {| classes := classes st;
         TestCase := TestCase st;
         namespaces := <[(class_module c, class_name new_c) := cls]> (namespaces st) |}
  | _, _ => st
  end.

(** The loop over [secondary_modes] *)
Fixpoint add_secondary_classes
    (st : interpreter) (test_class : addr) (secondary_modes : list SiloMode)
  : result exception unit * interpreter :=
  match secondary_modes with
  | [] => (Return (), st)
  | silo_mode :: rest =>
      match _create_overriding_test_class st test_class silo_mode
              (_get_test_name_suffix silo_mode) with
      | (Raise e, st) => (Raise e, st)
      | (Return siloed_test_class, st) =>
          add_secondary_classes (register_in_module st test_class siloed_test_class)
            test_class rest
      end
  end.

Definition _add_siloed_test_classes_to_module (st : interpreter) (test_class : addr)
  : result exception addr * interpreter :=
  let '(primary_mode, secondary_modes) := _arrange_silo_modes in
  match add_secondary_classes st test_class secondary_modes with
  | (Raise e, st) => (Raise e, st)
  | (Return _, st) => _create_overriding_test_class st test_class primary_mode EmptyString
  end.

(** [kind.description] *)
Definition kind_description (kind : parameter_kind) : string :=
  match kind with
  | POSITIONAL_ONLY => "positional-only"
  | POSITIONAL_OR_KEYWORD => "positional or keyword"
  | VAR_POSITIONAL => "variadic positional"
  | KEYWORD_ONLY => "keyword-only"
  | VAR_KEYWORD => "variadic keyword"
  end.

(** The loop of [inspect.Signature.__init__] over the parameters, as far as
    the kinds go: a parameter whose kind comes before the kind reached so far
    is refused.  The loop also refuses a duplicate name and a parameter
    without a default after one with a default; neither can come from
    appending a keyword-only parameter under a name the signature of a
    function does not have. *)
Fixpoint check_kinds (top_kind : parameter_kind) (parameters : list parameter)
  : result exception unit :=
  match parameters with
  | [] => Return ()
  | (_, kind) :: rest =>
      if (kind_rank kind <? kind_rank top_kind)%nat then
        Raise (ValueError ("wrong parameter order: " +:+ kind_description top_kind
                           +:+ " parameter before " +:+ kind_description kind
                           +:+ " parameter"))
      else check_kinds kind rest
  end.

(** [orig_sig.replace(parameters=new_params)], which belongs to [inspect] *)
Definition Signature_replace (parameters : list parameter)
  : result exception (list parameter) :=
  check_kinds POSITIONAL_ONLY parameters;; Return parameters.

(** [store_mark(f, mark)] of pytest: the mark comes after the marks the
    function has. *)
Definition store_mark (f : function_object) (mark : string * list SiloMode) : function_object :=
  match f with
  | def name parameters pytestmark => def name parameters (pytestmark ++ [mark])
  | replacement_test_method modification test_method name parameters pytestmark =>
      replacement_test_method modification test_method name parameters (pytestmark ++ [mark])
  end.

(** [pytest.mark.parametrize(argnames, argvalues)(f)], which belongs to
    pytest: the mark is stored on the function and the function is returned;
    but a function whose [__name__] is [<lambda>] is not taken for a test
    function, and the call returns a new [MarkDecorator] that holds the
    function as one more argument and stores nothing on it. *)
Definition parametrize (argnames : string) (argvalues : list SiloMode) (f : function_object)
  : object :=
  if bool_decide (function_name f = "<lambda>") then mark_decorator argnames argvalues f
  else function_ref (store_mark f (argnames, argvalues)).

(** [functools.update_wrapper] copies the name and the marks of the test
    method to [replacement_test_method]; the signature gains the keyword-only
    parameter [silo_mode] unless it has a parameter of that name. *)
Definition _mark_parameterized_by_silo_mode (test_method : function_object)
  : result exception object :=
  new_parameters ←
    (if bool_decide ("silo_mode" ∈ (function_parameters test_method).*1)
     then Return (function_parameters test_method)
     else Signature_replace (function_parameters test_method ++ [("silo_mode", KEYWORD_ONLY)]));
  Return
    (parametrize "silo_mode" (sorted_by_str (silo_modes self_ ∪ {[MONOLITH]}))
       (replacement_test_method self_ test_method (function_name test_method) new_parameters
          (function_pytestmark test_method))).

(** [decorated_obj._silo_modes = self.silo_modes] *)
Definition set_silo_modes (modes : gset SiloMode) (c : class_object) : class_object :=
  {| class_name := class_name c;
     class_module := class_module c;
     class_bases := class_bases c;
     class_mro := class_mro c;
     class_silo_modes := Some modes;
     class_callSetUp := class_callSetUp c;
     class_callTestMethod := class_callTestMethod c |}.

Definition mark_silo_decorated (st : interpreter) (cls : addr) : interpreter :=
  {| classes := alter (set_silo_modes (silo_modes self_)) cls (classes st);
     TestCase := TestCase st;
     namespaces := namespaces st |}.

(** [apply(decorated_obj)].  [SENTRY_USE_MONOLITH_DBS] is the module constant
    read from the environment at import; [settings] are the settings in force
    when the decorator runs. *)
Definition apply
    (SENTRY_USE_MONOLITH_DBS : bool) (settings : Settings)
    (decorated_obj : object) (st : interpreter)
  : result exception object * interpreter :=
  let is_test_case_class :=
    match decorated_obj with
    | class_ref cls => issubclass st cls (TestCase st)
    | _ => false
    end in
  let is_function :=
    match decorated_obj with
    | function_ref _ => true
    | _ => false
    end in
  if negb (is_test_case_class || is_function) then
    (Raise (ValueError "@SiloModeTest must decorate a function or TestCase class"), st)
  else
    let validated :=
      match decorated_obj with
      | class_ref cls =>
          match _validate_that_no_ancestor_is_silo_decorated st cls with
          | Raise e => (Raise e, st)
          | Return _ => (Return (), mark_silo_decorated st cls)
          end
      | _ => (Return (), st)
      end in
    match validated with
    | (Raise e, st) => (Raise e, st)
    | (Return _, st) =>
        if SENTRY_USE_MONOLITH_DBS || negb (stable self_ || FORCE_SILOED_TESTS settings) then
          (Return decorated_obj, st)
        else
          match decorated_obj with
          | class_ref cls =>
              match _add_siloed_test_classes_to_module st cls with
              | (Raise e, st) => (Raise e, st)
              | (Return new_class, st) => (Return (class_ref new_class), st)
              end
          | function_ref f =>
              match _mark_parameterized_by_silo_mode f with
              | Raise e => (Raise e, st)
              | Return new_test_method => (Return new_test_method, st)
              end
          | _ => (Return decorated_obj, st)
          end
    end.

End Modification.

(** [SiloModeTestDecorator]: the object holds [silo_modes]. *)
Record SiloModeTestDecorator : Type := { decorator_silo_modes : gset SiloMode }.

Definition __init__ (silo_modes : list SiloMode) : SiloModeTestDecorator :=
  {| decorator_silo_modes :=
       list_to_set (filter (λ sm, sm ≠ MONOLITH) silo_modes) |}.

(** [__call__], up to the construction of the modification; what it returns
    is [mod.apply], or [mod.apply(decorated_obj)] when it is given the
    object. *)
Definition __call__ (decorator : SiloModeTestDecorator) (stable : bool) (regions : list Region)
  : _SiloModeTestModification :=
  {| silo_modes := decorator_silo_modes decorator;
     regions := match regions with [] => _DEFAULT_TEST_REGIONS | _ :: _ => regions end;
     stable := stable;
     include_monolith_run := true;
     run_original_class_in_silo_mode := false |}.

Definition all_silo_test : SiloModeTestDecorator := __init__ [CONTROL; REGION].
Definition no_silo_test : SiloModeTestDecorator := __init__ [].
Definition control_silo_test : SiloModeTestDecorator := __init__ [CONTROL].
Definition region_silo_test : SiloModeTestDecorator := __init__ [REGION].

(** A decorated class statement binds what the decorator returns to the name
    of the class in the module that holds the statement. *)
Definition bind_class_statement (cls : addr) (outcome : result exception object * interpreter)
  : result exception object * interpreter :=
  match outcome with
  | (Return (class_ref returned), st) =>
      match classes st !! cls with
      | Some c =>
          (Return (class_ref returned),
           {| classes := classes st;
              TestCase := TestCase st;
              namespaces := <[(class_module c, class_name c) := returned]> (namespaces st) |})
      | None => outcome
      end
  | _ => outcome
  end.

(** A class with nothing of interest in its own dictionary *)
Definition plain_class (name module : string) (cls : addr) (bases : list addr) (mro_tail : list addr)
  : class_object :=
  {| class_name := name; class_module := module;
     class_bases := bases; class_mro := cls :: mro_tail;
     class_silo_modes := None; class_callSetUp := None; class_callTestMethod := None |}.

(** [class name(base): ...] in module [module], for a body that defines none
    of the attributes above: the new class, with a single base, is put in
    the store and bound to its name. *)
Definition define_subclass (st : interpreter) (name module : string) (base : addr) : interpreter :=
  let cls := length (classes st) in
  {| classes := classes (add_class st (plain_class name module cls [base] (__mro__ st base)));
     TestCase := TestCase st;
     namespaces := <[(module, name) := cls]> (namespaces st) |}.

(** The value of [settings.SILO_MODE] that the test method of [cls] sees
    when the runner calls [_callTestMethod] under the settings [s]. *)
Definition silo_mode_of_test (st : interpreter) (cls : addr) (s : Settings)
  : option (result exception SiloMode) :=
  m ← getattr class_callTestMethod st cls;
  Some (call m (λ s', (Return (SILO_MODE s'), s')) s).1.


(** ** Names of the generated classes *)

(** [name.endswith(suffix)] *)
Definition str_endswith (name suffix : string) : bool :=
  bool_decide (list_ascii_of_string suffix `suffix_of` list_ascii_of_string name).

(** [name[:-n]]: for [n = 0] the slice [name[:0]] is empty; a count beyond
    the length of [name] gives the empty text too. *)
Definition str_drop_end (name : string) (n : nat) : string :=
  match n with
  | O => EmptyString
  | S _ =>
      string_of_list_ascii
        (take (length (list_ascii_of_string name) - n) (list_ascii_of_string name))
  end.

(** [strip_silo_mode_test_suffix(name)].  The loop [for silo_mode in SiloMode]
    runs over the members of the enumeration in the order of their
    definition in [sentry.silo], given here as [SiloMode_members]. *)
Fixpoint strip_silo_mode_test_suffix (SiloMode_members : list SiloMode) (name : string) : string :=
  match SiloMode_members with
  | [] => name
  | silo_mode :: rest =>
      let suffix := _get_test_name_suffix silo_mode in
      if str_endswith name suffix then str_drop_end name (String.length suffix)
      else strip_silo_mode_test_suffix rest name
  end.

(** ** Chains of wrappers

    A class made by a decoration wraps the hidden methods it finds on the
    decorated class, which may be wrappers of an earlier decoration. *)

(** The wrapper closest to the function, with the modification and the mode
    it closes over *)
Fixpoint innermost_wrapper (m : method) : option (_SiloModeTestModification * SiloMode) :=
  match m with
  | function_def => None
  | wrapper modification silo_mode callable =>
      match innermost_wrapper callable with
      | Some inner => Some inner
      | None => Some (modification, silo_mode)
      end
  end.

(** Every modification of the chain has a first region. *)
Fixpoint wrappers_have_regions (m : method) : Prop :=
  match m with
  | function_def => True
  | wrapper modification _ callable =>
      regions modification ≠ [] ∧ wrappers_have_regions callable
  end.

(** ** The accumulator of [get_protected_operations] *)

Section ProtectedAccumulator.
Context {Model : Type} `{Countable Model}.
Variable apps : Apps Model.

(** Every model in [seen_models] has its deletion protected. *)
Definition seen_models_protected (acc : gset Model * list Pattern) : Prop :=
  ∀ fk_model, fk_model ∈ acc.1 → protected_table (_meta_db_table apps fk_model) "delete" ∈ acc.2.

(** What the iteration over one model leaves in the list: the deletions of
    the foreign models of its fields, and its own three operations when it
    is replicated *)
Definition model_protected (model : Model) (acc : gset Model * list Pattern) : Prop :=
  (∀ field fk_model,
     field ∈ _meta_fields apps model →
     HybridCloudForeignKey field = Some (Some fk_model) →
     protected_table (_meta_db_table apps fk_model) "delete" ∈ acc.2)
  ∧ (ReplicatedControlModel apps model || ReplicatedRegionModel apps model = true →
     ∀ operation, operation ∈ ["insert"; "update"; "delete"] →
       protected_table (_meta_db_table apps model) operation ∈ acc.2).

End ProtectedAccumulator.

(** ** [validate_no_cross_silo_deletions] *)

(** What the validator of the deletions can raise: what [_model_silo_limit]
    raises, and the [ValueError] of the cascade, [Deletions for
    {model_class!r} cascade to {to_model!r}, but does not belong to the same
    silo mode.  Please remove this relation from get_child_relations in
    deletions configuration]. *)
Inductive deletion_error (Model : Type) : Type :=
| SiloLimitError (e : validation_error Model)
| CrossSiloDeletion (model_class to_model : Model).
Arguments SiloLimitError {Model} e.
Arguments CrossSiloDeletion {Model} model_class to_model.

Definition with_deletion_error {Model A : Type} (r : result (validation_error Model) A)
  : result (deletion_error Model) A :=
  match r with
  | Return a => Return a
  | Raise e => Raise (SiloLimitError e)
  end.

Section Deletions.
Context {Model : Type} `{Countable Model}.
Variable apps : Apps Model.

(** [hasattr(model_class._meta, 'silo_limit')] *)
Variable has_silo_limit : Model → bool.

(** The registry of deletion tasks belongs to [sentry.deletions]: for a
    model class, the values [relation.params['model']] of the relations that
    [deletions.get(model=model_class, query={}).get_child_relations(model_class())]
    returns, in order. *)
Variable get_child_relations : Model → list Model.

(** One iteration of the loop over the relations *)
Definition validate_child_relation
    (exemptions : gset (Model * Model)) (model_class to_model : Model)
  : result (deletion_error Model) unit :=
  if bool_decide ((model_class, to_model) ∈ exemptions)
     || bool_decide ((to_model, model_class) ∈ exemptions)
  then Return ()
  else
    modes ← with_deletion_error (_model_silo_limit apps model_class);
    outside ← with_deletion_error (first_mode_outside apps (elements modes) to_model);
    match outside with
    | Some _ => Raise (CrossSiloDeletion model_class to_model)
    | None => Return ()
    end.

Definition validate_no_cross_silo_deletions
    (exemptions : gset (Model * Model)) (app_name : option string)
  : result (deletion_error Model) unit :=
  for_each
    (λ _ model_class,
       if negb (has_silo_limit model_class) then Return ()
       else
         for_each (λ _ to_model, validate_child_relation exemptions model_class to_model)
           () (get_child_relations model_class))
    () (iter_models apps app_name).

End Deletions.

(** The kind that the check of [inspect] has reached after the parameters *)
Definition last_kind (top_kind : parameter_kind) (parameters : list parameter) : parameter_kind :=
  default top_kind (snd <$> last parameters).

(** The function that [_mark_parameterized_by_silo_mode] hands to pytest when
    the signature takes the parameter [silo_mode] *)
Definition replaced (self_ : _SiloModeTestModification) (f : function_object) : function_object :=
  replacement_test_method self_ f (function_name f)
    (if bool_decide ("silo_mode" ∈ (function_parameters f).*1) then function_parameters f
     else function_parameters f ++ [("silo_mode", KEYWORD_ONLY)])
    (function_pytestmark f).
(** ** Sample data for the closed examples *)

(** A fence matcher for the examples: the two markers are the statements
    that open and close a role override. *)
Definition role_override_marker (sql : string) : option string :=
  if String.prefix "select 'start_role_override" (str_lower sql) then Some "start"
  else if String.prefix "select 'end_role_override" (str_lower sql) then Some "end"
  else None.

Definition begin_fence : string := "SELECT 'start_role_override_1'".
Definition end_fence : string := "SELECT 'end_role_override_1'".

(** [DELETE FROM] followed by the table name between double quotes, as the
    query compiler writes it *)
Definition sql_quoted (table : string) : string :=
  String dquote (table +:+ String dquote EmptyString).
Definition delete_user : string := "DELETE FROM " +:+ sql_quoted "sentry_user".
Definition delete_user_unquoted : string := "DELETE FROM sentry_user".

(** A registry of four models, keyed by class name. *)
Definition sample_fields (model : string) : list (Field string) :=
  if bool_decide (model = "OrganizationMember") then
    [ {| RelatedField := Some (model_class "Organization"); HybridCloudForeignKey := None |};
      {| RelatedField := None; HybridCloudForeignKey := Some (Some "User") |} ]
  else if bool_decide (model = "Organization") then
    [ {| RelatedField := Some self; HybridCloudForeignKey := None |} ]
  else if bool_decide (model = "ApiToken") then
    [ {| RelatedField := Some (model_class "User"); HybridCloudForeignKey := None |} ]
  else [].

Definition sample_silo_limit (model : string) : option (gset SiloMode) :=
  if bool_decide (model = "User") then Some {[CONTROL]}
  else if bool_decide (model = "ApiToken") then Some {[CONTROL]}
  else if bool_decide (model = "Organization") then Some {[REGION]}
  else if bool_decide (model = "OrganizationMember") then Some {[REGION]}
  else None.

Definition sample_apps_with (fields : string → list (Field string)) : Apps string :=
  {| get_app_configs := ["sentry"];
     all_models := [("sentry", ["User"; "ApiToken"; "Organization"; "OrganizationMember"])];
     __module__ := λ model, "sentry.models." +:+ str_lower model;
     _meta_fields := fields;
     _meta_silo_limit := sample_silo_limit;
     _meta_db_table := λ model, "sentry_" +:+ str_lower model;
     SnowflakeIdMixin := λ model, bool_decide (model = "Organization");
     ReplicatedControlModel := λ _, false;
     ReplicatedRegionModel := λ model, bool_decide (model = "OrganizationMember");
     Actor := "Actor";
     NotificationSetting := "NotificationSetting" |}.

Definition sample_apps : Apps string := sample_apps_with sample_fields.

(** The same registry with one relation more, from a control model to a
    region model, and with one cross-silo reference more, to a region model
    that has no snowflake id. *)
Definition crossing_field : Field string :=
  {| RelatedField := Some (model_class "Organization"); HybridCloudForeignKey := None |}.
Definition region_reference : Field string :=
  {| RelatedField := None; HybridCloudForeignKey := Some (Some "OrganizationMember") |}.

Definition crossing_apps : Apps string :=
  sample_apps_with
    (λ model, if bool_decide (model = "ApiToken") then [crossing_field] else sample_fields model).

Definition referring_apps : Apps string :=
  sample_apps_with
    (λ model, if bool_decide (model = "User") then [region_reference] else sample_fields model).

(** A store with [object], [unittest.TestCase] and one test case class, and
    the settings of a process in monolith mode. *)
Definition sample_store : interpreter :=
  {| classes :=
       [ plain_class "object" "builtins" 0%nat [] [];
         {| class_name := "TestCase"; class_module := "unittest.case";
            class_bases := [0%nat]; class_mro := [1%nat; 0%nat];
            class_silo_modes := None;
            class_callSetUp := Some function_def;
            class_callTestMethod := Some function_def |};
         plain_class "MyTest" "tests.sentry.test_sample" 2%nat [1%nat] [1%nat; 0%nat] ];
     TestCase := 1%nat;
     namespaces := {[ ("tests.sentry.test_sample", "MyTest") := 2%nat ]} |}.

Definition MyTest : addr := 2%nat.

Definition monolith_settings : Settings :=
  {| SILO_MODE := MONOLITH; SENTRY_REGION := None;
     SENTRY_SUBNET_SECRET := None; SENTRY_CONTROL_ADDRESS := None;
     SENTRY_MONOLITH_REGION := None; FORCE_SILOED_TESTS := false;
     regions_in_force := [] |}.

(** The store after [@control_silo_test(stable=True)] on [MyTest], and after
    a class statement that derives [ChildTest] from the decorated class. *)
Definition control_decorated : result exception object * interpreter :=
  bind_class_statement MyTest
    (apply (__call__ control_silo_test true []) false monolith_settings
       (class_ref MyTest) sample_store).

Definition child_of_control_decorated : interpreter :=
  define_subclass control_decorated.2 "ChildTest" "tests.sentry.test_sample" 4%nat.

(** The same with [@no_silo_test(stable=True)]. *)
Definition no_silo_decorated : result exception object * interpreter :=
  bind_class_statement MyTest
    (apply (__call__ no_silo_test true []) false monolith_settings
       (class_ref MyTest) sample_store).

Definition child_of_no_silo_decorated : interpreter :=
  define_subclass no_silo_decorated.2 "ChildTest" "tests.sentry.test_sample" 3%nat.

Definition test_function : function_object :=
  def "test_sample" [("client", POSITIONAL_OR_KEYWORD)] [].

(** A fence matcher that also knows a marker that is neither a start nor an
    end. *)
Definition pausing_marker (sql : string) : option string :=
  if String.prefix "select 'pause_role_override" (str_lower sql) then Some "pause"
  else role_override_marker sql.

Definition pause_fence : string := "SELECT 'pause_role_override_1'".

(** The deletion of a member cascades to nothing; the deletion of an
    organization cascades to its members, and the deletion of a user to the
    tokens of the user. *)
Definition sample_child_relations (model : string) : list string :=
  if bool_decide (model = "Organization") then ["OrganizationMember"]
  else if bool_decide (model = "User") then ["ApiToken"]
  else [].

(** The registry of [crossing_apps] with one reference more, on the model
    that the scan meets first: User refers to OrganizationMember, a region
    model without a snowflake id. *)
Definition hidden_crossing_apps : Apps string :=
  sample_apps_with
    (λ model, if bool_decide (model = "User") then [region_reference]
              else if bool_decide (model = "ApiToken") then [crossing_field]
              else sample_fields model).

(** A registry with a single model, which has no silo limit and refers to
    itself: the related model of the field is the class. *)
Definition self_reference_apps : Apps string :=
  {| get_app_configs := ["sentry"];
     all_models := [("sentry", ["Node"])];
     __module__ := λ model, "sentry.models." +:+ str_lower model;
     _meta_fields :=
       λ model, [ {| RelatedField := Some (model_class model); HybridCloudForeignKey := None |} ];
     _meta_silo_limit := λ _, None;
     _meta_db_table := λ model, "sentry_" +:+ str_lower model;
     SnowflakeIdMixin := λ _, false;
     ReplicatedControlModel := λ _, false;
     ReplicatedRegionModel := λ _, false;
     Actor := "Actor";
     NotificationSetting := "NotificationSetting" |}.

(** Two functions that pytest and [inspect] treat apart from the others: a
    lambda, and a function whose signature ends with [**kwargs]. *)
Definition lambda_function : function_object :=
  def "<lambda>" [("client", POSITIONAL_OR_KEYWORD)] [].
Definition kwargs_function : function_object :=
  def "test_sample" [("client", POSITIONAL_OR_KEYWORD); ("kwargs", VAR_KEYWORD)] [].

(** * Properties *)

(** ** Results *)

Lemma raises_bind {E A B : Type} (r : result E A) (k : A → result E B) :
  raises r → raises (r ≫= k).
Proof. intros [e ->]. by exists e. Qed.

Lemma raises_then_return {E A B : Type} (r : result E A) (b : B) :
  raises (r ≫= λ _, Return b) ↔ raises r.
Proof.
  split; [|apply raises_bind].
  destruct r as [a|e]; intros [e' He']; [discriminate|by exists e].
Qed.

Lemma not_raises_return {E A : Type} (a : A) : ¬ raises (Return a : result E A).
Proof. by intros [e He]. Qed.

Lemma existsb_and_r {A : Type} (f : A → bool) (b : bool) (l : list A) :
  existsb (λ x, f x && b) l = existsb f l && b.
Proof.
  induction l as [|x l IH]; simpl; [done|]. rewrite IH. by destruct (f x), (existsb f l), b.
Qed.

(** ** The fence scanner *)

Section FenceScannerFacts.
Context {Model : Type} `{Countable Model}.
Variable apps : Apps Model.
Variable match_fence_query : string → option string.

(** Once compiled, the list of protected patterns stays what it is. *)
Lemma get_protected_operations_idem (compiled : list Pattern) :
  get_protected_operations apps (get_protected_operations apps compiled)
  = get_protected_operations apps compiled.
Proof.
  unfold get_protected_operations.
  destruct (bool_decide (length compiled ≠ 0%nat)) eqn:Hc.
  - by rewrite Hc.
  - rewrite bool_decide_eq_true_2; [done|].
    rewrite length_app. unfold protected_by_name. simpl. lia.
Qed.

Lemma is_protected_compiled (compiled : list Pattern) (sql : string) :
  is_protected apps (get_protected_operations apps compiled) sql = is_protected apps compiled sql.
Proof. unfold is_protected. by rewrite get_protected_operations_idem. Qed.

(** The deletion of a user is protected whatever the models are, as soon as
    the list was compiled by this module. *)
Lemma protected_by_name_protected (sql : string) :
  existsb (λ protected, Pattern_match protected sql) protected_by_name = true →
  is_protected apps [] sql = true.
Proof.
  intros Hsql. unfold is_protected, get_protected_operations. simpl.
  rewrite existsb_app, Hsql. apply orb_true_r.
Qed.

Lemma scan_fence_depth (st st' : scan_state) (index : Z) (sql : string) :
  scan_fence match_fence_query st index sql = Return st' →
  fence_depth st' = fence_depth_after match_fence_query (fence_depth st) (Some sql)
  ∧ _protected_operations st' = _protected_operations st.
Proof.
  unfold scan_fence, fence_depth_after.
  destruct (match_fence_query sql) as [operation|]; [|by intros [= <-]].
  repeat case_bool_decide; by intros [= <-].
Qed.

Lemma scan_fence_returns (st : scan_state) (index : Z) (sql : string) :
  (∀ operation, match_fence_query sql = Some operation →
                operation = "start" ∨ operation = "end") →
  ∃ st', scan_fence match_fence_query st index sql = Return st'.
Proof.
  intros Hvalid. unfold scan_fence.
  destruct (match_fence_query sql) as [operation|]; [|by eexists].
  destruct (Hvalid operation eq_refl) as [-> | ->]; by eexists.
Qed.

Lemma fence_depth_after_nonneg (depth : Z) (query : query) :
  0 ≤ depth → 0 ≤ fence_depth_after match_fence_query depth query.
Proof.
  intros Hdepth. unfold fence_depth_after.
  destruct query as [sql|]; [|done].
  destruct (match_fence_query sql); [|done].
  repeat case_bool_decide; lia.
Qed.

Lemma scan_protected_cases (queries : list query) (st : scan_state) (index : Z) (sql : string) :
  (is_protected apps (_protected_operations st) sql && bool_decide (fence_depth st = 0) = true
   ∧ raises (scan_protected apps queries st index sql))
  ∨ (is_protected apps (_protected_operations st) sql && bool_decide (fence_depth st = 0) = false
     ∧ scan_protected apps queries st index sql
       = Return {| fence_depth := fence_depth st;
                   start_fence_index := start_fence_index st;
                   _protected_operations :=
                     get_protected_operations apps (_protected_operations st) |}).
Proof.
  unfold scan_protected, is_protected. rewrite existsb_and_r.
  destruct (existsb _ _ && _); [left|right]; split; try done.
  destruct (protected_operation_error _ _ _ _) as [msg|e]; by eexists.
Qed.

(** The depth never goes below zero, at any point the scan reaches. *)
Lemma fence_depths_nonneg (queries rest : list query) :
  ∀ (st : scan_state) (index : Z),
    0 ≤ fence_depth st →
    Forall (λ depth, 0 ≤ depth) (fence_depths apps match_fence_query queries st index rest).
Proof.
  induction rest as [|[sql|] rest IH]; intros st index Hdepth; simpl.
  - constructor.
  - destruct (scan_fence match_fence_query st index sql) as [st1|e] eqn:Hfence; [|constructor].
    apply scan_fence_depth in Hfence as [Hdepth1 _].
    assert (0 ≤ fence_depth st1).
    { rewrite Hdepth1. by apply fence_depth_after_nonneg. }
    constructor; [done|].
    destruct (scan_protected_cases queries st1 index sql) as [[_ [e ->]]|[_ ->]]; [constructor|].
    by apply IH.
  - constructor; [done|]. by apply IH.
Qed.

(** The trace follows the run: when the scan returns, the trace has one
    depth per statement and ends with the depth the loop ends with. *)
Lemma fence_depths_follow (queries rest : list query) :
  ∀ (st st' : scan_state) (index : Z),
    scan_queries apps match_fence_query queries st index rest = Return st' →
    length (fence_depths apps match_fence_query queries st index rest) = length rest
    ∧ last (fence_depth st :: fence_depths apps match_fence_query queries st index rest)
      = Some (fence_depth st').
Proof.
  induction rest as [|[sql|] rest IH]; intros st st' index; simpl.
  - by intros [= <-].
  - destruct (scan_fence match_fence_query st index sql) as [st1|e]; [|done]. simpl.
    destruct (scan_protected apps queries st1 index sql) as [st2|e] eqn:Hprot; [|done]. simpl.
    intros Hrun. destruct (IH _ _ _ Hrun) as [Hlen Hlast]. split; [by rewrite Hlen|].
    destruct (scan_protected_cases queries st1 index sql) as [[_ [e He]]|[_ Hret]];
      [congruence|].
    rewrite Hprot in Hret. injection Hret as ->. simpl in Hlast.
    done.
  - intros Hrun. destruct (IH _ _ _ Hrun) as [Hlen Hlast]. split; [by rewrite Hlen|done].
Qed.

#[local] Arguments fence_depth_after : simpl never.

(** The scan raises exactly when some statement is a protected operation
    met at depth zero. *)
Lemma scan_queries_raises (queries rest : list query) :
  ∀ (st : scan_state) (index : Z),
    fence_operations_valid match_fence_query rest →
    raises (scan_queries apps match_fence_query queries st index rest)
    ↔ ∃ i sql,
        rest !! i = Some (Some sql)
        ∧ is_protected apps (_protected_operations st) sql = true
        ∧ foldl (fence_depth_after match_fence_query) (fence_depth st) (take (S i) rest) = 0.
Proof.
  induction rest as [|[sql|] rest IH]; intros st index Hvalid.
  - simpl. split; [by intros [e He]|by intros (i & sql & Hi & _)].
  - assert (fence_operations_valid match_fence_query rest) as Hvalid'.
    { intros sql' operation Hin. apply Hvalid. by right. }
    destruct (scan_fence_returns st index sql) as [st1 Hfence].
    { intros operation. apply Hvalid. by left. }
    pose proof (scan_fence_depth _ _ _ _ Hfence) as [Hdepth1 Hcompiled1].
    simpl. rewrite Hfence. simpl.
    destruct (scan_protected_cases queries st1 index sql)
      as [[Hhit Hraise]|[Hmiss Hreturn]].
    + split; [intros _|intros _; by apply raises_bind].
      apply andb_true_iff in Hhit as [Hprot Hzero]. apply bool_decide_eq_true in Hzero.
      exists 0%nat, sql. rewrite <- Hcompiled1. split_and!; [done|done|].
      simpl. by rewrite <- Hdepth1.
    + rewrite Hreturn. simpl. rewrite IH by done. simpl.
      split.
      * intros (i & sql' & Hi & Hprot & Hzero). exists (S i), sql'.
        rewrite is_protected_compiled, Hcompiled1 in Hprot. split_and!; [done|done|].
        by rewrite <- Hdepth1.
      * intros (i & sql' & Hi & Hprot & Hzero). destruct i as [|i].
        -- simpl in Hi, Hzero. injection Hi as <-. rewrite <- Hdepth1 in Hzero.
           rewrite Hcompiled1, Hprot in Hmiss. simpl in Hmiss.
           by apply bool_decide_eq_false in Hmiss.
        -- exists i, sql'. rewrite is_protected_compiled, Hcompiled1.
           split_and!; [done|done|]. by rewrite Hdepth1.
  - assert (fence_operations_valid match_fence_query rest) as Hvalid'.
    { intros sql' operation Hin. apply Hvalid. by right. }
    simpl. rewrite IH by done. split.
    + intros (i & sql' & Hi & Hprot & Hzero). by exists (S i), sql'.
    + intros (i & sql' & Hi & Hprot & Hzero). destruct i as [|i]; [done|].
      by exists i, sql'.
Qed.

Lemma join_lines_text (msg : list (option string)) :
  Forall is_Some msg →
  join_lines msg = Return (str_join (String newline EmptyString) (omap id msg)).
Proof.
  intros Htext. unfold join_lines.
  destruct (list_find _ msg) as [[item line]|] eqn:Hfind; [|done].
  apply list_find_Some in Hfind as (Hitem & -> & _).
  apply (Forall_lookup_1 _ _ _ _ Htext) in Hitem. by destruct Hitem.
Qed.

Lemma message_log_text (query_slice : list query) (sql : string) :
  Forall is_Some query_slice → Forall is_Some (message_log query_slice sql).
Proof.
  induction 1 as [|query query_slice Hquery _ IH]; simpl; [constructor|].
  case_bool_decide; repeat constructor; done.
Qed.

(** When every record of the log has a text, the message is built and the
    error is the one of the protected operation. *)
Lemma protected_operation_error_text
    (queries : list query) (sql : string) (start_fence_index index : Z) :
  Forall is_Some queries →
  ∃ rest, protected_operation_error queries sql start_fence_index index
          = Return ("Found protected operation without explicit outbox escape!" +:+ rest).
Proof.
  intros Htext. unfold protected_operation_error.
  rewrite join_lines_text.
  - eexists. simpl. reflexivity.
  - apply Forall_app. split.
    + unfold message_head. repeat constructor; by eexists.
    + apply message_log_text. unfold slice. by apply Forall_take, Forall_drop.
Qed.

Lemma scan_queries_error (queries rest : list query) :
  ∀ (st : scan_state) (index : Z) (e : scan_error),
    fence_operations_valid match_fence_query rest →
    Forall is_Some queries →
    scan_queries apps match_fence_query queries st index rest = Raise e →
    is_unfenced_error e.
Proof.
  induction rest as [|[sql|] rest IH]; intros st index e Hvalid Htext; simpl; [done| |].
  - assert (fence_operations_valid match_fence_query rest) as Hvalid'.
    { intros sql' operation Hin. apply Hvalid. by right. }
    destruct (scan_fence_returns st index sql) as [st1 Hfence].
    { intros operation. apply Hvalid. by left. }
    rewrite Hfence. simpl.
    destruct (scan_protected apps queries st1 index sql) as [st2|e'] eqn:Hprot; simpl.
    + by apply IH.
    + intros [= ->]. revert Hprot. unfold scan_protected.
      destruct (existsb _ _); [|done].
      destruct (protected_operation_error_text queries sql (start_fence_index st1) index Htext)
        as [text ->].
      simpl. intros [= <-]. by exists text.
  - apply IH; [|done]. intros sql' operation Hin. apply Hvalid. by right.
Qed.

End FenceScannerFacts.

Section FenceScannerClaims.
Context {Model : Type} `{Countable Model}.
Variable apps : Apps Model.
Variable match_fence_query : string → option string.

#[local] Arguments fence_depth_after : simpl never.

Lemma validate_protected_queries_raises (compiled : list Pattern) (queries : list query) :
  fence_operations_valid match_fence_query queries →
  raises (validate_protected_queries apps match_fence_query compiled queries)
  ↔ ∃ i, unfenced_at apps match_fence_query compiled queries i.
Proof.
  intros Hvalid. unfold validate_protected_queries.
  rewrite raises_then_return, scan_queries_raises by done. simpl.
  unfold unfenced_at, fence_depth_at. naive_solver.
Qed.

Lemma validate_protected_queries_returns (compiled : list Pattern) (queries : list query) :
  ¬ raises (validate_protected_queries apps match_fence_query compiled queries) →
  validate_protected_queries apps match_fence_query compiled queries = Return ().
Proof.
  destruct (validate_protected_queries _ _ _ _) as [[]|e]; [done|].
  intros Hno. destruct Hno. by exists e.
Qed.

Lemma validate_protected_queries_error
    (compiled : list Pattern) (queries : list query) (e : scan_error) :
  fence_operations_valid match_fence_query queries →
  Forall is_Some queries →
  validate_protected_queries apps match_fence_query compiled queries = Raise e →
  is_unfenced_error e.
Proof.
  intros Hvalid Htext. unfold validate_protected_queries.
  destruct (scan_queries _ _ _ _ _ _) as [st|e'] eqn:Hscan; [done|].
  intros [= <-]. by eapply scan_queries_error.
Qed.

(** C8.  For every statement log, logs with unmatched end markers included,
    the fence depth kept by [validate_protected_queries] is never negative:
    it is at least 0 before the first statement and after every statement
    the scan reaches.  An end marker met at depth 0 leaves the depth at 0. *)
Theorem fence_depth_never_negative (compiled : list Pattern) (queries : list query) :
  Forall (λ depth, 0 ≤ depth) (fence_depth_trace apps match_fence_query compiled queries)
  ∧ (∀ (st : scan_state) (index : Z) (sql : string),
       match_fence_query sql = Some "end" → fence_depth st = 0 →
       ∃ st', scan_fence match_fence_query st index sql = Return st' ∧ fence_depth st' = 0).
Proof.
  split.
  - unfold fence_depth_trace. constructor; [done|]. by apply fence_depths_nonneg.
  - intros st index sql Hend Hzero. unfold scan_fence. rewrite Hend. simpl.
    eexists. split; [done|]. simpl. lia.
Qed.

Lemma example_log_valid (start_marker end_marker sql : string) (queries : list query) :
  match_fence_query start_marker = Some "start" →
  match_fence_query end_marker = Some "end" →
  match_fence_query sql = None →
  queries ⊆ [Some start_marker; Some end_marker; Some sql] →
  fence_operations_valid match_fence_query queries.
Proof.
  intros Hstart Hend Hsql Hsub sql' operation Hin Hmatch.
  apply Hsub in Hin. set_unfold in Hin.
  destruct Hin as [[= ->]|[[= ->]|[[= ->]|[]]]]; rewrite Hmatch in *; naive_solver.
Qed.

(** C1, as the code has it.  For every ordered statement log whose fence
    markers are starts and ends, [validate_protected_queries] raises if and
    only if some statement matching a protected pattern occurs while the
    fence depth, computed in order and counting the statement's own marker,
    is 0 at that statement; when every record of the log has a text, what is
    raised is the error of the protected operation.  With the table name
    between double quotes, as the protected patterns require: the log
    [start, delete, end] raises nothing, the log [delete] raises, and in
    [start, delete, end, delete] the second delete raises while the first
    does not. *)
Theorem unfenced_protected_operation_raises
    (compiled : list Pattern) (queries : list query) (start_marker end_marker : string) :
  fence_operations_valid match_fence_query queries →
  get_protected_operations apps compiled = get_protected_operations apps [] →
  match_fence_query start_marker = Some "start" →
  match_fence_query end_marker = Some "end" →
  match_fence_query delete_user = None →
  is_protected apps compiled end_marker = false →
  let validate := validate_protected_queries apps match_fence_query compiled in
  let fenced := [Some start_marker; Some delete_user; Some end_marker] in
  (raises (validate queries) ↔ ∃ i, unfenced_at apps match_fence_query compiled queries i)
  ∧ (Forall is_Some queries → ∀ e, validate queries = Raise e → is_unfenced_error e)
  ∧ validate fenced = Return ()
  ∧ (∃ e, validate [Some delete_user] = Raise e ∧ is_unfenced_error e)
  ∧ (∃ e, validate (fenced ++ [Some delete_user]) = Raise e ∧ is_unfenced_error e)
  ∧ ¬ unfenced_at apps match_fence_query compiled (fenced ++ [Some delete_user]) 1
  ∧ unfenced_at apps match_fence_query compiled (fenced ++ [Some delete_user]) 3.
Proof.
  intros Hvalid Hcompiled Hstart Hend Hdelete Hend_free validate fenced.
  assert (is_protected apps compiled delete_user = true) as Hprotected.
  { unfold is_protected. rewrite Hcompiled. by apply protected_by_name_protected. }
  assert (∀ depth, fence_depth_after match_fence_query depth (Some start_marker) = depth + 1)
    as Hafter_start.
  { intros depth. unfold fence_depth_after. by rewrite Hstart. }
  assert (∀ depth, fence_depth_after match_fence_query depth (Some end_marker)
                   = Z.max (depth - 1) 0) as Hafter_end.
  { intros depth. unfold fence_depth_after. by rewrite Hend. }
  assert (∀ depth, fence_depth_after match_fence_query depth (Some delete_user) = depth)
    as Hafter_delete.
  { intros depth. unfold fence_depth_after. by rewrite Hdelete. }
  assert (∀ log, log ⊆ [Some start_marker; Some end_marker; Some delete_user] →
                 fence_operations_valid match_fence_query log) as Hlog.
  { intros log. by apply example_log_valid. }
  assert (∀ log e, log ⊆ [Some start_marker; Some end_marker; Some delete_user] →
                   validate log = Raise e → is_unfenced_error e) as Herror.
  { intros log e Hsub. apply validate_protected_queries_error; [by apply Hlog|].
    apply Forall_forall. intros query Hin. apply Hsub in Hin. set_unfold in Hin.
    destruct Hin as [->|[->|[->|[]]]]; by eexists. }
  assert (unfenced_at apps match_fence_query compiled (fenced ++ [Some delete_user]) 3)
    as Hsecond.
  { exists delete_user. split_and!; [done|done|].
    unfold fence_depth_at. simpl.
    rewrite Hafter_start, Hafter_delete, Hafter_end, Hafter_delete. lia. }
  split_and!.
  - by apply validate_protected_queries_raises.
  - intros Htext e. by apply validate_protected_queries_error.
  - apply validate_protected_queries_returns.
    rewrite validate_protected_queries_raises by (apply Hlog; set_solver).
    intros [i (sql & Hi & Hprot & Hdepth)]. unfold fence_depth_at in Hdepth.
    destruct i as [|[|[|i]]]; simpl in Hi, Hdepth; try done; injection Hi as <-.
    + rewrite Hafter_start in Hdepth. lia.
    + rewrite Hafter_start, Hafter_delete in Hdepth. lia.
    + congruence.
  - destruct (validate [Some delete_user]) as [[]|e] eqn:Hrun.
    + exfalso. apply (not_raises_return (E:=scan_error) ()). rewrite <- Hrun.
      apply validate_protected_queries_raises; [apply Hlog; set_solver|].
      exists 0%nat, delete_user. split_and!; [done|done|].
      unfold fence_depth_at. simpl. by rewrite Hafter_delete.
    + exists e. split; [done|]. eapply Herror; [|done]. set_solver.
  - destruct (validate (fenced ++ [Some delete_user])) as [[]|e] eqn:Hrun.
    + exfalso. apply (not_raises_return (E:=scan_error) ()). rewrite <- Hrun.
      apply validate_protected_queries_raises; [apply Hlog; set_solver|].
      by exists 3%nat.
    + exists e. split; [done|]. eapply Herror; [|done]. set_solver.
  - intros (sql & Hi & _ & Hdepth). unfold fence_depth_at in Hdepth. simpl in Hdepth.
    rewrite Hafter_start, Hafter_delete in Hdepth. lia.
  - done.
Qed.

End FenceScannerClaims.

Lemma fence_depth_never_negative_witness :
  Forall (λ depth, 0 ≤ depth)
    (fence_depth_trace sample_apps role_override_marker []
       [Some end_fence; Some begin_fence; Some end_fence; Some end_fence])
  ∧ ∃ st', scan_fence role_override_marker
             {| fence_depth := 0; start_fence_index := 0; _protected_operations := [] |}
             0 end_fence = Return st'
           ∧ fence_depth st' = 0.
Proof.
  destruct (fence_depth_never_negative sample_apps role_override_marker []
              [Some end_fence; Some begin_fence; Some end_fence; Some end_fence])
    as [Htrace Hend].
  split; [exact Htrace|].
  apply Hend; reflexivity.
Defined.

(** The depths along a log that closes more fences than it opens *)
Example unmatched_end_markers :
  fence_depth_trace sample_apps role_override_marker []
    [Some end_fence; Some begin_fence; Some end_fence; Some end_fence]
  = [0; 0; 1; 0; 0].
Proof. reflexivity. Qed.

Lemma sample_log_valid (queries : list query) :
  queries ⊆ [Some begin_fence; Some end_fence; Some delete_user] →
  fence_operations_valid role_override_marker queries.
Proof. by apply example_log_valid. Defined.

Lemma unfenced_protected_operation_raises_witness :
  let validate := validate_protected_queries sample_apps role_override_marker [] in
  validate [Some begin_fence; Some delete_user; Some end_fence] = Return ()
  ∧ (∃ e, validate [Some delete_user] = Raise e ∧ is_unfenced_error e)
  ∧ (∃ e, validate [Some begin_fence; Some delete_user; Some end_fence; Some delete_user]
          = Raise e ∧ is_unfenced_error e).
Proof.
  destruct (unfenced_protected_operation_raises sample_apps role_override_marker []
              [Some begin_fence; Some delete_user; Some end_fence; Some delete_user]
              begin_fence end_fence)
    as (_ & _ & Hfenced & Halone & Hsecond & _); try reflexivity.
  - apply sample_log_valid. set_solver.
  - by split_and!.
Defined.

(** C1, as the specification words it, fails: the statement of the
    specification leaves the table name without quotes, and no protected
    pattern matches it, so the log that holds it alone raises nothing. *)
Lemma unquoted_delete_raises_nothing :
  ¬ raises (validate_protected_queries sample_apps role_override_marker []
              [Some "DELETE FROM sentry_user"]).
Proof. vm_compute. by intros [e He]. Qed.

(** ** The validators of the model graph *)

Lemma bind_Return {E A B : Type} (a : A) (k : A → result E B) : (Return a ≫= k) = k a.
Proof. done. Qed.

Lemma bind_Raise {E A B : Type} (e : E) (k : A → result E B) : (Raise e ≫= k) = Raise e.
Proof. done. Qed.

Lemma for_each_cons {E A S : Type} (body : S → A → result E S) (st : S) (item : A) (l : list A) :
  for_each body st (item :: l) = body st item ≫= λ st', for_each body st' l.
Proof. done. Qed.

Lemma for_each_app {E A S : Type} (body : S → A → result E S) (st : S) (l1 l2 : list A) :
  for_each body st (l1 ++ l2) = for_each body st l1 ≫= λ st', for_each body st' l2.
Proof.
  revert st. induction l1 as [|item l1 IH]; intros st; simpl; [done|].
  destruct (body st item) as [st'|e]; simpl; [apply IH|done].
Qed.

(** A loop that holds an item whose iteration raises from any state
    raises: at that item, if not before. *)
Lemma for_each_raises {E A S : Type} (body : S → A → result E S) (st : S)
    (items : list A) (item : A) :
  item ∈ items → (∀ st', raises (body st' item)) → raises (for_each body st items).
Proof.
  intros Hin Hitem. revert st.
  induction items as [|item' items IH]; intros st; [by apply elem_of_nil in Hin|].
  simpl. apply elem_of_cons in Hin as [<-|Hin].
  - by apply raises_bind.
  - destruct (body st item') as [st'|e]; simpl; [by apply IH|by exists e].
Qed.

(** An invariant of the state that every iteration keeps holds when the
    loop returns. *)
Lemma for_each_invariant {E A S : Type} (body : S → A → result E S) (P : S → Prop)
    (items : list A) :
  (∀ st item st', item ∈ items → P st → body st item = Return st' → P st') →
  ∀ st st', P st → for_each body st items = Return st' → P st'.
Proof.
  induction items as [|item items IH]; intros Hbody st st' HP; simpl; [by intros [= <-]|].
  destruct (body st item) as [st1|e] eqn:Hrun; simpl; [|done].
  apply IH; [|by eapply Hbody; [left|done|done]].
  intros st2 item' st3 Hin. apply Hbody. by right.
Qed.

Section ValidatorFacts.
Context {Model : Type} `{Countable Model}.
Variable apps : Apps Model.

Lemma first_mode_outside_limit (modes : list SiloMode) (related : Model)
    (related_modes : gset SiloMode) :
  _meta_silo_limit apps related = Some related_modes →
  first_mode_outside apps modes related
  = Return (head (filter (λ mode, mode ∉ related_modes) modes)).
Proof.
  intros Hlimit. induction modes as [|mode modes IH]; simpl; [done|].
  unfold _model_silo_limit. rewrite Hlimit. simpl.
  rewrite filter_cons. case_bool_decide; case_decide; try done.
Qed.

Lemma mode_outside_None (modes related_modes : gset SiloMode) :
  mode_outside modes related_modes = None ↔ modes ⊆ related_modes.
Proof.
  unfold mode_outside. rewrite head_None. split.
  - intros Hnil mode Hmode. apply elem_of_elements in Hmode.
    destruct (decide (mode ∈ related_modes)) as [|Hout]; [done|].
    assert (mode ∈ filter (λ mode, mode ∉ related_modes) (elements modes)) as Hin
      by by apply list_elem_of_filter.
    rewrite Hnil in Hin. by apply elem_of_nil in Hin.
  - intros Hsub.
    destruct (filter _ _) as [|mode modes'] eqn:Hfilter; [done|].
    assert (mode ∈ filter (λ mode, mode ∉ related_modes) (elements modes)) as Hin
      by (rewrite Hfilter; left).
    apply list_elem_of_filter in Hin as [Hout Hin]. apply elem_of_elements in Hin.
    destruct Hout. by apply Hsub.
Qed.

Lemma mode_outside_Some (modes related_modes : gset SiloMode) (mode : SiloMode) :
  mode_outside modes related_modes = Some mode → mode ∈ modes ∧ mode ∉ related_modes.
Proof.
  unfold mode_outside. intros Hhead.
  assert (mode ∈ filter (λ mode, mode ∉ related_modes) (elements modes)) as Hin.
  { destruct (filter _ _) as [|mode' modes']; [done|]. injection Hhead as ->. left. }
  apply list_elem_of_filter in Hin as [Hout Hin]. by apply elem_of_elements in Hin.
Qed.

Lemma mode_outside_is_Some (modes related_modes : gset SiloMode) :
  is_Some (mode_outside modes related_modes) ↔ ¬ modes ⊆ related_modes.
Proof. rewrite <- mode_outside_None, <- not_eq_None_Some. done. Qed.

Section RelationFacts.
Variables (model related : Model) (modes related_modes : gset SiloMode).
Hypothesis Hmodel : _meta_silo_limit apps model = Some modes.
Hypothesis Hrelated : _meta_silo_limit apps related = Some related_modes.

Lemma _is_relation_cross_silo_limits :
  _is_relation_cross_silo apps (model_class model) (model_class related)
  = Return (bool_decide (¬ modes ⊆ related_modes)).
Proof.
  unfold _is_relation_cross_silo, _model_silo_limit. rewrite Hmodel. simpl.
  rewrite (first_mode_outside_limit _ _ _ Hrelated). simpl. f_equal.
  apply bool_decide_ext. apply mode_outside_is_Some.
Qed.

Lemma validate_relation_limits :
  validate_relation_does_not_cross_silo_foreign_keys apps (model_class model) (model_class related)
  = match mode_outside modes related_modes with
    | Some mode => Raise (CrossSiloRelation model mode related)
    | None => Return ()
    end.
Proof.
  unfold validate_relation_does_not_cross_silo_foreign_keys, _model_silo_limit.
  rewrite Hmodel. simpl. by rewrite (first_mode_outside_limit _ _ _ Hrelated).
Qed.

End RelationFacts.

End ValidatorFacts.

Section ValidatorClaims.
Context {Model : Type} `{Countable Model}.
Variable apps : Apps Model.

(** *** Relations between models *)

Lemma validate_related_field_self
    (model : Model) (exemptions seen : gset (model_pair Model)) :
  validate_related_field apps model exemptions seen self = Return (seen, false).
Proof. unfold validate_related_field. by repeat case_bool_decide. Qed.

Section Edge.
Variables (A B : Model) (modes_A modes_B : gset SiloMode).
Variable exemptions : gset (model_pair Model).
Hypothesis HA : _meta_silo_limit apps A = Some modes_A.
Hypothesis HB : _meta_silo_limit apps B = Some modes_B.

Lemma validate_related_field_unexempted (seen : gset (model_pair Model)) :
  (model_class A, model_class B) ∉ exemptions →
  (model_class B, model_class A) ∉ exemptions →
  validate_related_field apps A exemptions seen (model_class B)
  = match mode_outside modes_A modes_B with
    | Some mode => Raise (CrossSiloRelation A mode B)
    | None =>
        match mode_outside modes_B modes_A with
        | Some mode => Raise (CrossSiloRelation B mode A)
        | None => Return (seen, false)
        end
    end.
Proof.
  intros HAB HBA. unfold validate_related_field.
  rewrite (validate_relation_limits apps A B modes_A modes_B HA HB).
  rewrite (validate_relation_limits apps B A modes_B modes_A HB HA).
  rewrite !bool_decide_eq_false_2 by done. simpl.
  destruct (mode_outside modes_A modes_B); [done|]. simpl.
  by destruct (mode_outside modes_B modes_A).
Qed.

Lemma validate_related_field_exempted (seen : gset (model_pair Model)) :
  (model_class A, model_class B) ∈ exemptions →
  ¬ modes_A ⊆ modes_B →
  validate_related_field apps A exemptions seen (model_class B)
  = Return (seen ∪ {[ (model_class A, model_class B) ]}, true).
Proof.
  intros HAB Hcross. unfold validate_related_field.
  rewrite (bool_decide_eq_true_2 _ HAB).
  rewrite (_is_relation_cross_silo_limits apps A B modes_A modes_B HA HB).
  by rewrite (bool_decide_eq_true_2 _ Hcross).
Qed.

Lemma validate_related_field_exempted_reverse (seen : gset (model_pair Model)) :
  (model_class B, model_class A) ∈ exemptions →
  ¬ modes_B ⊆ modes_A →
  ¬ ((model_class A, model_class B) ∈ exemptions ∧ ¬ modes_A ⊆ modes_B) →
  validate_related_field apps A exemptions seen (model_class B)
  = Return (seen ∪ {[ (model_class B, model_class A) ]}, true).
Proof.
  intros HBA Hcross Hfirst. unfold validate_related_field.
  rewrite (bool_decide_eq_true_2 _ HBA).
  rewrite (_is_relation_cross_silo_limits apps A B modes_A modes_B HA HB).
  rewrite (_is_relation_cross_silo_limits apps B A modes_B modes_A HB HA).
  rewrite (bool_decide_eq_true_2 _ Hcross).
  case_bool_decide as HAB; simpl; [|done].
  rewrite bool_decide_eq_false_2; [done|]. naive_solver.
Qed.

End Edge.

(** A field whose related-field half raises makes the whole scan raise. *)
Lemma scan_raises_at_field
    (exemptions : gset (model_pair Model)) (app_name : option string) (A : Model) (field : Field Model) :
  A ∈ iter_models apps app_name →
  field ∈ _meta_fields apps A →
  (∀ seen, raises (validate_field apps A exemptions seen field)) →
  raises (validate_no_cross_silo_foreign_keys apps exemptions app_name).
Proof.
  intros HA Hfield Hraises. unfold validate_no_cross_silo_foreign_keys.
  apply (for_each_raises _ _ _ A HA). intros seen. unfold collect_seen.
  apply raises_bind. unfold validate_model_no_cross_silo_foreign_keys.
  by apply (for_each_raises _ _ _ field Hfield).
Qed.

(** The scan raises what the first failing field raises. *)
Lemma scan_raises_first
    (exemptions : gset (model_pair Model)) (app_name : option string) (A : Model) (field : Field Model)
    (models_before models_after : list Model) (fields_before fields_after : list (Field Model))
    (seen_before seen_in_model : gset (model_pair Model)) (e : validation_error Model) :
  iter_models apps app_name = models_before ++ A :: models_after →
  _meta_fields apps A = fields_before ++ field :: fields_after →
  for_each (collect_seen apps exemptions) ∅ models_before = Return seen_before →
  for_each (validate_field apps A exemptions) ∅ fields_before = Return seen_in_model →
  validate_field apps A exemptions seen_in_model field = Raise e →
  validate_no_cross_silo_foreign_keys apps exemptions app_name = Raise e.
Proof.
  intros Hmodels Hfields Hbefore Hin_model Hfield.
  assert (collect_seen apps exemptions seen_before A = Raise e) as Hmodel.
  { unfold collect_seen, validate_model_no_cross_silo_foreign_keys.
    by rewrite Hfields, for_each_app, Hin_model, bind_Return, for_each_cons, Hfield. }
  unfold validate_no_cross_silo_foreign_keys.
  by rewrite Hmodels, for_each_app, Hbefore, bind_Return, for_each_cons, Hmodel.
Qed.

(** C2, as the code has it.  For every ordinary reference from a model A
    to a model B that both have a silo limit, when neither (A, B) nor (B, A)
    is in the exemption set: the check of the reference returns when the
    modes of A are modes of B and the modes of B are modes of A, both orders
    being checked, and otherwise raises the error that names A and B;
    [validate_no_cross_silo_foreign_keys] then raises, and what it raises is
    that error when no model before A and no field of A before the reference
    fails.  A reference whose target is the literal ['self'] never raises. *)
Theorem cross_silo_relation_raises
    (exemptions : gset (model_pair Model)) (app_name : option string)
    (A B : Model) (field : Field Model) (modes_A modes_B : gset SiloMode) :
  A ∈ iter_models apps app_name →
  field ∈ _meta_fields apps A →
  RelatedField field = Some (model_class B) →
  (model_class A, model_class B) ∉ exemptions →
  (model_class B, model_class A) ∉ exemptions →
  _meta_silo_limit apps A = Some modes_A →
  _meta_silo_limit apps B = Some modes_B →
  (* the subset rule holds in both orders: the reference passes *)
  (modes_A ⊆ modes_B ∧ modes_B ⊆ modes_A →
   ∀ seen, validate_related_field apps A exemptions seen (model_class B) = Return (seen, false))
  (* it fails in one order: the check raises an error naming both models *)
  ∧ (¬ (modes_A ⊆ modes_B ∧ modes_B ⊆ modes_A) →
     (∀ seen, ∃ mode,
        validate_related_field apps A exemptions seen (model_class B)
        = Raise (CrossSiloRelation A mode B)
        ∨ validate_related_field apps A exemptions seen (model_class B)
          = Raise (CrossSiloRelation B mode A))
     (* so the scan raises *)
     ∧ raises (validate_no_cross_silo_foreign_keys apps exemptions app_name)
     (* and what it raises is this error when nothing fails before *)
     ∧ (∀ models_before models_after fields_before fields_after seen_before seen_in_model,
          iter_models apps app_name = models_before ++ A :: models_after →
          _meta_fields apps A = fields_before ++ field :: fields_after →
          for_each (collect_seen apps exemptions) ∅ models_before = Return seen_before →
          for_each (validate_field apps A exemptions) ∅ fields_before = Return seen_in_model →
          ∃ mode,
            validate_no_cross_silo_foreign_keys apps exemptions app_name
            = Raise (CrossSiloRelation A mode B)
            ∨ validate_no_cross_silo_foreign_keys apps exemptions app_name
              = Raise (CrossSiloRelation B mode A)))
  (* references to 'self' *)
  ∧ (∀ model seen, validate_related_field apps model exemptions seen self = Return (seen, false)).
Proof.
  intros HA Hfield Hrelated HAB HBA Hlimit_A Hlimit_B.
  pose proof (λ seen, validate_related_field_unexempted A B modes_A modes_B exemptions
                        Hlimit_A Hlimit_B seen HAB HBA) as Hcheck.
  assert (¬ (modes_A ⊆ modes_B ∧ modes_B ⊆ modes_A) →
          ∀ seen, ∃ mode,
            validate_related_field apps A exemptions seen (model_class B)
            = Raise (CrossSiloRelation A mode B)
            ∨ validate_related_field apps A exemptions seen (model_class B)
              = Raise (CrossSiloRelation B mode A)) as Hfails.
  { intros Hcross seen. rewrite Hcheck.
    destruct (mode_outside modes_A modes_B) as [mode|] eqn:HoutA; [by exists mode; left|].
    destruct (mode_outside modes_B modes_A) as [mode|] eqn:HoutB; [by exists mode; right|].
    apply mode_outside_None in HoutA, HoutB. by destruct Hcross. }
  assert (∀ seen e, validate_related_field apps A exemptions seen (model_class B) = Raise e →
                    validate_field apps A exemptions seen field = Raise e) as Hfield_raises.
  { intros seen e He. unfold validate_field. by rewrite Hrelated, He. }
  split_and!.
  - intros [HsubA HsubB] seen. rewrite Hcheck.
    apply mode_outside_None in HsubA, HsubB. by rewrite HsubA, HsubB.
  - intros Hcross. split_and!; [by apply Hfails| |].
    + apply (scan_raises_at_field exemptions app_name A field HA Hfield).
      intros seen. destruct (Hfails Hcross seen) as [mode [He|He]];
        eexists; by apply Hfield_raises.
    + intros mb ma fb fa sb sm Hmodels Hfields Hbefore Hin_model.
      destruct (Hfails Hcross sm) as [mode [He|He]]; exists mode; [left|right];
        by eapply scan_raises_first; [..|apply Hfield_raises].
  - intros model seen. apply validate_related_field_self.
Qed.

End ValidatorClaims.

Lemma cross_silo_relation_raises_witness :
  raises (validate_no_cross_silo_foreign_keys crossing_apps ∅ None)
  ∧ ∃ mode,
      validate_no_cross_silo_foreign_keys crossing_apps ∅ None
      = Raise (CrossSiloRelation "ApiToken" mode "Organization")
      ∨ validate_no_cross_silo_foreign_keys crossing_apps ∅ None
        = Raise (CrossSiloRelation "Organization" mode "ApiToken").
Proof.
  assert ("ApiToken" ∈ iter_models crossing_apps None) as Hmodel
    by (vm_compute; repeat constructor).
  assert (crossing_field ∈ _meta_fields crossing_apps "ApiToken") as Hfield
    by (vm_compute; repeat constructor).
  assert (¬ (({[CONTROL]} : gset SiloMode) ⊆ {[REGION]} ∧ ({[REGION]} : gset SiloMode) ⊆ {[CONTROL]}))
    as Hcross by (intros [Hsub _]; set_solver).
  destruct (cross_silo_relation_raises crossing_apps ∅ None "ApiToken" "Organization"
              crossing_field {[CONTROL]} {[REGION]} Hmodel Hfield eq_refl
              (not_elem_of_empty _) (not_elem_of_empty _) eq_refl eq_refl)
    as (_ & Hfails & _).
  destruct (Hfails Hcross) as (_ & Hraises & Hfirst).
  split; [exact Hraises|].
  exact (Hfirst ["User"] ["Organization"; "OrganizationMember"] [] [] ∅ ∅
           eq_refl eq_refl eq_refl eq_refl).
Defined.

(** C2, as the specification words it, fails.  In [hidden_crossing_apps] the
    relation from ApiToken to Organization is not exempted and crosses, a
    control model referring to a region model; the scan raises, but what it
    raises is the error of the reference of User, which it meets first, and
    not the error that names ApiToken and Organization.  And a model that
    refers to itself through its class and has no silo limit makes the scan
    raise: a self-referencing relation can raise. *)
Lemma earlier_error_hides_cross_silo_relation :
  "ApiToken" ∈ iter_models hidden_crossing_apps None
  ∧ crossing_field ∈ _meta_fields hidden_crossing_apps "ApiToken"
  ∧ RelatedField crossing_field = Some (model_class "Organization")
  ∧ _meta_silo_limit hidden_crossing_apps "ApiToken" = Some {[CONTROL]}
  ∧ _meta_silo_limit hidden_crossing_apps "Organization" = Some {[REGION]}
  ∧ validate_no_cross_silo_foreign_keys hidden_crossing_apps ∅ None
    = Raise (RegionIdNotGlobal "OrganizationMember" "User")
  ∧ RelatedField <$> _meta_fields self_reference_apps "Node" = [Some (model_class "Node")]
  ∧ validate_no_cross_silo_foreign_keys self_reference_apps ∅ None
    = Raise (MissingSiloLimit "Node").
Proof.
  split_and!; try reflexivity.
  - vm_compute. repeat constructor.
  - vm_compute. repeat constructor.
Qed.

Section ReferenceClaims.
Context {Model : Type} `{Countable Model}.
Variable apps : Apps Model.

(** *** Cross-silo references *)

Lemma validate_hcfk_snowflake (model related_model : Model) :
  SnowflakeIdMixin apps related_model = true →
  validate_hcfk_has_global_id apps model (Some related_model) = Return ().
Proof. intros Hsnow. unfold validate_hcfk_has_global_id. by rewrite Hsnow. Qed.

Lemma validate_hcfk_carve_out :
  validate_hcfk_has_global_id apps (NotificationSetting apps) (Some (Actor apps)) = Return ().
Proof.
  unfold validate_hcfk_has_global_id.
  destruct (SnowflakeIdMixin apps (Actor apps)); [done|].
  by rewrite !bool_decide_eq_true_2.
Qed.

Lemma validate_hcfk_local (model related_model : Model) (modes : gset SiloMode) :
  SnowflakeIdMixin apps related_model = false →
  ¬ (related_model = Actor apps ∧ model = NotificationSetting apps) →
  _meta_silo_limit apps related_model = Some modes →
  validate_hcfk_has_global_id apps model (Some related_model)
  = if bool_decide (REGION ∈ modes) then Raise (RegionIdNotGlobal related_model model)
    else Return ().
Proof.
  intros Hsnow Hcarve Hlimit. unfold validate_hcfk_has_global_id, _model_silo_limit.
  rewrite Hsnow, Hlimit.
  destruct (bool_decide (related_model = Actor apps) && bool_decide (model = NotificationSetting apps))
    eqn:Hpair; [|done].
  apply andb_true_iff in Hpair as [?%bool_decide_eq_true ?%bool_decide_eq_true].
  by destruct Hcarve.
Qed.

(** C5, as the code has it.  For every cross-silo reference from a model A
    to a model B: a target with a snowflake id never raises; the pair
    (NotificationSetting, Actor), which the module names, never raises;
    otherwise the check raises the error naming both models exactly when B
    may live in REGION, and returns when B may not; and a reference it
    rejects makes [validate_no_cross_silo_foreign_keys] raise. *)
Theorem hcfk_requires_global_id
    (exemptions : gset (model_pair Model)) (app_name : option string)
    (A B : Model) (field : Field Model) (modes_B : gset SiloMode) :
  A ∈ iter_models apps app_name →
  field ∈ _meta_fields apps A →
  RelatedField field = None →
  HybridCloudForeignKey field = Some (Some B) →
  _meta_silo_limit apps B = Some modes_B →
  let rejected :=
    SnowflakeIdMixin apps B = false
    ∧ ¬ (B = Actor apps ∧ A = NotificationSetting apps)
    ∧ REGION ∈ modes_B in
  (rejected → validate_hcfk_has_global_id apps A (Some B) = Raise (RegionIdNotGlobal B A)
              ∧ raises (validate_no_cross_silo_foreign_keys apps exemptions app_name))
  ∧ (¬ rejected → validate_hcfk_has_global_id apps A (Some B) = Return ()
                  ∧ ∀ seen, validate_field apps A exemptions seen field = Return seen)
  ∧ (∀ model related_model,
       SnowflakeIdMixin apps related_model = true →
       validate_hcfk_has_global_id apps model (Some related_model) = Return ())
  ∧ validate_hcfk_has_global_id apps (NotificationSetting apps) (Some (Actor apps)) = Return ().
Proof.
  intros HA Hfield Hrelated Hforeign Hlimit rejected.
  assert (∀ seen, validate_field apps A exemptions seen field
                  = validate_hcfk_has_global_id apps A (Some B) ≫= λ _, Return seen) as Hcheck.
  { intros seen. unfold validate_field. by rewrite Hrelated, Hforeign. }
  split_and!.
  - intros (Hsnow & Hcarve & Hregion).
    assert (validate_hcfk_has_global_id apps A (Some B) = Raise (RegionIdNotGlobal B A)) as He.
    { rewrite (validate_hcfk_local A B modes_B Hsnow Hcarve Hlimit).
      by rewrite bool_decide_eq_true_2. }
    split; [done|].
    apply (scan_raises_at_field apps exemptions app_name A field HA Hfield).
    intros seen. rewrite Hcheck, He. by eexists.
  - intros Hnot.
    assert (validate_hcfk_has_global_id apps A (Some B) = Return ()) as Hok.
    { destruct (SnowflakeIdMixin apps B) eqn:Hsnow; [by apply validate_hcfk_snowflake|].
      destruct (decide (B = Actor apps ∧ A = NotificationSetting apps)) as [[-> ->]|Hcarve];
        [apply validate_hcfk_carve_out|].
      rewrite (validate_hcfk_local A B modes_B Hsnow Hcarve Hlimit).
      rewrite bool_decide_eq_false_2; [done|]. intros Hregion. by apply Hnot. }
    split; [done|]. intros seen. by rewrite Hcheck, Hok.
  - apply validate_hcfk_snowflake.
  - apply validate_hcfk_carve_out.
Qed.

(** *** Exempted relations *)

Lemma validate_related_field_seen
    (model : Model) (exemptions seen seen' : gset (model_pair Model)) (related_model : related Model)
    (continued : bool) :
  validate_related_field apps model exemptions seen related_model = Return (seen', continued) →
  seen ⊆ seen' ∧ ∀ pair, pair ∈ seen' → pair ∈ seen ∨ used_exemption apps exemptions pair.
Proof.
  unfold validate_related_field, used_exemption.
  set (checks :=
         validate_relation_does_not_cross_silo_foreign_keys apps (model_class model) related_model
         ≫= λ _, validate_relation_does_not_cross_silo_foreign_keys apps related_model
                   (model_class model)
         ≫= λ _, Return (seen, false)).
  assert (checks = Return (seen', continued) →
          seen ⊆ seen' ∧ ∀ pair, pair ∈ seen' → pair ∈ seen ∨ used_exemption apps exemptions pair)
    as Hchecks.
  { unfold checks.
    destruct (validate_relation_does_not_cross_silo_foreign_keys apps (model_class model) _);
      [|done].
    destruct (validate_relation_does_not_cross_silo_foreign_keys apps related_model _);
      [|done].
    intros [= <- <-]. set_solver. }
  destruct (decide ((model_class model, related_model) ∈ exemptions)) as [Hfirst|Hfirst];
    [rewrite (bool_decide_eq_true_2 _ Hfirst)|rewrite (bool_decide_eq_false_2 _ Hfirst)];
    (destruct (decide ((related_model, model_class model) ∈ exemptions)) as [Hsecond|Hsecond];
     [rewrite (bool_decide_eq_true_2 _ Hsecond)|rewrite (bool_decide_eq_false_2 _ Hsecond)]).
  - destruct (_is_relation_cross_silo apps (model_class model) related_model)
      as [[|]|e] eqn:Hcross1; [intros [= <- <-]; set_solver| |done].
    destruct (_is_relation_cross_silo apps related_model (model_class model))
      as [[|]|e] eqn:Hcross2; [intros [= <- <-]; set_solver|done|done].
  - destruct (_is_relation_cross_silo apps (model_class model) related_model)
      as [[|]|e] eqn:Hcross1; [intros [= <- <-]; set_solver|done|done].
  - destruct (_is_relation_cross_silo apps related_model (model_class model))
      as [[|]|e] eqn:Hcross2; [intros [= <- <-]; set_solver|done|done].
  - done.
Qed.

Lemma validate_field_seen
    (model : Model) (exemptions seen seen' : gset (model_pair Model)) (field : Field Model) :
  validate_field apps model exemptions seen field = Return seen' →
  seen ⊆ seen' ∧ ∀ pair, pair ∈ seen' → pair ∈ seen ∨ used_exemption apps exemptions pair.
Proof.
  unfold validate_field.
  assert (∀ continued seen1,
            (if continued : bool then Return seen1
             else match HybridCloudForeignKey field with
                  | Some foreign_model =>
                      validate_hcfk_has_global_id apps model foreign_model ≫= λ _, Return seen1
                  | None => Return seen1
                  end) = Return seen' → seen1 = seen') as Hrest.
  { intros [|] seen1; [by intros [= ->]|].
    destruct (HybridCloudForeignKey field) as [foreign_model|]; [|by intros [= ->]].
    destruct (validate_hcfk_has_global_id apps model foreign_model); [|done].
    by intros [= ->]. }
  destruct (RelatedField field) as [related_model|].
  - destruct (validate_related_field apps model exemptions seen related_model)
      as [[seen1 continued]|e] eqn:Hrelated; [|done].
    rewrite bind_Return. intros Hrun. apply (Hrest continued) in Hrun as <-.
    by eapply validate_related_field_seen.
  - rewrite bind_Return. intros Hrun. apply (Hrest false) in Hrun as <-. set_solver.
Qed.

Lemma validate_model_seen (model : Model) (exemptions seen : gset (model_pair Model)) :
  validate_model_no_cross_silo_foreign_keys apps model exemptions = Return seen →
  ∀ pair, pair ∈ seen → used_exemption apps exemptions pair.
Proof.
  unfold validate_model_no_cross_silo_foreign_keys.
  apply (for_each_invariant _ (λ seen, ∀ pair, pair ∈ seen → used_exemption apps exemptions pair));
    [|set_solver].
  intros seen0 field seen1 _ Hseen0 Hfield pair Hpair.
  apply validate_field_seen in Hfield as [_ Hfield]. destruct (Hfield pair Hpair); auto.
Qed.

(** What the scan returns holds only exemptions that were used. *)
Lemma validate_no_cross_silo_foreign_keys_seen
    (exemptions seen : gset (model_pair Model)) (app_name : option string) :
  validate_no_cross_silo_foreign_keys apps exemptions app_name = Return seen →
  ∀ pair, pair ∈ seen → used_exemption apps exemptions pair.
Proof.
  unfold validate_no_cross_silo_foreign_keys.
  apply (for_each_invariant _ (λ seen, ∀ pair, pair ∈ seen → used_exemption apps exemptions pair));
    [|set_solver].
  intros seen0 model seen1 _ Hseen0. unfold collect_seen.
  destruct (validate_model_no_cross_silo_foreign_keys apps model exemptions)
    as [seen_by_model|e] eqn:Hmodel; [|done].
  rewrite bind_Return. intros [= <-] pair [Hpair|Hpair]%elem_of_union; [by apply Hseen0|].
  by eapply validate_model_seen.
Qed.

(** A pair that an iteration records stays recorded to the end of a loop
    that only adds. *)
Lemma for_each_records {E A : Type} (body : gset (model_pair Model) → A → result E (gset (model_pair Model)))
    (items : list A) (item : A) (pair : model_pair Model) (seen seen' : gset (model_pair Model)) :
  (∀ st st' item', body st item' = Return st' → st ⊆ st') →
  (∀ st st', body st item = Return st' → pair ∈ st') →
  item ∈ items →
  for_each body seen items = Return seen' →
  pair ∈ seen'.
Proof.
  intros Hgrows Hitem Hin.
  apply list_elem_of_split in Hin as (before & after & ->).
  rewrite for_each_app.
  destruct (for_each body seen before) as [seen1|e]; [|done].
  rewrite bind_Return, for_each_cons.
  destruct (body seen1 item) as [seen2|e] eqn:Hbody; [|done].
  rewrite bind_Return. apply Hitem in Hbody. revert Hbody.
  apply (for_each_invariant body (λ st, pair ∈ st)).
  intros st item' st' _ Hpair Hstep. by apply (Hgrows _ _ _ Hstep).
Qed.

Lemma scan_records
    (exemptions seen : gset (model_pair Model)) (app_name : option string)
    (A : Model) (field : Field Model) (pair : model_pair Model) :
  A ∈ iter_models apps app_name →
  field ∈ _meta_fields apps A →
  (∀ st, validate_field apps A exemptions st field = Return (st ∪ {[pair]})) →
  validate_no_cross_silo_foreign_keys apps exemptions app_name = Return seen →
  pair ∈ seen.
Proof.
  intros HA Hfield Hrecords. unfold validate_no_cross_silo_foreign_keys.
  apply (for_each_records _ _ A); [| |done].
  - intros st st' model. unfold collect_seen.
    destruct (validate_model_no_cross_silo_foreign_keys apps model exemptions); [|done].
    intros [= <-]. set_solver.
  - intros st st'. unfold collect_seen.
    destruct (validate_model_no_cross_silo_foreign_keys apps A exemptions)
      as [seen_by_model|e] eqn:Hmodel; [|done].
    intros [= <-]. apply elem_of_union_r. revert Hmodel.
    unfold validate_model_no_cross_silo_foreign_keys.
    apply (for_each_records _ _ field); [| |done].
    + intros st0 st1 field' Hstep. by apply validate_field_seen in Hstep as [? _].
    + intros st0 st1. rewrite Hrecords. intros [= <-]. set_solver.
Qed.

(** C6, as the code has it.  For every ordinary reference from a model A to
    a model B: when (A, B) is exempted and some mode of A is not a mode of
    B, the reference raises nothing and (A, B) is in the set the scan
    returns; likewise for (B, A) when it is exempted, some mode of B is not
    a mode of A, and the first case does not apply.  The set the scan
    returns holds only pairs that are exempted and cross-silo in their own
    order: an exempted pair that is not cross-silo is never recorded.  And
    when neither case applies, the exemptions are stale for this reference
    and it is checked as if they were not there: the iteration over the
    field does what it does for the empty set of exemptions. *)
Theorem exempted_relations_seen
    (exemptions : gset (model_pair Model)) (app_name : option string)
    (A B : Model) (field : Field Model) (modes_A modes_B : gset SiloMode) :
  A ∈ iter_models apps app_name →
  field ∈ _meta_fields apps A →
  RelatedField field = Some (model_class B) →
  _meta_silo_limit apps A = Some modes_A →
  _meta_silo_limit apps B = Some modes_B →
  ((model_class A, model_class B) ∈ exemptions → ¬ modes_A ⊆ modes_B →
   (∀ seen, validate_field apps A exemptions seen field
            = Return (seen ∪ {[ (model_class A, model_class B) ]}))
   ∧ ∀ seen, validate_no_cross_silo_foreign_keys apps exemptions app_name = Return seen →
             (model_class A, model_class B) ∈ seen)
  ∧ ((model_class B, model_class A) ∈ exemptions → ¬ modes_B ⊆ modes_A →
     ¬ ((model_class A, model_class B) ∈ exemptions ∧ ¬ modes_A ⊆ modes_B) →
     (∀ seen, validate_field apps A exemptions seen field
              = Return (seen ∪ {[ (model_class B, model_class A) ]}))
     ∧ ∀ seen, validate_no_cross_silo_foreign_keys apps exemptions app_name = Return seen →
               (model_class B, model_class A) ∈ seen)
  ∧ (∀ seen pair,
       validate_no_cross_silo_foreign_keys apps exemptions app_name = Return seen →
       pair ∈ seen →
       pair ∈ exemptions ∧ _is_relation_cross_silo apps pair.1 pair.2 = Return true)
  ∧ (modes_A ⊆ modes_B →
     ∀ seen, validate_no_cross_silo_foreign_keys apps exemptions app_name = Return seen →
             (model_class A, model_class B) ∉ seen)
  ∧ (¬ ((model_class A, model_class B) ∈ exemptions ∧ ¬ modes_A ⊆ modes_B) →
     ¬ ((model_class B, model_class A) ∈ exemptions ∧ ¬ modes_B ⊆ modes_A) →
     ∀ seen, validate_field apps A exemptions seen field = validate_field apps A ∅ seen field).
Proof.
  intros HA Hfield Hrelated Hlimit_A Hlimit_B.
  assert (∀ seen pair,
            validate_related_field apps A exemptions seen (model_class B)
            = Return (seen ∪ {[pair]}, true) →
            validate_field apps A exemptions seen field = Return (seen ∪ {[pair]})) as Hcontinue.
  { intros seen pair Hcheck. unfold validate_field. by rewrite Hrelated, Hcheck. }
  split_and!.
  - intros HAB Hcross.
    assert (∀ seen, validate_field apps A exemptions seen field
                    = Return (seen ∪ {[ (model_class A, model_class B) ]})) as Hrecords.
    { intros seen. apply Hcontinue. by eapply validate_related_field_exempted. }
    split; [done|]. intros seen. by apply (scan_records exemptions seen app_name A field).
  - intros HBA Hcross Hfirst.
    assert (∀ seen, validate_field apps A exemptions seen field
                    = Return (seen ∪ {[ (model_class B, model_class A) ]})) as Hrecords.
    { intros seen. apply Hcontinue. by eapply validate_related_field_exempted_reverse. }
    split; [done|]. intros seen. by apply (scan_records exemptions seen app_name A field).
  - intros seen pair Hscan Hpair.
    by apply (validate_no_cross_silo_foreign_keys_seen exemptions seen app_name Hscan).
  - intros Hsub seen Hscan Hpair.
    apply (validate_no_cross_silo_foreign_keys_seen exemptions seen app_name Hscan)
      in Hpair as [_ Hcross].
    cbn [fst snd] in Hcross.
    rewrite (_is_relation_cross_silo_limits apps A B modes_A modes_B Hlimit_A Hlimit_B)
      in Hcross.
    injection Hcross as Hcross. by apply bool_decide_eq_true in Hcross.
  - intros Hforward Hbackward seen. unfold validate_field. rewrite Hrelated.
    assert (validate_related_field apps A exemptions seen (model_class B)
            = validate_related_field apps A ∅ seen (model_class B)) as ->; [|done].
    unfold validate_related_field.
    rewrite (_is_relation_cross_silo_limits apps A B modes_A modes_B Hlimit_A Hlimit_B).
    rewrite (_is_relation_cross_silo_limits apps B A modes_B modes_A Hlimit_B Hlimit_A).
    rewrite !(bool_decide_eq_false_2 (_ ∈ (∅ : gset (model_pair Model))))
      by apply not_elem_of_empty.
    assert ((if bool_decide ((model_class A, model_class B) ∈ exemptions)
             then Return (bool_decide (¬ modes_A ⊆ modes_B)) else Return false)
            = (Return false : result (validation_error Model) bool)) as ->.
    { case_bool_decide as HAB; [|done]. f_equal. apply bool_decide_eq_false_2. naive_solver. }
    assert ((if bool_decide ((model_class B, model_class A) ∈ exemptions)
             then Return (bool_decide (¬ modes_B ⊆ modes_A)) else Return false)
            = (Return false : result (validation_error Model) bool)) as ->.
    { case_bool_decide as HBA; [|done]. f_equal. apply bool_decide_eq_false_2. naive_solver. }
    done.
Qed.

End ReferenceClaims.

Lemma hcfk_requires_global_id_witness :
  validate_hcfk_has_global_id referring_apps "User" (Some "OrganizationMember")
  = Raise (RegionIdNotGlobal "OrganizationMember" "User")
  ∧ raises (validate_no_cross_silo_foreign_keys referring_apps ∅ None).
Proof.
  assert ("User" ∈ iter_models referring_apps None) as Hmodel
    by (vm_compute; repeat constructor).
  assert (region_reference ∈ _meta_fields referring_apps "User") as Hfield
    by (vm_compute; repeat constructor).
  destruct (hcfk_requires_global_id referring_apps ∅ None "User" "OrganizationMember"
              region_reference {[REGION]} Hmodel Hfield eq_refl eq_refl eq_refl)
    as (Hrejected & _).
  apply Hrejected. split_and!; [reflexivity| |set_solver].
  intros [Hactor _]. discriminate Hactor.
Defined.

(** C5, as the specification words it, fails: a cross-silo reference to a
    model without a snowflake id, outside the named pair, raises nothing
    when the target lives in CONTROL only. *)
Lemma control_target_raises_nothing :
  SnowflakeIdMixin sample_apps "User" = false
  ∧ ¬ ("User" = Actor sample_apps ∧ "OrganizationMember" = NotificationSetting sample_apps)
  ∧ {| RelatedField := None; HybridCloudForeignKey := Some (Some "User") |}
    ∈ _meta_fields sample_apps "OrganizationMember"
  ∧ ¬ raises (validate_hcfk_has_global_id sample_apps "OrganizationMember" (Some "User"))
  ∧ ¬ raises (validate_no_cross_silo_foreign_keys sample_apps ∅ None).
Proof.
  split_and!.
  - reflexivity.
  - intros [Hactor _]. discriminate Hactor.
  - vm_compute. repeat constructor.
  - vm_compute. by intros [e He].
  - vm_compute. by intros [e He].
Qed.

Definition token_of_user : model_pair string := (model_class "ApiToken", model_class "User").
Definition token_of_organization : model_pair string :=
  (model_class "ApiToken", model_class "Organization").

Lemma exempted_relations_seen_witness :
  (∀ seen, validate_field crossing_apps "ApiToken" {[token_of_organization]} seen crossing_field
           = Return (seen ∪ {[token_of_organization]}))
  ∧ ∀ seen, validate_no_cross_silo_foreign_keys crossing_apps {[token_of_organization]} None
            = Return seen →
            token_of_organization ∈ seen.
Proof.
  assert ("ApiToken" ∈ iter_models crossing_apps None) as Hmodel
    by (vm_compute; repeat constructor).
  assert (crossing_field ∈ _meta_fields crossing_apps "ApiToken") as Hfield
    by (vm_compute; repeat constructor).
  destruct (exempted_relations_seen crossing_apps {[token_of_organization]} None
              "ApiToken" "Organization" crossing_field {[CONTROL]} {[REGION]}
              Hmodel Hfield eq_refl eq_refl eq_refl)
    as (Hrecorded & _).
  apply Hrecorded; set_solver.
Defined.

(** The scan of the witness does return, with the exempted pair. *)
Example exempted_relation_recorded :
  validate_no_cross_silo_foreign_keys crossing_apps {[token_of_organization]} None
  = Return {[token_of_organization]}.
Proof. vm_compute. reflexivity. Qed.

(** C6, as the specification words it, fails: an exempted pair that is not
    cross-silo is not recorded in the set the scan returns. *)
Lemma stale_exemption_is_not_recorded :
  token_of_user ∈ ({[token_of_user]} : gset (model_pair string))
  ∧ ∃ seen, validate_no_cross_silo_foreign_keys sample_apps {[token_of_user]} None = Return seen
            ∧ token_of_user ∉ seen.
Proof.
  split; [set_solver|]. exists ∅. split; [vm_compute; reflexivity|set_solver].
Qed.

(** ** The silo-mode test decorators *)

Lemma list_omap_agree {A B : Type} (f g : A → option B) (l : list A) :
  Forall (λ x, f x = g x) l → omap f l = omap g l.
Proof.
  induction 1 as [|x l Hx _ IH]; [done|]. cbn. rewrite Hx.
  destruct (g x); [f_equal|]; exact IH.
Qed.

Lemma head_omap_cons {A B : Type} (f : A → option B) (x : A) (l : list A) :
  head (omap f (x :: l))
  = match f x with
    | Some y => Some y
    | None => head (omap f l)
    end.
Proof. cbn. by destruct (f x). Qed.

Section AncestryFacts.
Variable st : interpreter.

(** The walk reaches the [raise] exactly when a class of the queue, or a
    class above one, is seen as decorated. *)
Lemma ancestor_walk_true (class_queue : list addr) :
  ancestor_walk st class_queue = true
  ↔ ∃ cls ancestor,
      cls ∈ class_queue ∧ in_ancestry st cls ancestor ∧ silo_decorated st ancestor = true.
Proof.
  funelim (ancestor_walk st class_queue).
  - split; [done|]. intros (cls & ancestor & Hin & _). by apply elem_of_nil in Hin.
  - destruct (silo_decorated st current_class) eqn:Hcurrent.
    + split; [intros _|done]. exists current_class, current_class.
      split_and!; [left|apply rtc_refl|done].
    + rewrite H. split.
      * intros (cls & ancestor & Hin & Hancestor & Hdecorated).
        apply elem_of_app in Hin as [Hin|Hin].
        -- exists cls, ancestor. split_and!; [by right|done|done].
        -- exists current_class, ancestor. split_and!; [left| |done].
           by eapply rtc_l.
      * intros (cls & ancestor & Hin & Hancestor & Hdecorated).
        apply elem_of_cons in Hin as [->|Hin].
        -- inversion Hancestor as [|? base ? Hbase Hrest]; subst; [congruence|].
           exists base, ancestor. split_and!; [|done|done].
           apply elem_of_app. by right.
        -- exists cls, ancestor. split_and!; [|done|done].
           apply elem_of_app. by left.
Qed.

Lemma ancestor_walk_false (cls : addr) :
  ancestor_walk st [cls] = false ↔ undecorated_ancestry st cls.
Proof.
  rewrite <- not_true_iff_false, ancestor_walk_true. unfold undecorated_ancestry. split.
  - intros Hnone ancestor Hancestor. apply not_true_is_false. intros Hdecorated.
    apply Hnone. exists cls, ancestor. split_and!; [left|done|done].
  - intros Hnone (cls' & ancestor & Hin & Hancestor & Hdecorated).
    apply list_elem_of_singleton in Hin as ->. by rewrite Hnone in Hdecorated.
Qed.

Lemma validate_ancestry_returns (cls : addr) :
  _validate_that_no_ancestor_is_silo_decorated st cls = Return ()
  ↔ undecorated_ancestry st cls.
Proof.
  rewrite <- ancestor_walk_false. unfold _validate_that_no_ancestor_is_silo_decorated.
  by destruct (ancestor_walk st [cls]).
Qed.

(** The classes above a class were created before it. *)
Lemma in_ancestry_le (cls ancestor : addr) :
  in_ancestry st cls ancestor → (ancestor ≤ cls)%nat.
Proof.
  induction 1 as [|cls base ancestor Hbase _ IH]; [done|].
  unfold is_base, __bases__ in Hbase. destruct (classes st !! cls); [|by apply elem_of_nil in Hbase].
  apply list_elem_of_filter in Hbase as [Hbase _]. lia.
Qed.

(** A class that holds the attribute in its own dictionary answers
    [getattr] with it. *)
Lemma getattr_own {V : Type} (attribute : class_object → option V) (cls : addr) (value : V) :
  head (__mro__ st cls) = Some cls →
  own attribute st cls = Some value →
  getattr attribute st cls = Some value.
Proof.
  intros Hhead Hown. unfold getattr.
  destruct (__mro__ st cls) as [|first rest]; [done|]. injection Hhead as ->.
  simpl. by rewrite Hown.
Qed.

End AncestryFacts.

Section DecorationFacts.
Variable self_ : _SiloModeTestModification.
Variable SENTRY_USE_MONOLITH_DBS : bool.
Variable settings : Settings.

(** What [apply] does to a test case class that passes the ancestry check *)
Lemma apply_test_case_class (st : interpreter) (cls : addr) :
  issubclass st cls (TestCase st) = true →
  undecorated_ancestry st cls →
  apply self_ SENTRY_USE_MONOLITH_DBS settings (class_ref cls) st
  = if SENTRY_USE_MONOLITH_DBS || negb (stable self_ || FORCE_SILOED_TESTS settings)
    then (Return (class_ref cls), mark_silo_decorated self_ st cls)
    else
      match _add_siloed_test_classes_to_module self_ (mark_silo_decorated self_ st cls) cls with
      | (Raise e, st') => (Raise e, st')
      | (Return new_class, st') => (Return (class_ref new_class), st')
      end.
Proof.
  intros Hsub Hclean. apply validate_ancestry_returns in Hclean.
  unfold apply. by rewrite Hsub, Hclean.
Qed.

Lemma apply_decorated_ancestor (st : interpreter) (cls : addr) :
  issubclass st cls (TestCase st) = true →
  ¬ undecorated_ancestry st cls →
  apply self_ SENTRY_USE_MONOLITH_DBS settings (class_ref cls) st
  = (Raise (AncestorAlreadySiloDecoratedException (cannot_decorate st cls)), st).
Proof.
  intros Hsub Hdecorated. rewrite <- ancestor_walk_false in Hdecorated.
  apply not_false_is_true in Hdecorated.
  unfold apply, _validate_that_no_ancestor_is_silo_decorated. by rewrite Hsub, Hdecorated.
Qed.

Lemma apply_function (st : interpreter) (f : function_object) :
  apply self_ SENTRY_USE_MONOLITH_DBS settings (function_ref f) st
  = if SENTRY_USE_MONOLITH_DBS || negb (stable self_ || FORCE_SILOED_TESTS settings)
    then (Return (function_ref f), st)
    else
      match _mark_parameterized_by_silo_mode self_ f with
      | Raise e => (Raise e, st)
      | Return new_test_method => (Return new_test_method, st)
      end.
Proof. done. Qed.

(** *** Marking a class leaves everything else as it is *)

Lemma mark_lookup (st : interpreter) (cls other : addr) :
  classes (mark_silo_decorated self_ st cls) !! other
  = (if decide (other = cls) then set_silo_modes (silo_modes self_) else id)
      <$> classes st !! other.
Proof.
  unfold mark_silo_decorated. simpl. case_decide as Heq.
  - subst. apply list_lookup_alter_eq.
  - rewrite list_lookup_alter_ne by done. by rewrite option_fmap_id.
Qed.

Lemma mark_length (st : interpreter) (cls : addr) :
  length (classes (mark_silo_decorated self_ st cls)) = length (classes st).
Proof. unfold mark_silo_decorated. simpl. apply length_alter. Qed.

Lemma mark_bases (st : interpreter) (cls other : addr) :
  __bases__ (mark_silo_decorated self_ st cls) other = __bases__ st other.
Proof.
  unfold __bases__. rewrite mark_lookup.
  destruct (classes st !! other); [|done]. simpl. by case_decide.
Qed.

Lemma mark_mro (st : interpreter) (cls other : addr) :
  __mro__ (mark_silo_decorated self_ st cls) other = __mro__ st other.
Proof.
  unfold __mro__. rewrite mark_lookup.
  destruct (classes st !! other); [|done]. simpl. by case_decide.
Qed.

Lemma mark_own {V : Type} (attribute : class_object → option V) (st : interpreter)
    (cls other : addr) :
  (∀ c, attribute (set_silo_modes (silo_modes self_) c) = attribute c) →
  own attribute (mark_silo_decorated self_ st cls) other = own attribute st other.
Proof.
  intros Hkept. unfold own. rewrite mark_lookup.
  destruct (classes st !! other); [|done]. simpl. by case_decide.
Qed.

Lemma mark_getattr {V : Type} (attribute : class_object → option V) (st : interpreter)
    (cls other : addr) :
  (∀ c, attribute (set_silo_modes (silo_modes self_) c) = attribute c) →
  getattr attribute (mark_silo_decorated self_ st cls) other = getattr attribute st other.
Proof.
  intros Hkept. unfold getattr. rewrite mark_mro. f_equal.
  apply list_omap_agree, Forall_forall. intros x _. by apply mark_own.
Qed.

Lemma mark_in_ancestry (st : interpreter) (cls other ancestor : addr) :
  in_ancestry (mark_silo_decorated self_ st cls) other ancestor ↔ in_ancestry st other ancestor.
Proof.
  unfold in_ancestry. split; apply rtc_subrel; intros a b; unfold is_base;
    by rewrite mark_bases.
Qed.

End DecorationFacts.


(** *** The store after a class is added *)

Section StoreExtension.
Variables (st st' : interpreter) (c : class_object).
Hypothesis Hext : classes st' = classes st ++ [c].

Lemma extension_lookup (cls : addr) :
  cls ≠ length (classes st) → classes st' !! cls = classes st !! cls.
Proof.
  intros Hne. rewrite Hext.
  destruct (decide (cls < length (classes st))%nat) as [Hlt|Hge].
  - by apply lookup_app_l.
  - rewrite !lookup_ge_None_2; [done|lia|]. rewrite length_app. simpl. lia.
Qed.

Lemma extension_lookup_new : classes st' !! (length (classes st) : addr) = Some c.
Proof. rewrite Hext. by apply list_lookup_middle. Qed.

Lemma extension_bases (cls : addr) :
  cls ≠ length (classes st) → __bases__ st' cls = __bases__ st cls.
Proof. intros Hne. unfold __bases__. by rewrite extension_lookup. Qed.

Lemma extension_bases_new :
  __bases__ st' (length (classes st))
  = filter (λ base, (base < length (classes st))%nat) (class_bases c).
Proof. unfold __bases__. by rewrite extension_lookup_new. Qed.

Lemma extension_mro (cls : addr) :
  cls ≠ length (classes st) → __mro__ st' cls = __mro__ st cls.
Proof. intros Hne. unfold __mro__. by rewrite extension_lookup. Qed.

Lemma extension_mro_new : __mro__ st' (length (classes st)) = class_mro c.
Proof. unfold __mro__. by rewrite extension_lookup_new. Qed.

Lemma extension_own {V : Type} (attribute : class_object → option V) (cls : addr) :
  cls ≠ length (classes st) → own attribute st' cls = own attribute st cls.
Proof. intros Hne. unfold own. by rewrite extension_lookup. Qed.

Lemma extension_own_new {V : Type} (attribute : class_object → option V) :
  own attribute st' (length (classes st)) = attribute c.
Proof. unfold own. by rewrite extension_lookup_new. Qed.

Lemma own_missing {V : Type} (attribute : class_object → option V) :
  own attribute st (length (classes st)) = None.
Proof.
  unfold own.
  assert (classes st !! (length (classes st) : addr) = None) as ->; [|done].
  by apply lookup_ge_None_2.
Qed.

(** [getattr] on an older class whose resolution order does not hold the
    new class *)
Lemma extension_getattr {V : Type} (attribute : class_object → option V) (cls : addr) :
  cls ≠ length (classes st) →
  length (classes st) ∉ __mro__ st cls →
  getattr attribute st' cls = getattr attribute st cls.
Proof.
  intros Hne Hnot. unfold getattr. rewrite extension_mro by done. f_equal.
  apply list_omap_agree, Forall_forall. intros other Hother.
  apply extension_own. by intros ->.
Qed.

(** An attribute the new class does not define is looked up as before,
    whatever the resolution orders hold. *)
Lemma extension_getattr_undefined {V : Type} (attribute : class_object → option V) (cls : addr) :
  attribute c = None →
  cls ≠ length (classes st) →
  getattr attribute st' cls = getattr attribute st cls.
Proof.
  intros Hnone Hne. unfold getattr. rewrite extension_mro by done. f_equal.
  apply list_omap_agree, Forall_forall. intros other _.
  destruct (decide (other = length (classes st))) as [->|Hother].
  - by rewrite extension_own_new, own_missing.
  - by apply extension_own.
Qed.

Lemma extension_getattr_new_undefined {V : Type} (attribute : class_object → option V)
    (base : addr) :
  attribute c = None →
  base ≠ length (classes st) →
  class_mro c = length (classes st) :: __mro__ st base →
  getattr attribute st' (length (classes st)) = getattr attribute st base.
Proof.
  intros Hnone Hbase Hmro.
  rewrite <- (extension_getattr_undefined attribute base Hnone Hbase).
  unfold getattr. rewrite extension_mro_new, Hmro, (extension_mro base Hbase).
  cbn. by rewrite extension_own_new, Hnone.
Qed.


Lemma is_base_earlier (s : interpreter) (cls base : addr) :
  is_base s cls base → (base < cls)%nat.
Proof.
  unfold is_base, __bases__. destruct (classes s !! cls); [|by intros ?%elem_of_nil].
  by intros [? _]%list_elem_of_filter.
Qed.

Lemma extension_in_ancestry (cls ancestor : addr) :
  (cls < length (classes st))%nat →
  in_ancestry st' cls ancestor ↔ in_ancestry st cls ancestor.
Proof.
  intros Hlt. split; intros Hancestor.
  - induction Hancestor as [|cls base ancestor Hbase _ IH]; [apply rtc_refl|].
    pose proof (is_base_earlier _ _ _ Hbase) as Hearlier.
    unfold is_base in Hbase. rewrite extension_bases in Hbase by lia.
    apply (rtc_l _ _ base); [done|]. apply IH. lia.
  - induction Hancestor as [|cls base ancestor Hbase _ IH]; [apply rtc_refl|].
    pose proof (is_base_earlier _ _ _ Hbase) as Hearlier.
    apply (rtc_l _ _ base); [|apply IH; lia].
    unfold is_base. by rewrite extension_bases by lia.
Qed.

(** The ancestry of the new class, when it has a single base *)
Lemma extension_in_ancestry_new (base ancestor : addr) :
  class_bases c = [base] →
  (base < length (classes st))%nat →
  in_ancestry st' (length (classes st)) ancestor
  ↔ ancestor = length (classes st) ∨ in_ancestry st base ancestor.
Proof.
  intros Hbases Hbase. split.
  - intros Hancestor. inversion Hancestor as [|? base' ? Hstep Hrest]; subst; [by left|].
    right. unfold is_base in Hstep. rewrite extension_bases_new, Hbases in Hstep.
    apply list_elem_of_filter in Hstep as [_ Hstep]. apply list_elem_of_singleton in Hstep as ->.
    by apply extension_in_ancestry.
  - intros [->|Hancestor]; [apply rtc_refl|].
    apply (rtc_l _ _ base); [|by apply extension_in_ancestry].
    unfold is_base. rewrite extension_bases_new, Hbases.
    apply list_elem_of_filter. split; [done|]. by apply list_elem_of_singleton.
Qed.

(** A new class without a marker of its own, put under a single base whose
    ancestry is undecorated, has an undecorated ancestry. *)
Lemma extension_undecorated (base : addr) :
  class_bases c = [base] →
  class_mro c = length (classes st) :: __mro__ st base →
  class_silo_modes c = None →
  (base < length (classes st))%nat →
  undecorated_ancestry st base →
  undecorated_ancestry st' (length (classes st)).
Proof.
  intros Hbases Hmro Hnone Hbase Hclean ancestor Hancestor.
  apply (extension_in_ancestry_new base) in Hancestor as [->|Hancestor]; [| |done|done].
  - unfold silo_decorated.
    rewrite (extension_getattr_new_undefined class_silo_modes base) by (done || lia).
    apply (Hclean base), rtc_refl.
  - pose proof (in_ancestry_le _ _ _ Hancestor) as Hle.
    unfold silo_decorated.
    rewrite (extension_getattr_undefined class_silo_modes ancestor) by (done || lia).
    by apply Hclean.
Qed.

Lemma extension_well_formed (mro_tail : list addr) :
  class_mro c = length (classes st) :: mro_tail →
  Forall (λ other, (other ≤ length (classes st))%nat) mro_tail →
  mro_well_formed st → mro_well_formed st'.
Proof.
  intros Hmro Htail Hwf cls c'.
  destruct (decide (cls = length (classes st))) as [->|Hne].
  - rewrite extension_lookup_new. intros [= <-]. rewrite Hmro. split; [done|].
    by constructor.
  - rewrite extension_lookup by done. apply Hwf.
Qed.

End StoreExtension.

Lemma well_formed_mro_le (st : interpreter) (cls other : addr) :
  mro_well_formed st → other ∈ __mro__ st cls → (other ≤ cls)%nat.
Proof.
  intros Hwf. unfold __mro__. destruct (classes st !! cls) as [c|] eqn:Hc;
    [|by intros ?%elem_of_nil].
  destruct (Hwf cls c Hc) as [_ Hle]. intros Hin.
  by apply (proj1 (Forall_forall _ _) Hle).
Qed.

Section DecorationClaims.
Variable self_ : _SiloModeTestModification.
Variable SENTRY_USE_MONOLITH_DBS : bool.
Variable settings : Settings.

(** X24.  What the walk over the ancestry does reject.  For every test case
    class, if some class of its ancestry, found by the breadth-first walk
    over all the bases, holds a [_silo_modes] marker that is not empty,
    applying a silo decorator raises [AncestorAlreadySiloDecoratedException]
    at decoration time: no class is marked or created and no name is
    bound. *)
Theorem decorated_ancestor_is_rejected
    (st : interpreter) (cls ancestor : addr) (modes : gset SiloMode) :
  issubclass st cls (TestCase st) = true →
  in_ancestry st cls ancestor →
  head (__mro__ st ancestor) = Some ancestor →
  own class_silo_modes st ancestor = Some modes →
  modes ≠ ∅ →
  apply self_ SENTRY_USE_MONOLITH_DBS settings (class_ref cls) st
  = (Raise (AncestorAlreadySiloDecoratedException (cannot_decorate st cls)), st).
Proof.
  intros Hsub Hancestor Hhead Hown Hmodes.
  apply apply_decorated_ancestor; [done|]. intros Hclean.
  specialize (Hclean ancestor Hancestor). unfold silo_decorated in Hclean.
  rewrite (getattr_own st class_silo_modes ancestor modes Hhead Hown) in Hclean.
  by apply bool_decide_eq_false in Hclean.
Qed.

(** C4, as the code has it.  For every test function, and for every test
    case class no ancestor of which is seen as silo decorated, decorated with
    [stable=False] when the monolith-database-only mode is on or
    [FORCE_SILOED_TESTS] is off: [apply] returns the decorated object itself.
    No class is created, no name is bound, a function gets no
    parameterization, the test method of a class runs under the settings of
    the process, as before, and the class is only marked with
    [_silo_modes]. *)
Theorem unstable_decoration_collapses (st : interpreter) (decorated_obj : object) :
  stable self_ = false →
  SENTRY_USE_MONOLITH_DBS = true ∨ FORCE_SILOED_TESTS settings = false →
  match decorated_obj with
  | class_ref cls => issubclass st cls (TestCase st) = true ∧ undecorated_ancestry st cls
  | function_ref _ => True
  | _ => False
  end →
  ∃ st',
    apply self_ SENTRY_USE_MONOLITH_DBS settings decorated_obj st = (Return decorated_obj, st')
    ∧ length (classes st') = length (classes st)
    ∧ namespaces st' = namespaces st
    ∧ (∀ cls s, silo_mode_of_test st' cls s = silo_mode_of_test st cls s)
    ∧ match decorated_obj with
      | class_ref cls => st' = mark_silo_decorated self_ st cls
      | _ => st' = st
      end.
Proof.
  intros Hstable Hflags Hunit.
  assert (SENTRY_USE_MONOLITH_DBS || negb (stable self_ || FORCE_SILOED_TESTS settings) = true)
    as Hcollapse.
  { rewrite Hstable. destruct Hflags as [-> | ->]; [done|]. apply orb_true_r. }
  destruct decorated_obj as [cls|f| |]; [| |done|done].
  - destruct Hunit as [Hsub Hclean].
    exists (mark_silo_decorated self_ st cls).
    rewrite (apply_test_case_class _ _ _ _ _ Hsub Hclean), Hcollapse.
    split_and!; [done|apply mark_length|done| |done].
    intros other s. unfold silo_mode_of_test. by rewrite mark_getattr.
  - exists st. by rewrite apply_function, Hcollapse.
Qed.

End DecorationClaims.

Lemma sample_store_test_case : issubclass sample_store MyTest (TestCase sample_store) = true.
Proof. reflexivity. Qed.

Lemma sample_store_undecorated : undecorated_ancestry sample_store MyTest.
Proof. apply ancestor_walk_false. reflexivity. Qed.

Lemma unstable_decoration_collapses_witness :
  ∃ st',
    apply (__call__ control_silo_test false []) false monolith_settings
      (class_ref MyTest) sample_store
    = (Return (class_ref MyTest), st')
    ∧ length (classes st') = length (classes sample_store)
    ∧ namespaces st' = namespaces sample_store.
Proof.
  destruct (unstable_decoration_collapses (__call__ control_silo_test false []) false
              monolith_settings sample_store (class_ref MyTest)
              eq_refl (or_intror eq_refl)
              (conj sample_store_test_case sample_store_undecorated))
    as (st' & Happly & Hlength & Hnames & _).
  exists st'. by split_and!.
Defined.

(** The same decoration of a test function *)
Example unstable_function_is_returned :
  apply (__call__ all_silo_test false []) false monolith_settings
    (function_ref test_function) sample_store
  = (Return (function_ref test_function), sample_store).
Proof. reflexivity. Qed.

Lemma child_in_ancestry : in_ancestry child_of_control_decorated 5%nat MyTest.
Proof.
  apply (rtc_l _ _ 4%nat); [vm_compute; repeat constructor|].
  apply (rtc_l _ _ MyTest); [vm_compute; repeat constructor|].
  apply rtc_refl.
Qed.

Lemma decorated_ancestor_is_rejected_witness :
  apply (__call__ region_silo_test true []) false monolith_settings
    (class_ref 5%nat) child_of_control_decorated
  = (Raise (AncestorAlreadySiloDecoratedException
              "Cannot decorate class 'ChildTest', which inherits from a silo decorated class"),
     child_of_control_decorated).
Proof.
  exact (decorated_ancestor_is_rejected (__call__ region_silo_test true []) false
           monolith_settings child_of_control_decorated 5%nat MyTest {[CONTROL]}
           eq_refl child_in_ancestry eq_refl eq_refl
           (λ Hempty : ({[CONTROL]} : gset SiloMode) = ∅,
              non_empty_singleton_L (C:=gset SiloMode) CONTROL Hempty)).
Defined.

(** C4, as the specification words it, fails: with [stable=False] and
    [FORCE_SILOED_TESTS] off, the decoration of a class derived from a
    decorated class does not return the class; the walk over the ancestry
    comes before the test that collapses the decoration, and raises. *)
Lemma unstable_decoration_of_decorated_child_raises :
  stable (__call__ region_silo_test false []) = false
  ∧ FORCE_SILOED_TESTS monolith_settings = false
  ∧ issubclass child_of_control_decorated 5%nat (TestCase child_of_control_decorated) = true
  ∧ apply (__call__ region_silo_test false []) false monolith_settings
      (class_ref 5%nat) child_of_control_decorated
    = (Raise (AncestorAlreadySiloDecoratedException
                "Cannot decorate class 'ChildTest', which inherits from a silo decorated class"),
       child_of_control_decorated).
Proof.
  assert (issubclass child_of_control_decorated 5%nat (TestCase child_of_control_decorated)
          = true) as Hsub by by vm_compute.
  split_and!; [done|done|done|].
  apply (apply_decorated_ancestor (__call__ region_silo_test false []) false monolith_settings
           child_of_control_decorated 5%nat Hsub).
  rewrite <- ancestor_walk_false. by vm_compute.
Qed.

(** C7.  The code at the input on which it fails the claim.  MyTest is
    decorated with [@no_silo_test(stable=True)] and ChildTest derives from
    the class the decorator returned: MyTest is in the ancestry of ChildTest
    and carries the marker [_silo_modes], with the empty set of modes.
    Decorating ChildTest with [@region_silo_test(stable=True)] raises
    nothing; it returns a class, and the sibling it binds to the name
    ChildTest__InRegionMode runs its tests in MONOLITH mode. *)
Lemma empty_marker_is_not_rejected :
  in_ancestry child_of_no_silo_decorated 4%nat MyTest
  ∧ own class_silo_modes child_of_no_silo_decorated MyTest = Some ∅
  ∧ (apply (__call__ region_silo_test true []) false monolith_settings
       (class_ref 4%nat) child_of_no_silo_decorated).1
    = Return (class_ref 6%nat)
  ∧ namespaces
      (apply (__call__ region_silo_test true []) false monolith_settings
         (class_ref 4%nat) child_of_no_silo_decorated).2
    !! ("tests.sentry.test_sample", "ChildTest__InRegionMode")
    = Some 5%nat
  ∧ silo_mode_of_test
      (apply (__call__ region_silo_test true []) false monolith_settings
         (class_ref 4%nat) child_of_no_silo_decorated).2
      5%nat monolith_settings
    = Some (Return MONOLITH).
Proof.
  split_and!.
  - apply (rtc_l _ _ 3%nat); [vm_compute; repeat constructor|].
    apply (rtc_l _ _ MyTest); [vm_compute; repeat constructor|].
    apply rtc_refl.
  - reflexivity.
  - by vm_compute.
  - by vm_compute.
  - by vm_compute.
Qed.

(** *** Classes made by a decoration *)

Section CreationFacts.
Variable self_ : _SiloModeTestModification.

Lemma create_overriding_returns
    (st : interpreter) (test_class : addr) (silo_mode : SiloMode) (name_suffix : string)
    (callSetUp callTestMethod : method) (c : class_object) :
  getattr class_callSetUp st test_class = Some callSetUp →
  getattr class_callTestMethod st test_class = Some callTestMethod →
  classes st !! test_class = Some c →
  _create_overriding_test_class self_ st test_class silo_mode name_suffix
  = (Return (length (classes st)),
     add_class st
       {| class_name := class_name c +:+ name_suffix;
          class_module := "sentry.testutils.silo";
          class_bases := [test_class];
          class_mro := length (classes st) :: __mro__ st test_class;
          class_silo_modes := None;
          class_callSetUp := Some (wrapper self_ silo_mode callSetUp);
          class_callTestMethod := Some (wrapper self_ silo_mode callTestMethod) |}).
Proof.
  intros HsetUp Htest Hc. unfold _create_overriding_test_class.
  by rewrite HsetUp, Htest, Hc.
Qed.

Lemma create_overriding_cases
    (st : interpreter) (test_class : addr) (silo_mode : SiloMode) (name_suffix : string) :
  (∃ name, _create_overriding_test_class self_ st test_class silo_mode name_suffix
           = (Raise (AttributeError name), st))
  ∨ (∃ st', _create_overriding_test_class self_ st test_class silo_mode name_suffix
            = (Return (length (classes st)), st')
            ∧ subclass_made st st' test_class (length (classes st))).
Proof.
  unfold _create_overriding_test_class.
  destruct (getattr class_callSetUp st test_class); [|left; by eexists].
  destruct (getattr class_callTestMethod st test_class); [|left; by eexists].
  destruct (classes st !! test_class) as [c|] eqn:Hc; [|left; by eexists].
  right. eexists. split; [done|].
  split_and!; [done|by eapply lookup_lt_Some|done|done|].
  eexists. by split_and!.
Qed.

Lemma register_in_module_classes (st : interpreter) (test_class cls : addr) :
  classes (register_in_module st test_class cls) = classes st
  ∧ TestCase (register_in_module st test_class cls) = TestCase st.
Proof.
  unfold register_in_module.
  by destruct (classes st !! test_class), (classes st !! cls).
Qed.

(** The loop over the secondary modes raises nothing but the
    [AttributeError] of a missing hidden method. *)
Lemma add_secondary_classes_raises
    (secondary_modes : list SiloMode) (test_class : addr) :
  ∀ st e st',
    add_secondary_classes self_ st test_class secondary_modes = (Raise e, st') →
    ∃ name, e = AttributeError name.
Proof.
  induction secondary_modes as [|silo_mode rest IH]; intros st e st'; simpl; [done|].
  destruct (create_overriding_cases st test_class silo_mode (_get_test_name_suffix silo_mode))
    as [[name ->]|(st1 & -> & _)].
  - intros [= <- _]. by exists name.
  - apply IH.
Qed.

Lemma add_siloed_raises (st : interpreter) (test_class : addr) (e : exception)
    (st' : interpreter) :
  _add_siloed_test_classes_to_module self_ st test_class = (Raise e, st') →
  ∃ name, e = AttributeError name.
Proof.
  unfold _add_siloed_test_classes_to_module.
  destruct _arrange_silo_modes as [primary_mode secondary_modes].
  destruct (add_secondary_classes self_ st test_class secondary_modes)
    as [[[]|e1] st1] eqn:Hsecondary.
  - destruct (create_overriding_cases st1 test_class primary_mode EmptyString)
      as [[name ->]|(st2 & -> & _)]; [|done].
    intros [= <- _]. by exists name.
  - intros [= <- _]. by eapply add_secondary_classes_raises.
Qed.

(** A decoration does not raise the ancestry error on a class whose
    ancestry is undecorated. *)
Lemma apply_accepts (SENTRY_USE_MONOLITH_DBS : bool) (settings : Settings)
    (st : interpreter) (cls : addr) (msg : string) :
  undecorated_ancestry st cls →
  (apply self_ SENTRY_USE_MONOLITH_DBS settings (class_ref cls) st).1
  ≠ Raise (AncestorAlreadySiloDecoratedException msg).
Proof.
  intros Hclean.
  destruct (issubclass st cls (TestCase st)) eqn:Hsub.
  - rewrite (apply_test_case_class _ _ _ _ _ Hsub Hclean).
    destruct (_ || _); [done|].
    destruct (_add_siloed_test_classes_to_module _ _ _) as [[new_class|e] st'] eqn:Hadd; [done|].
    apply add_siloed_raises in Hadd as [name ->]. done.
  - unfold apply. by rewrite Hsub.
Qed.

Lemma mark_own_silo_modes_cases (st : interpreter) (cls other : addr) :
  own class_silo_modes (mark_silo_decorated self_ st cls) other
  = if decide (other = cls) then (λ _, silo_modes self_) <$> classes st !! other
    else own class_silo_modes st other.
Proof.
  unfold own. rewrite mark_lookup. destruct (classes st !! other); [|by case_decide].
  by case_decide.
Qed.

(** Marking a class with the empty set of modes leaves every class as
    undecorated as it was. *)
Lemma mark_empty_silo_decorated (st : interpreter) (cls other : addr) :
  silo_modes self_ = ∅ →
  silo_decorated st other = false →
  silo_decorated (mark_silo_decorated self_ st cls) other = false.
Proof.
  intros Hempty. unfold silo_decorated, getattr. rewrite mark_mro.
  induction (__mro__ st other) as [|first rest IH]; [done|].
  rewrite !head_omap_cons, mark_own_silo_modes_cases.
  case_decide as Hfirst.
  - subst. unfold own. destruct (classes st !! cls) as [c|]; [|exact IH].
    cbn. rewrite Hempty. intros _. apply bool_decide_eq_false_2.
    intros Hne. by apply Hne.
  - destruct (own class_silo_modes st first); [done|exact IH].
Qed.

Lemma mark_empty_undecorated (st : interpreter) (cls : addr) :
  silo_modes self_ = ∅ →
  undecorated_ancestry st cls →
  undecorated_ancestry (mark_silo_decorated self_ st cls) cls.
Proof.
  intros Hempty Hclean ancestor Hancestor. apply mark_in_ancestry in Hancestor.
  by apply mark_empty_silo_decorated, Hclean.
Qed.

Lemma mark_own_silo_modes (st : interpreter) (cls : addr) (c : class_object) :
  classes st !! cls = Some c →
  own class_silo_modes (mark_silo_decorated self_ st cls) cls = Some (silo_modes self_).
Proof.
  intros Hc. unfold own. rewrite mark_lookup, Hc. cbn. by rewrite decide_True.
Qed.

End CreationFacts.

Lemma issubclass_exists (st : interpreter) (cls base : addr) :
  issubclass st cls base = true → ∃ c, classes st !! cls = Some c.
Proof.
  unfold issubclass, __mro__. intros Hin%bool_decide_eq_true.
  destruct (classes st !! cls) as [c|]; [by exists c|]. by apply elem_of_nil in Hin.
Qed.

Lemma add_siloed_empty (self_ : _SiloModeTestModification) (st : interpreter) (cls : addr) :
  silo_modes self_ = ∅ →
  _add_siloed_test_classes_to_module self_ st cls
  = _create_overriding_test_class self_ st cls MONOLITH EmptyString.
Proof.
  intros Hempty. unfold _add_siloed_test_classes_to_module, _arrange_silo_modes.
  rewrite Hempty, elements_empty. reflexivity.
Qed.

(** What a successful decoration with an empty set of modes leaves: the
    class it returns has an undecorated ancestry, which holds the decorated
    class with its empty marker. *)
Lemma empty_decoration_returns
    (self_ : _SiloModeTestModification) (SENTRY_USE_MONOLITH_DBS : bool) (settings : Settings)
    (st st1 : interpreter) (cls returned : addr) :
  silo_modes self_ = ∅ →
  apply self_ SENTRY_USE_MONOLITH_DBS settings (class_ref cls) st
  = (Return (class_ref returned), st1) →
  (returned < length (classes st1))%nat
  ∧ (cls < length (classes st1))%nat
  ∧ undecorated_ancestry st1 returned
  ∧ in_ancestry st1 returned cls
  ∧ own class_silo_modes st1 cls = Some ∅.
Proof.
  intros Hempty Happly.
  destruct (issubclass st cls (TestCase st)) eqn:Hsub;
    [|unfold apply in Happly; by rewrite Hsub in Happly].
  destruct (ancestor_walk st [cls]) eqn:Hwalk.
  { rewrite apply_decorated_ancestor in Happly; [done|done|].
    rewrite <- ancestor_walk_false. congruence. }
  apply ancestor_walk_false in Hwalk.
  rewrite (apply_test_case_class _ _ _ _ _ Hsub Hwalk) in Happly.
  destruct (issubclass_exists _ _ _ Hsub) as [c Hc].
  pose proof (lookup_lt_Some _ _ _ Hc) as Hlt.
  pose proof (mark_empty_undecorated self_ st cls Hempty Hwalk) as Hclean.
  pose proof (mark_own_silo_modes self_ st cls c Hc) as Hown. rewrite Hempty in Hown.
  pose proof (mark_length self_ st cls) as Hlength.
  destruct (_ || _).
  - injection Happly as <- <-. split_and!; [lia|lia|done|apply rtc_refl|done].
  - rewrite add_siloed_empty in Happly by done.
    destruct (create_overriding_cases self_ (mark_silo_decorated self_ st cls) cls MONOLITH
                EmptyString) as [[name Hraise]|(st' & Hcreate & Hmade)];
      [by rewrite Hraise in Happly|].
    rewrite Hcreate, Hlength in Happly. injection Happly as <- <-.
    destruct Hmade as (_ & _ & _ & _ & c' & Hext & Hbases & Hmro & Hnone).
    rewrite Hlength in Hmro.
    assert (length (classes st') = S (length (classes st))) as Hlength'.
    { rewrite Hext, length_app, Hlength. simpl. lia. }
    assert (undecorated_ancestry st' (length (classes st))) as Hclean'.
    { rewrite <- Hlength.
      apply (extension_undecorated _ _ c' Hext cls); [done|by rewrite Hlength|done|lia|done]. }
    split_and!; [lia|lia|done| |].
    + rewrite <- Hlength.
      apply (extension_in_ancestry_new _ _ c' Hext cls); [done|lia|]. right. apply rtc_refl.
    + rewrite (extension_own _ _ c' Hext) by lia. done.
Qed.

(** C10.  Decorating a class derived from a class that was decorated with
    [no_silo_test] does not raise [AncestorAlreadySiloDecoratedException]:
    the decorator stores the empty set of modes on the decorated class, the
    walk over the ancestry sees a class marked with the empty set as
    undecorated, and the derived class accepts a further decoration. *)
Theorem subclass_of_no_silo_test_is_accepted
    (SENTRY_USE_MONOLITH_DBS : bool) (settings : Settings)
    (stable : bool) (regions : list Region)
    (st st1 : interpreter) (cls returned : addr) (name module : string)
    (further : _SiloModeTestModification)
    (SENTRY_USE_MONOLITH_DBS' : bool) (settings' : Settings) :
  apply (__call__ no_silo_test stable regions) SENTRY_USE_MONOLITH_DBS settings
    (class_ref cls) st
  = (Return (class_ref returned), st1) →
  let st2 := define_subclass st1 name module returned in
  let child : addr := length (classes st1) in
  own class_silo_modes st2 cls = Some ∅
  ∧ in_ancestry st2 child cls
  ∧ _validate_that_no_ancestor_is_silo_decorated st2 child = Return ()
  ∧ ∀ msg,
      (apply further SENTRY_USE_MONOLITH_DBS' settings' (class_ref child) st2).1
      ≠ Raise (AncestorAlreadySiloDecoratedException msg).
Proof.
  intros Happly st2 child.
  apply empty_decoration_returns in Happly
    as (Hreturned & Hcls & Hclean & Hancestor & Hown); [|done].
  assert (classes st2
          = classes st1 ++ [plain_class name module (length (classes st1)) [returned]
                              (__mro__ st1 returned)]) as Hext by done.
  assert (undecorated_ancestry st2 child) as Hclean2.
  { by apply (extension_undecorated _ _ _ Hext returned). }
  split_and!.
  - rewrite (extension_own _ _ _ Hext) by lia. done.
  - apply (extension_in_ancestry_new _ _ _ Hext returned); [done|done|]. by right.
  - by apply validate_ancestry_returns.
  - intros msg. by apply apply_accepts.
Qed.

Lemma subclass_of_no_silo_test_is_accepted_witness :
  own class_silo_modes child_of_no_silo_decorated MyTest = Some ∅
  ∧ in_ancestry child_of_no_silo_decorated 4%nat MyTest
  ∧ _validate_that_no_ancestor_is_silo_decorated child_of_no_silo_decorated 4%nat = Return ()
  ∧ ∀ msg,
      (apply (__call__ region_silo_test true []) false monolith_settings
         (class_ref 4%nat) child_of_no_silo_decorated).1
      ≠ Raise (AncestorAlreadySiloDecoratedException msg).
Proof.
  exact (subclass_of_no_silo_test_is_accepted false monolith_settings true []
           sample_store
           (apply (__call__ no_silo_test true []) false monolith_settings
              (class_ref MyTest) sample_store).2
           MyTest 3%nat "ChildTest" "tests.sentry.test_sample"
           (__call__ region_silo_test true []) false monolith_settings eq_refl).
Defined.

(** *** The expansion of a class *)






Section SinglePlane.
Variables (settings : Settings) (regions0 : list Region) (plane : SiloMode).
Variables (st : interpreter) (cls : addr) (c : class_object).
Hypothesis Hplane : plane ≠ MONOLITH.
Hypothesis Hwf : mro_well_formed st.
Hypothesis Hc : classes st !! cls = Some c.
Hypothesis Hsub : issubclass st cls (TestCase st) = true.
Hypothesis Hclean : undecorated_ancestry st cls.
Hypothesis HsetUp : getattr class_callSetUp st cls = Some function_def.
Hypothesis Htest : getattr class_callTestMethod st cls = Some function_def.


End SinglePlane.





(** ** The context manager [assume_test_silo_mode] *)

(** C9.  For every desired mode, when [assume_test_silo_mode] is entered
    with [can_be_monolith=True] while the process is in MONOLITH mode, the
    desired mode becomes MONOLITH and no setting is overridden: the body
    runs under the settings of the process, and a body that assigns no
    setting leaves them as they were. *)
Theorem assume_test_silo_mode_in_monolith {A : Type}
    (get_current_mode : Settings → SiloMode) (desired_silo : SiloMode)
    (body : block A) (s : Settings) :
  get_current_mode s = MONOLITH →
  assumed_silo get_current_mode desired_silo true s = MONOLITH
  ∧ assumed_overrides get_current_mode desired_silo true s = []
  ∧ assume_test_silo_mode get_current_mode desired_silo true body s = body s
  ∧ ((body s).2 = s →
     (assume_test_silo_mode get_current_mode desired_silo true body s).2 = s).
Proof.
  intros Hmonolith.
  assert (assumed_silo get_current_mode desired_silo true s = MONOLITH) as Hsilo.
  { unfold assumed_silo. by rewrite Hmonolith. }
  assert (assumed_overrides get_current_mode desired_silo true s = []) as Hoverrides.
  { unfold assumed_overrides. rewrite Hsilo, Hmonolith.
    rewrite bool_decide_eq_false_2 by (intros Hne; by apply Hne). done. }
  assert (assume_test_silo_mode get_current_mode desired_silo true body s = body s) as Hrun.
  { unfold assume_test_silo_mode. by rewrite Hoverrides. }
  split_and!; [done|done|done|]. by rewrite Hrun.
Qed.

Lemma assume_test_silo_mode_in_monolith_witness :
  assume_test_silo_mode SILO_MODE REGION true
    (λ s', (Return (SILO_MODE s', SENTRY_REGION s'), s')) monolith_settings
  = (Return (MONOLITH, None), monolith_settings).
Proof.
  destruct (assume_test_silo_mode_in_monolith SILO_MODE REGION
              (λ s', (Return (SILO_MODE s', SENTRY_REGION s'), s')) monolith_settings eq_refl)
    as (_ & _ & Hrun & _).
  exact Hrun.
Defined.

(** Outside monolith mode the same call does override the settings, for the
    time of the body. *)
Example assume_test_silo_mode_in_control :
  assume_test_silo_mode SILO_MODE REGION true
    (λ s', (Return (SILO_MODE s', SENTRY_REGION s'), s'))
    (assign monolith_settings (set_SILO_MODE CONTROL))
  = (Return (REGION, Some "na"), assign monolith_settings (set_SILO_MODE CONTROL)).
Proof. reflexivity. Qed.

(** ** Further properties of the module *)

(** *** The names of the generated classes *)

Lemma list_ascii_of_string_app (a b : string) :
  list_ascii_of_string (a +:+ b) = list_ascii_of_string a ++ list_ascii_of_string b.
Proof. induction a as [|c a IH]; simpl; [done|]. by rewrite IH. Qed.

Lemma length_list_ascii_of_string (a : string) :
  length (list_ascii_of_string a) = String.length a.
Proof. induction a as [|c a IH]; simpl; [done|]. by rewrite IH. Qed.

Lemma str_endswith_app (name suffix : string) : str_endswith (name +:+ suffix) suffix = true.
Proof.
  apply bool_decide_eq_true. rewrite list_ascii_of_string_app.
  by exists (list_ascii_of_string name).
Qed.

Lemma str_drop_end_app (name suffix : string) :
  suffix ≠ EmptyString → str_drop_end (name +:+ suffix) (String.length suffix) = name.
Proof.
  intros Hsuffix. unfold str_drop_end.
  destruct (String.length suffix) as [|n] eqn:Hlength; [by destruct suffix|].
  rewrite <- Hlength, list_ascii_of_string_app, length_app, length_list_ascii_of_string.
  rewrite (length_list_ascii_of_string suffix).
  replace (String.length name + String.length suffix - String.length suffix)%nat
    with (length (list_ascii_of_string name))
    by (rewrite length_list_ascii_of_string; lia).
  by rewrite take_app_length, string_of_list_ascii_of_string.
Qed.

Lemma str_endswith_inv (name suffix : string) :
  str_endswith name suffix = true →
  suffix ≠ EmptyString →
  name = str_drop_end name (String.length suffix) +:+ suffix.
Proof.
  intros [front Hname]%bool_decide_eq_true Hsuffix.
  assert (name = string_of_list_ascii front +:+ suffix) as Heq.
  { rewrite <- (string_of_list_ascii_of_string name), Hname.
    rewrite <- (list_ascii_of_string_of_list_ascii front) at 1.
    by rewrite <- list_ascii_of_string_app, string_of_list_ascii_of_string. }
  rewrite Heq at 2. by rewrite str_drop_end_app.
Qed.

(** The suffix of one mode is not the end of the suffix of another. *)
Lemma _get_test_name_suffix_ends (silo_mode other : SiloMode) :
  str_endswith (_get_test_name_suffix silo_mode) (_get_test_name_suffix other) = true →
  silo_mode = other.
Proof. by destruct silo_mode, other; vm_compute. Qed.

Lemma _get_test_name_suffix_not_empty (silo_mode : SiloMode) :
  _get_test_name_suffix silo_mode ≠ EmptyString.
Proof. by destruct silo_mode. Qed.

(** A name that ends with the suffix of [silo_mode] ends with the suffix of
    no other mode. *)
Lemma str_endswith_one_suffix (name : string) (silo_mode other : SiloMode) :
  str_endswith name (_get_test_name_suffix silo_mode) = true →
  str_endswith name (_get_test_name_suffix other) = true →
  silo_mode = other.
Proof.
  intros Hmode%bool_decide_eq_true Hother%bool_decide_eq_true.
  destruct (suffix_weak_total _ _ _ Hmode Hother) as [Hends|Hends].
  - symmetry. by apply _get_test_name_suffix_ends, bool_decide_eq_true.
  - by apply _get_test_name_suffix_ends, bool_decide_eq_true.
Qed.

(** X1.  [strip_silo_mode_test_suffix] undoes the renaming of a generated
    class: for every name and every member [silo_mode] of the enumeration,
    whatever the order of the members, stripping the name followed by
    [_get_test_name_suffix(silo_mode)] gives the name back. *)
Theorem strip_silo_mode_test_suffix_round_trip
    (SiloMode_members : list SiloMode) (name : string) (silo_mode : SiloMode) :
  silo_mode ∈ SiloMode_members →
  strip_silo_mode_test_suffix SiloMode_members (name +:+ _get_test_name_suffix silo_mode) = name.
Proof.
  intros Hmember.
  induction SiloMode_members as [|first rest IH]; [by apply elem_of_nil in Hmember|].
  cbn [strip_silo_mode_test_suffix].
  destruct (str_endswith _ (_get_test_name_suffix first)) eqn:Hends.
  - assert (silo_mode = first) as <-.
    { eapply str_endswith_one_suffix; [apply str_endswith_app|exact Hends]. }
    apply str_drop_end_app, _get_test_name_suffix_not_empty.
  - apply elem_of_cons in Hmember as [->|Hmember]; [|by apply IH].
    by rewrite str_endswith_app in Hends.
Qed.

Lemma strip_silo_mode_test_suffix_round_trip_witness :
  strip_silo_mode_test_suffix [MONOLITH; CONTROL; REGION] "MyTest__InControlMode" = "MyTest".
Proof.
  apply (strip_silo_mode_test_suffix_round_trip [MONOLITH; CONTROL; REGION] "MyTest" CONTROL).
  apply elem_of_cons. right. apply elem_of_cons. by left.
Defined.

(** X2.  [strip_silo_mode_test_suffix] removes at most one suffix, and only
    the suffix of a mode: the name it is given is either returned as it is,
    when it ends with the suffix of no member, or is the returned text
    followed by the suffix of a member. *)
Theorem strip_silo_mode_test_suffix_removes_a_suffix
    (SiloMode_members : list SiloMode) (name : string) :
  (strip_silo_mode_test_suffix SiloMode_members name = name
   ∧ ∀ silo_mode, silo_mode ∈ SiloMode_members →
       str_endswith name (_get_test_name_suffix silo_mode) = false)
  ∨ ∃ silo_mode,
      silo_mode ∈ SiloMode_members
      ∧ name = strip_silo_mode_test_suffix SiloMode_members name
               +:+ _get_test_name_suffix silo_mode.
Proof.
  induction SiloMode_members as [|first rest IH]; cbn [strip_silo_mode_test_suffix].
  - left. split; [done|]. by intros silo_mode ?%elem_of_nil.
  - destruct (str_endswith name (_get_test_name_suffix first)) eqn:Hends.
    + right. exists first. split; [by left|].
      apply str_endswith_inv; [done|apply _get_test_name_suffix_not_empty].
    + destruct IH as [[Hsame Hnone]|(silo_mode & Hmember & Hname)].
      * left. split; [done|]. intros silo_mode [->|Hmember]%elem_of_cons; [done|by apply Hnone].
      * right. exists silo_mode. split; [by right|done].
Qed.

Lemma strip_silo_mode_test_suffix_removes_a_suffix_witness :
  ∃ silo_mode,
    silo_mode ∈ [MONOLITH; CONTROL; REGION]
    ∧ "MyTest__InRegionMode"
      = strip_silo_mode_test_suffix [MONOLITH; CONTROL; REGION] "MyTest__InRegionMode"
        +:+ _get_test_name_suffix silo_mode.
Proof.
  destruct (strip_silo_mode_test_suffix_removes_a_suffix [MONOLITH; CONTROL; REGION]
              "MyTest__InRegionMode") as [[_ Hnone]|Hstripped]; [|exact Hstripped].
  specialize (Hnone REGION). vm_compute in Hnone.
  discriminate Hnone. repeat constructor.
Defined.

(** *** Which modes a decoration runs *)

(** X3.  [_arrange_silo_modes] runs every declared mode once: when the
    modes of the modification leave out MONOLITH, as [SiloModeTestDecorator]
    makes them, the primary mode and the secondary modes are pairwise
    distinct, and they are the declared modes together with MONOLITH;
    MONOLITH is left out only when [include_monolith_run] is off and exactly
    one mode is declared. *)
Theorem _arrange_silo_modes_covers (self_ : _SiloModeTestModification) :
  MONOLITH ∉ silo_modes self_ →
  NoDup ((_arrange_silo_modes self_).1 :: (_arrange_silo_modes self_).2)
  ∧ ∀ silo_mode,
      silo_mode ∈ (_arrange_silo_modes self_).1 :: (_arrange_silo_modes self_).2
      ↔ silo_mode ∈ silo_modes self_
        ∨ (silo_mode = MONOLITH
           ∧ (include_monolith_run self_ = true ∨ size (silo_modes self_) ≠ 1%nat)).
Proof.
  intros Hmonolith.
  assert (NoDup (MONOLITH :: elements (silo_modes self_))) as Hdistinct.
  { constructor; [by rewrite elem_of_elements|apply NoDup_elements]. }
  assert (∀ silo_mode,
            silo_mode ∈ MONOLITH :: elements (silo_modes self_)
            ↔ silo_mode ∈ silo_modes self_ ∨ silo_mode = MONOLITH) as Hall.
  { intros silo_mode. rewrite elem_of_cons, elem_of_elements. tauto. }
  unfold _arrange_silo_modes, size, set_size. cbn.
  pose proof (elem_of_elements (silo_modes self_)) as Hin.
  destruct (elements (silo_modes self_)) as [|only [|second rest]] eqn:Helements.
  - split; [done|]. intros silo_mode. rewrite Hall. simpl. intuition lia.
  - destruct (include_monolith_run self_), (run_original_class_in_silo_mode self_); cbn.
    + split.
      * apply NoDup_cons. split; [|apply NoDup_singleton].
        intros ->%list_elem_of_singleton. apply Hmonolith, Hin. by left.
      * intros silo_mode. rewrite !elem_of_cons, <- Hin, list_elem_of_singleton.
        split; [intros [->|[->|[]%elem_of_nil]]|intros [->|[-> _]]]; auto.
    + split; [done|]. intros silo_mode. rewrite Hall. intuition.
    + split; [apply NoDup_singleton|].
      intros silo_mode. rewrite <- Hin. split; [by left|].
      intros [?|[_ [?|?]]]; done.
    + split; [apply NoDup_singleton|].
      intros silo_mode. rewrite <- Hin. split; [by left|].
      intros [?|[_ [?|?]]]; done.
  - split; [done|]. intros silo_mode. rewrite Hall. simpl. intuition lia.
Qed.

Lemma _arrange_silo_modes_covers_witness :
  NoDup ((_arrange_silo_modes (__call__ control_silo_test true [])).1
         :: (_arrange_silo_modes (__call__ control_silo_test true [])).2)
  ∧ ∀ silo_mode,
      silo_mode ∈ (_arrange_silo_modes (__call__ control_silo_test true [])).1
                   :: (_arrange_silo_modes (__call__ control_silo_test true [])).2
      ↔ silo_mode ∈ silo_modes (__call__ control_silo_test true [])
        ∨ (silo_mode = MONOLITH
           ∧ (include_monolith_run (__call__ control_silo_test true []) = true
              ∨ size (silo_modes (__call__ control_silo_test true [])) ≠ 1%nat)).
Proof.
  apply (_arrange_silo_modes_covers (__call__ control_silo_test true [])).
  by vm_compute.
Defined.

(** *** The configuration a test runs under *)

(** X4.  [test_config] puts the body under the settings of the mode and
    restores the settings on the way out.  For a modification whose first
    region is [first]: the body sees SILO_MODE at [silo_mode], the subnet
    secret and the control address of the tests, SENTRY_MONOLITH_REGION at
    the name of [first], the regions of the modification in force, and
    SENTRY_REGION at the name of [first] in REGION mode and untouched in
    the other modes; [test_config] returns or raises what the body does, and
    the settings afterwards are those before it, whatever the body did. *)
Theorem test_config_settings
    (modification : _SiloModeTestModification) (silo_mode : SiloMode) (s : Settings)
    (first : Region) (others : list Region) :
  regions modification = first :: others →
  ∃ s',
    SILO_MODE s' = silo_mode
    ∧ SENTRY_REGION s'
      = (if bool_decide (silo_mode = REGION) then Some (region_name first) else SENTRY_REGION s)
    ∧ SENTRY_SUBNET_SECRET s' = Some "secret"
    ∧ SENTRY_CONTROL_ADDRESS s' = Some "http://controlserver/"
    ∧ SENTRY_MONOLITH_REGION s' = Some (region_name first)
    ∧ FORCE_SILOED_TESTS s' = FORCE_SILOED_TESTS s
    ∧ regions_in_force s' = first :: others
    ∧ ∀ (A : Type) (body : block A),
        test_config modification silo_mode body s = ((body s').1, s).
Proof.
  intros Hregions. unfold test_config. rewrite Hregions.
  exists {| SILO_MODE := silo_mode;
            SENTRY_REGION :=
              if bool_decide (silo_mode = REGION) then Some (region_name first)
              else SENTRY_REGION s;
            SENTRY_SUBNET_SECRET := Some "secret";
            SENTRY_CONTROL_ADDRESS := Some "http://controlserver/";
            SENTRY_MONOLITH_REGION := Some (region_name first);
            FORCE_SILOED_TESTS := FORCE_SILOED_TESTS s;
            regions_in_force := first :: others |}.
  split_and!; try done.
  intros A body. unfold override_settings, override_regions.
  destruct (bool_decide (silo_mode = REGION)); cbn; by destruct (body _).
Qed.

Lemma test_config_settings_witness :
  ∃ s',
    SILO_MODE s' = REGION
    ∧ SENTRY_REGION s' = Some "us"
    ∧ SENTRY_MONOLITH_REGION s' = Some "us"
    ∧ regions_in_force s' = _DEFAULT_TEST_REGIONS
    ∧ ∀ (A : Type) (body : block A),
        test_config (__call__ region_silo_test true []) REGION body monolith_settings
        = ((body s').1, monolith_settings).
Proof.
  destruct (test_config_settings (__call__ region_silo_test true []) REGION monolith_settings
              _ _ eq_refl)
    as (s' & Hmode & Hregion & _ & _ & Hmonolith & _ & Hregions & Hrun).
  exists s'. by split_and!.
Defined.

Lemma test_config_run {A : Type}
    (modification : _SiloModeTestModification) (silo_mode : SiloMode) (s : Settings) :
  regions modification ≠ [] →
  ∃ s', SILO_MODE s' = silo_mode
        ∧ regions_in_force s' = regions modification
        ∧ ∀ body : block A, test_config modification silo_mode body s = ((body s').1, s).
Proof.
  intros Hregions. unfold test_config.
  destruct (regions modification) as [|first others]; [done|].
  exists {| SILO_MODE := silo_mode;
            SENTRY_REGION :=
              if bool_decide (silo_mode = REGION) then Some (region_name first)
              else SENTRY_REGION s;
            SENTRY_SUBNET_SECRET := Some "secret";
            SENTRY_CONTROL_ADDRESS := Some "http://controlserver/";
            SENTRY_MONOLITH_REGION := Some (region_name first);
            FORCE_SILOED_TESTS := FORCE_SILOED_TESTS s;
            regions_in_force := first :: others |}.
  split_and!; try done.
  intros body. unfold override_settings, override_regions.
  destruct (bool_decide (silo_mode = REGION)); cbn; by destruct (body _).
Qed.

(** A chain of wrappers runs the function under the mode and the regions of
    its innermost wrapper, and leaves the settings as they were. *)
Lemma call_innermost {A : Type} (m : method) :
  ∀ (modification : _SiloModeTestModification) (silo_mode : SiloMode) (s : Settings),
    innermost_wrapper m = Some (modification, silo_mode) →
    wrappers_have_regions m →
    ∃ s', SILO_MODE s' = silo_mode
          ∧ regions_in_force s' = regions modification
          ∧ ∀ run : block A, call m run s = ((run s').1, s).
Proof.
  induction m as [|outer outer_mode callable IH]; intros modification silo_mode s; [done|].
  cbn [innermost_wrapper wrappers_have_regions call].
  intros Hinner [Hregions Hrest].
  destruct (test_config_run (A:=A) outer outer_mode s Hregions) as (s1 & Hmode1 & Hregions1 & Hrun1).
  destruct (innermost_wrapper callable) as [[inner inner_mode]|] eqn:Hcallable.
  - injection Hinner as -> ->.
    destruct (IH modification silo_mode s1 eq_refl Hrest) as (s' & Hmode & Hregions' & Hrun).
    exists s'. split_and!; [done|done|].
    intros run. by rewrite Hrun1, Hrun.
  - injection Hinner as -> ->.
    destruct callable as [|? ? inner];
      [|cbn [innermost_wrapper] in Hcallable; by destruct (innermost_wrapper inner)].
    exists s1. split_and!; [done|done|]. intros run. by rewrite Hrun1.
Qed.

(** X5.  Wrappers nest, and the innermost one wins: when the hidden method
    of a class is a chain of wrappers, each of a modification that has a
    region, the test runs under the mode and the regions of the wrapper
    closest to the function, whatever the modes of the wrappers around it;
    the settings of the process are restored afterwards. *)
Theorem innermost_wrapper_decides {A : Type}
    (outer inner : _SiloModeTestModification) (outer_mode inner_mode : SiloMode)
    (callable : method) (s : Settings) :
  innermost_wrapper callable = Some (inner, inner_mode) →
  regions outer ≠ [] →
  wrappers_have_regions callable →
  ∃ s', SILO_MODE s' = inner_mode
        ∧ regions_in_force s' = regions inner
        ∧ ∀ run : block A, call (wrapper outer outer_mode callable) run s = ((run s').1, s).
Proof.
  intros Hinner Hregions Hcallable.
  apply call_innermost; [|done].
  cbn [innermost_wrapper]. by rewrite Hinner.
Qed.

Lemma innermost_wrapper_decides_witness :
  ∃ s', SILO_MODE s' = MONOLITH
        ∧ regions_in_force s' = _DEFAULT_TEST_REGIONS
        ∧ ∀ run : block SiloMode,
            call (wrapper (__call__ control_silo_test true []) CONTROL
                    (wrapper (__call__ no_silo_test true []) MONOLITH function_def))
              run monolith_settings
            = ((run s').1, monolith_settings).
Proof.
  apply (innermost_wrapper_decides (A:=SiloMode)
           (__call__ control_silo_test true []) (__call__ no_silo_test true [])
           CONTROL MONOLITH
           (wrapper (__call__ no_silo_test true []) MONOLITH function_def) monolith_settings).
  - reflexivity.
  - discriminate.
  - split; [discriminate|exact I].
Defined.

(** *** The classes a stable decoration makes *)

Lemma append_inj_r (a b b' : string) : a +:+ b = a +:+ b' → b = b'.
Proof. induction a as [|ch a IH]; simpl; [done|]. intros [= Heq]. by apply IH. Qed.


Lemma _get_test_name_suffix_inj (silo_mode other : SiloMode) :
  _get_test_name_suffix silo_mode = _get_test_name_suffix other → silo_mode = other.
Proof. by destruct silo_mode, other. Qed.

(** An attribute of the own dictionary of a class whose resolution order
    starts with the class *)
Lemma getattr_defined {V : Type} (attribute : class_object → option V) (st : interpreter)
    (cls : addr) (c : class_object) (value : V) (mro_tail : list addr) :
  classes st !! cls = Some c →
  class_mro c = cls :: mro_tail →
  attribute c = Some value →
  getattr attribute st cls = Some value.
Proof.
  intros Hc Hmro Hvalue. unfold getattr, __mro__. rewrite Hc, Hmro.
  cbn. unfold own. by rewrite Hc; cbn; rewrite Hvalue.
Qed.

Lemma mark_well_formed (self_ : _SiloModeTestModification) (st : interpreter) (cls : addr) :
  mro_well_formed st → mro_well_formed (mark_silo_decorated self_ st cls).
Proof.
  intros Hwf other c'. rewrite mark_lookup.
  destruct (classes st !! other) as [c|] eqn:Hc; [|done].
  destruct (Hwf other c Hc) as [Hhead Hle].
  case_decide; intros [= <-]; by split.
Qed.

Section Expansion.
Variable self_ : _SiloModeTestModification.
Variables (cls : addr) (c : class_object) (callSetUp callTestMethod : method).

(** The loop over the secondary modes puts one class per mode at the end of
    the store, in the order of the modes, and binds each to its name in the
    module of the decorated class. *)
Lemma add_secondary_classes_expansion (secondary_modes : list SiloMode) :
  ∀ st,
    mro_well_formed st →
    classes st !! cls = Some c →
    getattr class_callSetUp st cls = Some callSetUp →
    getattr class_callTestMethod st cls = Some callTestMethod →
    ∃ st',
      add_secondary_classes self_ st cls secondary_modes = (Return (), st')
      ∧ classes st'
        = classes st
          ++ imap (λ i silo_mode,
                     overriding_class self_ c cls (__mro__ st cls) silo_mode
                       (_get_test_name_suffix silo_mode) (length (classes st) + i)%nat
                       callSetUp callTestMethod)
                  secondary_modes
      ∧ TestCase st' = TestCase st
      ∧ mro_well_formed st'
      ∧ getattr class_callSetUp st' cls = Some callSetUp
      ∧ getattr class_callTestMethod st' cls = Some callTestMethod
      ∧ (∀ key,
           (∀ silo_mode, silo_mode ∈ secondary_modes →
              key ≠ (class_module c, class_name c +:+ _get_test_name_suffix silo_mode)) →
           namespaces st' !! key = namespaces st !! key)
      ∧ (NoDup secondary_modes →
         ∀ i silo_mode, secondary_modes !! i = Some silo_mode →
           namespaces st' !! (class_module c, class_name c +:+ _get_test_name_suffix silo_mode)
           = Some (length (classes st) + i)%nat).
Proof.
  induction secondary_modes as [|first rest IH]; intros st Hwf Hc HsetUp Htest.
  - exists st. cbn. rewrite app_nil_r. split_and!; try done.
  - cbn [add_secondary_classes].
    pose proof (lookup_lt_Some _ _ _ Hc) as Hlt.
    rewrite (create_overriding_returns self_ st cls first _ _ _ _ HsetUp Htest Hc).
    set (new_class :=
           overriding_class self_ c cls (__mro__ st cls) first (_get_test_name_suffix first)
             (length (classes st)) callSetUp callTestMethod).
    change (add_class st _) with (add_class st new_class).
    assert (classes (add_class st new_class) = classes st ++ [new_class]) as Hext1 by done.
    unfold register_in_module.
    rewrite (extension_lookup _ _ _ Hext1 cls) by lia. rewrite Hc.
    rewrite (extension_lookup_new _ _ _ Hext1).
    set (st2 := {| classes := classes (add_class st new_class);
                   TestCase := TestCase (add_class st new_class);
                   namespaces := _ |}).
    assert (classes st2 = classes st ++ [new_class]) as Hext by done.
    assert (length (classes st) ∉ __mro__ st cls) as Hnot.
    { intros Hin. apply (well_formed_mro_le st cls _ Hwf) in Hin. lia. }
    assert (mro_well_formed st2) as Hwf2.
    { apply (extension_well_formed st st2 new_class Hext (__mro__ st cls)); [done| |done].
      apply Forall_forall. intros other Hother.
      apply (well_formed_mro_le st cls _ Hwf) in Hother. lia. }
    assert (classes st2 !! cls = Some c) as Hc2.
    { rewrite (extension_lookup _ _ _ Hext) by lia. done. }
    assert (getattr class_callSetUp st2 cls = Some callSetUp) as HsetUp2.
    { rewrite (extension_getattr _ _ _ Hext); [done|lia|done]. }
    assert (getattr class_callTestMethod st2 cls = Some callTestMethod) as Htest2.
    { rewrite (extension_getattr _ _ _ Hext); [done|lia|done]. }
    assert (__mro__ st2 cls = __mro__ st cls) as Hmro2.
    { rewrite (extension_mro _ _ _ Hext) by lia. done. }
    assert (length (classes st2) = S (length (classes st))) as Hlength2.
    { rewrite Hext, length_app. simpl. lia. }
    destruct (IH st2 Hwf2 Hc2 HsetUp2 Htest2)
      as (st' & Hrun & Hclasses & HTestCase & Hwf' & HsetUp' & Htest' & Hkeys & Hbound).
    exists st'. split_and!; try done.
    + rewrite Hclasses, Hmro2, Hlength2, Hext, <- app_assoc. f_equal. cbn [imap app].
      f_equal.
      * unfold new_class. by rewrite Nat.add_0_r.
      * apply imap_ext. intros i silo_mode _. cbn. f_equal. lia.
    + intros key Hkey. rewrite Hkeys.
      * unfold st2. cbn [namespaces]. apply lookup_insert_ne.
        intros <-. by apply (Hkey first); [left|].
      * intros silo_mode Hmember. apply Hkey. by right.
    + intros [Hfirst Hdistinct]%NoDup_cons [|i] silo_mode Hlookup.
      * injection Hlookup as <-. rewrite Hkeys.
        -- unfold st2. cbn [namespaces]. rewrite Nat.add_0_r. apply lookup_insert_eq.
        -- intros silo_mode Hmember [= Heq]. apply append_inj_r, _get_test_name_suffix_inj in Heq.
           by subst.
      * rewrite (Hbound Hdistinct i silo_mode Hlookup). f_equal. lia.
Qed.

End Expansion.

Section ApplyExpansion.
Variable self_ : _SiloModeTestModification.
Variable settings : Settings.
Variables (st : interpreter) (cls : addr) (c : class_object).
Variables (callSetUp callTestMethod : method).
Hypothesis Hexpand : stable self_ || FORCE_SILOED_TESTS settings = true.
Hypothesis Hwf : mro_well_formed st.
Hypothesis Hc : classes st !! cls = Some c.
Hypothesis Hsub : issubclass st cls (TestCase st) = true.
Hypothesis Hclean : undecorated_ancestry st cls.
Hypothesis HsetUp : getattr class_callSetUp st cls = Some callSetUp.
Hypothesis Htest : getattr class_callTestMethod st cls = Some callTestMethod.

(** The store after a decoration that expands the class: the class is
    marked, one class per secondary mode follows the classes there were,
    and the class of the primary mode, which is returned, comes last. *)
Lemma apply_expansion :
  ∃ st',
    apply self_ false settings (class_ref cls) st
    = (Return (class_ref (length (classes st) + length (_arrange_silo_modes self_).2)%nat), st')
    ∧ classes st'
      = (alter (set_silo_modes (silo_modes self_)) cls (classes st)
         ++ imap (λ i silo_mode,
                    overriding_class self_ c cls (__mro__ st cls) silo_mode
                      (_get_test_name_suffix silo_mode) (length (classes st) + i)%nat
                      callSetUp callTestMethod)
                 (_arrange_silo_modes self_).2)
        ++ [overriding_class self_ c cls (__mro__ st cls) (_arrange_silo_modes self_).1
              EmptyString (length (classes st) + length (_arrange_silo_modes self_).2)%nat
              callSetUp callTestMethod]
    ∧ TestCase st' = TestCase st
    ∧ (∀ key,
         (∀ silo_mode, silo_mode ∈ (_arrange_silo_modes self_).2 →
            key ≠ (class_module c, class_name c +:+ _get_test_name_suffix silo_mode)) →
         namespaces st' !! key = namespaces st !! key)
    ∧ (NoDup (_arrange_silo_modes self_).2 →
       ∀ i silo_mode, (_arrange_silo_modes self_).2 !! i = Some silo_mode →
         namespaces st' !! (class_module c, class_name c +:+ _get_test_name_suffix silo_mode)
         = Some (length (classes st) + i)%nat).
Proof.
  pose proof (lookup_lt_Some _ _ _ Hc) as Hlt.
  rewrite (apply_test_case_class self_ false settings st cls Hsub Hclean).
  rewrite Hexpand. cbn [negb orb].
  set (st1 := mark_silo_decorated self_ st cls).
  set (c1 := set_silo_modes (silo_modes self_) c).
  assert (classes st1 !! cls = Some c1) as Hc1.
  { unfold st1. rewrite mark_lookup, Hc. cbn. by rewrite decide_True. }
  assert (length (classes st1) = length (classes st)) as Hlength1 by apply mark_length.
  assert (__mro__ st1 cls = __mro__ st cls) as Hmro1 by apply mark_mro.
  assert (mro_well_formed st1) as Hwf1 by by apply mark_well_formed.
  assert (getattr class_callSetUp st1 cls = Some callSetUp) as HsetUp1.
  { unfold st1. by rewrite mark_getattr. }
  assert (getattr class_callTestMethod st1 cls = Some callTestMethod) as Htest1.
  { unfold st1. by rewrite mark_getattr. }
  unfold _add_siloed_test_classes_to_module.
  destruct (_arrange_silo_modes self_) as [primary_mode secondary_modes]. cbn [fst snd].
  destruct (add_secondary_classes_expansion self_ cls c1 callSetUp callTestMethod
              secondary_modes st1 Hwf1 Hc1 HsetUp1 Htest1)
    as (st2 & -> & Hclasses2 & HTestCase2 & Hwf2 & HsetUp2 & Htest2 & Hkeys & Hbound).
  rewrite Hlength1, Hmro1 in Hclasses2.
  assert (classes st2 !! cls = Some c1) as Hc2.
  { rewrite Hclasses2, lookup_app_l by (rewrite Hlength1; lia). done. }
  assert (length (classes st2) = (length (classes st) + length secondary_modes)%nat)
    as Hlength2.
  { by rewrite Hclasses2, length_app, length_imap, Hlength1. }
  assert (__mro__ st2 cls = __mro__ st cls) as Hmro2.
  { unfold __mro__ at 1. rewrite Hc2. unfold __mro__. by rewrite Hc. }
  rewrite (create_overriding_returns self_ st2 cls primary_mode _ _ _ _ HsetUp2 Htest2 Hc2).
  rewrite Hlength2, Hmro2.
  eexists. split; [reflexivity|].
  cbn [classes TestCase namespaces add_class].
  rewrite Hlength1 in Hbound.
  split_and!; [by rewrite Hclasses2|done|exact Hkeys|exact Hbound].
Qed.

End ApplyExpansion.

Lemma expansion_lookup_sibling {A : Type} (old : list A) (f : nat → SiloMode → A)
    (modes : list SiloMode) (last : A) (i : nat) (silo_mode : SiloMode) :
  modes !! i = Some silo_mode →
  ((old ++ imap f modes) ++ [last]) !! (length old + i)%nat = Some (f i silo_mode).
Proof.
  intros Hlookup. pose proof (lookup_lt_Some _ _ _ Hlookup) as Hlt.
  rewrite lookup_app_l by (rewrite length_app, length_imap; lia).
  rewrite lookup_app_r by lia.
  replace (length old + i - length old)%nat with i by lia.
  by rewrite list_lookup_imap, Hlookup.
Qed.

Lemma expansion_lookup_returned {A : Type} (old : list A) (f : nat → SiloMode → A)
    (modes : list SiloMode) (last : A) :
  ((old ++ imap f modes) ++ [last]) !! (length old + length modes)%nat = Some last.
Proof.
  assert (length old + length modes = length (old ++ imap f modes))%nat as ->
    by by rewrite length_app, length_imap.
  apply list_lookup_middle. done.
Qed.





(** X7.  Decorating a class that inherits wrapped hidden methods does not
    change the mode its tests run in.  When the hidden method
    [_callTestMethod] that the decorated class inherits is already a chain of
    wrappers, as it is for a class derived from the class that an earlier
    stable decoration returned, every class the new decoration makes, the
    siblings named for the secondary modes and the returned class alike, runs
    its tests in the mode of the innermost wrapper of that chain, whatever
    the modes of the new decoration. *)
Theorem redecoration_keeps_inner_mode
    (self_ inner : _SiloModeTestModification) (inner_mode : SiloMode) (settings : Settings)
    (st : interpreter) (cls : addr) (c : class_object) (callSetUp callTestMethod : method) :
  stable self_ || FORCE_SILOED_TESTS settings = true →
  mro_well_formed st →
  classes st !! cls = Some c →
  issubclass st cls (TestCase st) = true →
  undecorated_ancestry st cls →
  getattr class_callSetUp st cls = Some callSetUp →
  getattr class_callTestMethod st cls = Some callTestMethod →
  innermost_wrapper callTestMethod = Some (inner, inner_mode) →
  wrappers_have_regions callTestMethod →
  regions self_ ≠ [] →
  ∃ st' (returned : addr),
    apply self_ false settings (class_ref cls) st = (Return (class_ref returned), st')
    ∧ length (classes st') = S returned
    ∧ (length (classes st) ≤ returned)%nat
    ∧ ∀ new_class : addr,
        (length (classes st) ≤ new_class ≤ returned)%nat →
        ∀ s, silo_mode_of_test st' new_class s = Some (Return inner_mode).
Proof.
  intros Hexpand Hwf Hc Hsub Hclean HsetUp Htest Hinner Hchain Hregions.
  destruct (apply_expansion self_ settings st cls c callSetUp callTestMethod
              Hexpand Hwf Hc Hsub Hclean HsetUp Htest)
    as (st' & Happly & Hclasses & _).
  destruct (_arrange_silo_modes self_) as [primary_mode secondary_modes].
  cbn [fst snd] in Happly, Hclasses.
  assert (length (alter (set_silo_modes (silo_modes self_)) cls (classes st))
          = length (classes st)) as Hmarked by apply length_alter.
  assert (∀ silo_mode s,
            (call (wrapper self_ silo_mode callTestMethod)
               (λ s', (Return (SILO_MODE s'), s')) s).1
            = Return inner_mode) as Hmode.
  { intros silo_mode s.
    destruct (call_innermost (A:=SiloMode) (wrapper self_ silo_mode callTestMethod)
                inner inner_mode s) as (s' & Hs' & _ & Hrun).
    - cbn [innermost_wrapper]. by rewrite Hinner.
    - by split.
    - rewrite Hrun. cbn. by rewrite Hs'. }
  exists st', (length (classes st) + length secondary_modes)%nat.
  split_and!; [done| |lia|].
  - rewrite Hclasses, !length_app, length_imap, Hmarked. simpl. lia.
  - intros new_class Hnew s. unfold silo_mode_of_test.
    destruct (decide (new_class = length (classes st) + length secondary_modes)%nat)
      as [->|Hsibling].
    + assert (classes st' !! ((length (classes st) + length secondary_modes)%nat : addr)
              = Some (overriding_class self_ c cls (__mro__ st cls) primary_mode EmptyString
                        (length (classes st) + length secondary_modes)%nat
                        callSetUp callTestMethod)) as Hreturned.
      { rewrite Hclasses, <- Hmarked. apply expansion_lookup_returned. }
      rewrite (getattr_defined class_callTestMethod _ _ _ _ _ Hreturned eq_refl eq_refl).
      cbn [mbind option_bind]. f_equal. apply Hmode.
    + destruct (lookup_lt_is_Some_2 secondary_modes (new_class - length (classes st))%nat)
        as [silo_mode Hlookup]; [lia|].
      assert (classes st' !! new_class
              = Some (overriding_class self_ c cls (__mro__ st cls) silo_mode
                        (_get_test_name_suffix silo_mode) new_class
                        callSetUp callTestMethod)) as Hmade.
      { rewrite Hclasses.
        replace new_class
          with (length (alter (set_silo_modes (silo_modes self_)) cls (classes st))
                + (new_class - length (classes st)))%nat at 1 by lia.
        rewrite (expansion_lookup_sibling _ _ _ _ _ _ Hlookup).
        cbn beta. do 3 f_equal. lia. }
      rewrite (getattr_defined class_callTestMethod _ _ _ _ _ Hmade eq_refl eq_refl).
      cbn [mbind option_bind]. f_equal. apply Hmode.
Qed.

Lemma child_store_well_formed : mro_well_formed child_of_no_silo_decorated.
Proof.
  intros cls c Hc. destruct cls as [|[|[|[|[|cls]]]]]; vm_compute in Hc;
    first [discriminate Hc|injection Hc as <-];
    (split; [done|repeat constructor; lia]).
Qed.

Lemma child_store_undecorated : undecorated_ancestry child_of_no_silo_decorated 4%nat.
Proof. apply ancestor_walk_false. by vm_compute. Qed.

Lemma redecoration_keeps_inner_mode_witness :
  ∃ st' (returned : addr),
    apply (__call__ control_silo_test true []) false monolith_settings
      (class_ref 4%nat) child_of_no_silo_decorated
    = (Return (class_ref returned), st')
    ∧ length (classes st') = S returned
    ∧ (length (classes child_of_no_silo_decorated) ≤ returned)%nat
    ∧ ∀ new_class : addr,
        (length (classes child_of_no_silo_decorated) ≤ new_class ≤ returned)%nat →
        ∀ s, silo_mode_of_test st' new_class s = Some (Return MONOLITH).
Proof.
  apply (redecoration_keeps_inner_mode
           (__call__ control_silo_test true []) (__call__ no_silo_test true []) MONOLITH
           monolith_settings child_of_no_silo_decorated 4%nat
           (plain_class "ChildTest" "tests.sentry.test_sample" 4%nat [3%nat]
              [3%nat; 2%nat; 1%nat; 0%nat])
           (wrapper (__call__ no_silo_test true []) MONOLITH function_def)
           (wrapper (__call__ no_silo_test true []) MONOLITH function_def)).
  - reflexivity.
  - exact child_store_well_formed.
  - by vm_compute.
  - by vm_compute.
  - exact child_store_undecorated.
  - by vm_compute.
  - by vm_compute.
  - reflexivity.
  - split; [by vm_compute|exact I].
  - by vm_compute.
Defined.

(** The sibling that a second decoration names for CONTROL mode runs in
    MONOLITH mode when the class derives from a class that
    [@no_silo_test(stable=True)] returned. *)
Example control_sibling_runs_in_monolith :
  ∃ st',
    (apply (__call__ control_silo_test true []) false monolith_settings
       (class_ref 4%nat) child_of_no_silo_decorated).2 = st'
    ∧ namespaces st' !! ("tests.sentry.test_sample", "ChildTest__InControlMode") = Some 5%nat
    ∧ silo_mode_of_test st' 5%nat monolith_settings = Some (Return MONOLITH).
Proof. eexists. split; [reflexivity|]. split; by vm_compute. Qed.

(** *** What the protected patterns match *)

Lemma str_contains_quote (s : string) :
  dquote ∈ list_ascii_of_string s → str_contains (String dquote EmptyString) s = true.
Proof.
  induction s as [|ch s IH]; cbn [list_ascii_of_string]; [by intros ?%elem_of_nil|].
  intros [<-|Hin]%elem_of_cons.
  - cbn. by destruct s.
  - cbn [str_contains]. rewrite IH by done. apply orb_true_r.
Qed.

Lemma match_literal_remainder (literal s remainder : string) (ch : ascii) :
  match_literal literal s = Some remainder →
  ch ∈ list_ascii_of_string remainder → ch ∈ list_ascii_of_string s.
Proof.
  revert s. induction literal as [|a literal IH]; intros s; cbn [match_literal].
  - by intros [= ->].
  - destruct s as [|b s]; [done|]. case_bool_decide; [|done].
    intros Hmatch Hin. cbn [list_ascii_of_string]. right. by apply IH.
Qed.

Lemma match_until_quote_found (s remainder : string) :
  match_until_quote s = Some remainder → dquote ∈ list_ascii_of_string s.
Proof.
  induction s as [|ch s IH]; cbn [match_until_quote list_ascii_of_string]; [done|].
  case_bool_decide as Hquote.
  - intros _. rewrite Hquote. by left.
  - intros Hmatch. right. by apply IH.
Qed.

(** A statement that a protected pattern matches holds a double quote. *)
Lemma Pattern_match_quote (protected : Pattern) (sql : string) :
  Pattern_match protected sql = true → str_contains (String dquote EmptyString) sql = true.
Proof.
  unfold Pattern_match. intros Hmatch. apply str_contains_quote.
  destruct (match_literal (pattern_operation protected) sql) as [[|ch after_first]|] eqn:Hoperation;
    [done| |done].
  apply (match_literal_remainder _ _ _ _ Hoperation). cbn [list_ascii_of_string]. right.
  destruct (bool_decide (ch = dquote)); [done|].
  destruct (match_until_quote after_first) as [after_quote|] eqn:Hquote; [|done].
  by apply (match_until_quote_found _ after_quote).
Qed.

Section FenceScannerMore.
Context {Model : Type} `{Countable Model}.
Variable apps : Apps Model.
Variable match_fence_query : string → option string.

#[local] Arguments fence_depth_after : simpl never.

(** X8.  A statement is reported only if it holds a double quote: for every
    registry, every list of compiled patterns and every log whose fence
    markers are starts or ends, when no statement of the log contains a
    double quote, [validate_protected_queries] returns without an error,
    fenced or not. *)
Theorem unquoted_statements_are_not_reported (compiled : list Pattern) (queries : list query) :
  fence_operations_valid match_fence_query queries →
  (∀ sql, Some sql ∈ queries → str_contains (String dquote EmptyString) sql = false) →
  validate_protected_queries apps match_fence_query compiled queries = Return ().
Proof.
  intros Hvalid Hunquoted. apply validate_protected_queries_returns.
  rewrite validate_protected_queries_raises by done.
  intros (i & sql & Hi & Hprotected & _).
  apply list_elem_of_lookup_2 in Hi. apply Hunquoted in Hi.
  unfold is_protected in Hprotected. apply existsb_exists in Hprotected as (protected & _ & Hmatch).
  apply Pattern_match_quote in Hmatch. congruence.
Qed.

(** *** The scan of a log, piece by piece *)

Lemma scan_queries_app (queries first_part second_part : list query) :
  ∀ (st : scan_state) (index : Z),
    scan_queries apps match_fence_query queries st index (first_part ++ second_part)
    = st1 ← scan_queries apps match_fence_query queries st index first_part;
      scan_queries apps match_fence_query queries st1
        (index + Z.of_nat (length first_part)) second_part.
Proof.
  induction first_part as [|query first_part IH]; intros st index.
  - cbn. by rewrite Z.add_0_r.
  - cbn [app scan_queries length].
    destruct (scan_query apps match_fence_query queries st index query) as [st1|e]; [|done].
    cbn [mbind result_bind]. rewrite IH.
    by replace (index + Z.of_nat (S (length first_part)))
         with (index + 1 + Z.of_nat (length first_part)) by lia.
Qed.

(** What the loop holds after a part of the log that raises nothing: the
    depth, the index of the last start marker, which lies before the
    current index, and patterns that match what the initial ones do. *)
Lemma scan_queries_state (queries part : list query) :
  ∀ (st st' : scan_state) (index : Z),
    scan_queries apps match_fence_query queries st index part = Return st' →
    fence_depth st' = foldl (fence_depth_after match_fence_query) (fence_depth st) part
    ∧ (∀ sql, is_protected apps (_protected_operations st') sql
              = is_protected apps (_protected_operations st) sql)
    ∧ (0 ≤ start_fence_index st ≤ index →
       0 ≤ start_fence_index st' ≤ index + Z.of_nat (length part)).
Proof.
  induction part as [|[sql|] part IH]; intros st st' index.
  - intros [= <-]. split_and!; [done|done|]. cbn. lia.
  - cbn [scan_queries scan_query].
    destruct (scan_fence match_fence_query st index sql) as [st1|e] eqn:Hfence; [|done].
    cbn [mbind result_bind].
    destruct (scan_protected_cases apps queries st1 index sql) as [[_ [e ->]]|[_ ->]]; [done|].
    cbn [mbind result_bind]. intros Hrest.
    destruct (IH _ _ _ Hrest) as (Hdepth & Hpatterns & Hstart).
    cbn [fence_depth start_fence_index _protected_operations] in Hdepth, Hpatterns, Hstart.
    pose proof (scan_fence_depth _ _ _ _ _ Hfence) as [Hdepth1 Hcompiled1].
    split_and!.
    + rewrite Hdepth. cbn [foldl]. by rewrite Hdepth1.
    + intros sql'. by rewrite Hpatterns, is_protected_compiled, Hcompiled1.
    + intros Hindex.
      assert (0 ≤ start_fence_index st1 ≤ index) as Hindex1.
      { revert Hfence. unfold scan_fence.
        destruct (match_fence_query sql) as [operation|]; [|by intros [= <-]].
        repeat case_bool_decide; intros [= <-]; cbn; lia. }
      cbn [length]. specialize (Hstart ltac:(lia)). lia.
  - cbn [scan_queries scan_query mbind result_bind]. intros Hrest.
    destruct (IH _ _ _ Hrest) as (Hdepth & Hpatterns & Hstart).
    split_and!; [done|done|]. intros Hindex. cbn [length]. specialize (Hstart ltac:(lia)). lia.
Qed.

(** A part of the log without a protected operation outside a fence is
    passed without an error. *)
Lemma scan_queries_clean (queries part : list query) (st : scan_state) (index : Z) :
  fence_operations_valid match_fence_query part →
  (∀ i sql, part !! i = Some (Some sql) →
            is_protected apps (_protected_operations st) sql = true →
            foldl (fence_depth_after match_fence_query) (fence_depth st) (take (S i) part) ≠ 0) →
  ∃ st', scan_queries apps match_fence_query queries st index part = Return st'.
Proof.
  intros Hvalid Hclean.
  destruct (scan_queries apps match_fence_query queries st index part) as [st'|e] eqn:Hscan;
    [by exists st'|].
  exfalso.
  assert (raises (scan_queries apps match_fence_query queries st index part)) as Hraises
    by (rewrite Hscan; by exists e).
  apply scan_queries_raises in Hraises as (i & sql & Hi & Hprotected & Hdepth); [|done].
  by apply (Hclean i sql).
Qed.

End FenceScannerMore.

Lemma unquoted_statements_are_not_reported_witness :
  validate_protected_queries sample_apps role_override_marker []
    [Some delete_user_unquoted; Some end_fence]
  = Return ().
Proof.
  apply unquoted_statements_are_not_reported.
  - intros sql operation Hin Hmatch. set_unfold in Hin.
    destruct Hin as [[= ->]|[[= ->]|[]]].
    + vm_compute in Hmatch. discriminate Hmatch.
    + vm_compute in Hmatch. injection Hmatch as <-. by right.
  - intros sql Hin. set_unfold in Hin.
    destruct Hin as [[= ->]|[[= ->]|[]]]; reflexivity.
Defined.

Lemma slice_elem_of {A : Type} (l : list A) (start stop : Z) (j : nat) (x : A) :
  l !! j = Some x → 0 ≤ start ≤ Z.of_nat j → Z.of_nat j < stop → x ∈ slice l start stop.
Proof.
  intros Hlookup Hstart Hstop. unfold slice.
  apply (list_elem_of_lookup_2 _ (j - Z.to_nat start)%nat).
  rewrite lookup_take_lt by lia. rewrite lookup_drop.
  by replace (Z.to_nat start + (j - Z.to_nat start))%nat with j by lia.
Qed.

(** A record without a text in the reported window makes [str.join] fail:
    the thirteen lines of the head of the message are texts, so the item
    that fails comes after them. *)
Lemma protected_operation_error_none
    (queries : list query) (sql : string) (start_fence_index index : Z) :
  None ∈ slice queries (Z.max 0 (start_fence_index - context_queries))
           (Z.min (index + context_queries) (Z.of_nat (length queries))) →
  ∃ item, protected_operation_error queries sql start_fence_index index
          = Raise (TypeError_join item)
          ∧ (13 ≤ item)%nat.
Proof.
  intros Hnone. unfold protected_operation_error, join_lines.
  set (query_slice := slice _ _ _) in *.
  assert (None ∈ message_log query_slice sql) as Hlog.
  { unfold message_log. apply list_elem_of_In, in_flat_map. exists None.
    split; [by apply list_elem_of_In|]. rewrite bool_decide_eq_false_2 by done. by left. }
  destruct (list_find_elem_of (λ line : option string, line = None) _ None Hlog eq_refl)
    as [[item line] Hfind].
  rewrite list_find_app_r by reflexivity. rewrite Hfind. cbn.
  exists (item + 13)%nat. split; [done|lia].
Qed.

Section FenceScannerErrors.
Context {Model : Type} `{Countable Model}.
Variable apps : Apps Model.
Variable match_fence_query : string → option string.

#[local] Arguments fence_depth_after : simpl never.

Lemma scan_queries_before (compiled : list Pattern) (queries before : list query) :
  fence_operations_valid match_fence_query before →
  (∀ i, ¬ unfenced_at apps match_fence_query compiled before i) →
  ∃ st,
    scan_queries apps match_fence_query queries
      {| fence_depth := 0; start_fence_index := 0; _protected_operations := compiled |}
      0 before
    = Return st
    ∧ fence_depth st = foldl (fence_depth_after match_fence_query) 0 before
    ∧ (∀ sql, is_protected apps (_protected_operations st) sql = is_protected apps compiled sql)
    ∧ 0 ≤ start_fence_index st ≤ Z.of_nat (length before).
Proof.
  intros Hvalid Hclean.
  destruct (scan_queries_clean apps match_fence_query queries before
              {| fence_depth := 0; start_fence_index := 0; _protected_operations := compiled |}
              0 Hvalid) as [st Hscan].
  { intros i sql Hi Hprotected Hdepth. apply (Hclean i). by exists sql. }
  exists st. split; [done|].
  destruct (scan_queries_state apps match_fence_query _ _ _ _ _ Hscan)
    as (Hdepth & Hpatterns & Hstart).
  cbn in Hstart. split_and!; [done|done|lia..].
Qed.

(** X9.  A fence marker that is neither a start nor an end stops the scan:
    when the statements before it raise nothing, the scan raises the
    AssertionError [Invalid fencing operation encounted], whatever the
    marker fences and whatever follows it. *)
Theorem invalid_fence_operation_raises
    (compiled : list Pattern) (before after : list query) (sql operation : string) :
  fence_operations_valid match_fence_query before →
  (∀ i, ¬ unfenced_at apps match_fence_query compiled before i) →
  match_fence_query sql = Some operation →
  operation ≠ "start" →
  operation ≠ "end" →
  validate_protected_queries apps match_fence_query compiled (before ++ Some sql :: after)
  = Raise (AssertionError "Invalid fencing operation encounted").
Proof.
  intros Hvalid Hclean Hmatch Hstart Hend. unfold validate_protected_queries.
  rewrite scan_queries_app.
  destruct (scan_queries_before compiled (before ++ Some sql :: after) before Hvalid Hclean)
    as (st & -> & _).
  cbn [mbind result_bind scan_queries scan_query]. unfold scan_fence. rewrite Hmatch.
  by rewrite !bool_decide_eq_false_2 by done.
Qed.

(** X10.  A record without a text next to the offending statement turns
    the report into a TypeError.  When the statements before a protected
    operation raise nothing, the operation is outside every fence, and one
    of the four records that follow it has [None] for its text, the scan
    raises the TypeError of [str.join], at an item after the thirteen lines
    of the head of the message, and not the AssertionError of the protected
    operation. *)
Theorem none_record_after_unfenced_operation
    (compiled : list Pattern) (before window after : list query) (sql : string) :
  fence_operations_valid match_fence_query before →
  (∀ i, ¬ unfenced_at apps match_fence_query compiled before i) →
  (∀ operation, match_fence_query sql = Some operation →
                operation = "start" ∨ operation = "end") →
  is_protected apps compiled sql = true →
  fence_depth_at match_fence_query (before ++ [Some sql]) (length before) = 0 →
  (length window < 4)%nat →
  ∃ item,
    validate_protected_queries apps match_fence_query compiled
      (before ++ Some sql :: window ++ None :: after)
    = Raise (TypeError_join item)
    ∧ (13 ≤ item)%nat.
Proof.
  intros Hvalid Hclean Hoperation Hprotected Hdepth Hwindow.
  unfold validate_protected_queries. rewrite scan_queries_app.
  set (queries := before ++ Some sql :: window ++ None :: after).
  destruct (scan_queries_before compiled queries before Hvalid Hclean)
    as (st & -> & Hdepth_before & Hpatterns & Hstart).
  cbn [mbind result_bind scan_queries scan_query].
  destruct (scan_fence_returns match_fence_query st (0 + Z.of_nat (length before)) sql Hoperation)
    as [st1 Hfence].
  rewrite Hfence. cbn [mbind result_bind].
  pose proof (scan_fence_depth _ _ _ _ _ Hfence) as [Hdepth1 Hcompiled1].
  assert (fence_depth st1 = 0) as Hzero.
  { rewrite Hdepth1, Hdepth_before. unfold fence_depth_at in Hdepth.
    rewrite take_ge in Hdepth by (rewrite length_app; simpl; lia).
    by rewrite foldl_app in Hdepth. }
  assert (0 ≤ start_fence_index st1 ≤ Z.of_nat (length before)) as Hstart1.
  { revert Hfence. unfold scan_fence.
    destruct (match_fence_query sql) as [operation|]; [|by intros [= <-]].
    repeat case_bool_decide; intros [= <-]; cbn; lia. }
  destruct (protected_operation_error_none queries sql (start_fence_index st1)
              (0 + Z.of_nat (length before))) as (item & Herror & Hitem).
  { unfold query in *.
    apply (slice_elem_of _ _ _ (length before + S (length window))%nat).
    - unfold queries. rewrite lookup_app_r by lia.
      replace (length before + S (length window) - length before)%nat
        with (S (length window)) by lia.
      cbn [lookup list_lookup]. by apply list_lookup_middle.
    - unfold context_queries. lia.
    - unfold context_queries, queries.
      rewrite length_app. cbn [length]. rewrite length_app. cbn [length]. lia. }
  exists item. split; [|done].
  unfold scan_protected. rewrite existsb_and_r.
  fold (is_protected apps (_protected_operations st1) sql).
  rewrite Hcompiled1, Hpatterns, Hprotected, (bool_decide_eq_true_2 _ Hzero).
  cbn [andb]. by rewrite Herror.
Qed.

End FenceScannerErrors.

Lemma invalid_fence_operation_raises_witness :
  validate_protected_queries sample_apps pausing_marker []
    [Some begin_fence; Some pause_fence; Some end_fence]
  = Raise (AssertionError "Invalid fencing operation encounted").
Proof.
  apply (invalid_fence_operation_raises sample_apps pausing_marker []
           [Some begin_fence] [Some end_fence] pause_fence "pause").
  - intros sql operation Hin Hmatch. set_unfold in Hin. destruct Hin as [[= ->]|[]].
    vm_compute in Hmatch. injection Hmatch as <-. by left.
  - intros [|i] (sql & Hi & Hprotected & _); [|done].
    injection Hi as <-. vm_compute in Hprotected. discriminate Hprotected.
  - reflexivity.
  - discriminate.
  - discriminate.
Defined.

Lemma none_record_after_unfenced_operation_witness :
  ∃ item,
    validate_protected_queries sample_apps role_override_marker []
      [Some begin_fence; Some end_fence; Some delete_user; None]
    = Raise (TypeError_join item)
    ∧ (13 ≤ item)%nat.
Proof.
  apply (none_record_after_unfenced_operation sample_apps role_override_marker []
           [Some begin_fence; Some end_fence] [] [] delete_user).
  - intros sql operation Hin Hmatch. set_unfold in Hin.
    destruct Hin as [[= ->]|[[= ->]|[]]].
    + vm_compute in Hmatch. injection Hmatch as <-. by left.
    + vm_compute in Hmatch. injection Hmatch as <-. by right.
  - intros [|[|i]] (sql & Hi & Hprotected & _); [| |done].
    + injection Hi as <-. vm_compute in Hprotected. discriminate Hprotected.
    + injection Hi as <-. vm_compute in Hprotected. discriminate Hprotected.
  - intros operation Hmatch. vm_compute in Hmatch. discriminate Hmatch.
  - reflexivity.
  - reflexivity.
  - cbn. lia.
Defined.

(** *** The list of protected patterns *)

(** A fold whose steps keep an invariant and never undo what a step has
    established for its item *)
Lemma foldl_established {A B : Type} (f : B → A → B) (Inv : B → Prop) (Q : A → B → Prop)
    (items : list A) :
  (∀ acc item, Inv acc → Inv (f acc item)) →
  (∀ acc item, Inv acc → Q item (f acc item)) →
  (∀ acc item other, Inv acc → Q other acc → Q other (f acc item)) →
  ∀ acc, Inv acc →
    Inv (foldl f acc items) ∧ ∀ item, item ∈ items → Q item (foldl f acc items).
Proof.
  intros Hinv Hstep Hkeep. induction items as [|first rest IH]; intros acc Hacc; cbn [foldl].
  - split; [done|]. by intros item ?%elem_of_nil.
  - destruct (IH (f acc first) (Hinv _ _ Hacc)) as [Hfinal Hrest]. split; [done|].
    intros item [->|Hin]%elem_of_cons; [|by apply Hrest].
    clear Hrest Hfinal IH. pose proof (Hstep acc first Hacc) as Hfirst.
    pose proof (Hinv acc first Hacc) as Hacc1.
    generalize dependent (f acc first). clear Hacc acc.
    induction rest as [|second rest IH]; intros acc Hfirst Hacc; [done|].
    cbn [foldl]. apply IH; [by apply Hkeep|by apply Hinv].
Qed.

Lemma foldl_grows {A B C : Type} (f : B → A → B) (content : B → list C) (items : list A) :
  (∀ acc item x, x ∈ content acc → x ∈ content (f acc item)) →
  ∀ acc x, x ∈ content acc → x ∈ content (foldl f acc items).
Proof.
  intros Hgrows. induction items as [|first rest IH]; intros acc x Hx; [done|].
  cbn [foldl]. by apply IH, Hgrows.
Qed.

Section ProtectedOperations.
Context {Model : Type} `{Countable Model}.
Variable apps : Apps Model.

Lemma protect_foreign_model_grows (acc : gset Model * list Pattern) (field : Field Model)
    (protected : Pattern) :
  protected ∈ acc.2 → protected ∈ (protect_foreign_model apps acc field).2.
Proof.
  intros Hin. unfold protect_foreign_model.
  destruct (HybridCloudForeignKey field) as [[fk_model|]|]; [|done|done].
  case_bool_decide; [done|]. cbn. apply elem_of_app. by left.
Qed.

Lemma protect_foreign_model_seen (acc : gset Model * list Pattern) (field : Field Model) :
  seen_models_protected apps acc → seen_models_protected apps (protect_foreign_model apps acc field).
Proof.
  intros Hacc. unfold protect_foreign_model.
  destruct (HybridCloudForeignKey field) as [[fk_model|]|]; [|done|done].
  case_bool_decide; [done|]. intros other. cbn. rewrite elem_of_union, elem_of_singleton.
  intros [->|Hother]; apply elem_of_app; [right; by left|left; by apply Hacc].
Qed.

Lemma protect_foreign_model_target (acc : gset Model * list Pattern) (field : Field Model)
    (fk_model : Model) :
  seen_models_protected apps acc →
  HybridCloudForeignKey field = Some (Some fk_model) →
  protected_table (_meta_db_table apps fk_model) "delete"
  ∈ (protect_foreign_model apps acc field).2.
Proof.
  intros Hacc Hfield. unfold protect_foreign_model. rewrite Hfield.
  case_bool_decide; [by apply Hacc|]. cbn. apply elem_of_app. right. by left.
Qed.

Lemma protect_model_grows (acc : gset Model * list Pattern) (model : Model)
    (protected : Pattern) :
  protected ∈ acc.2 → protected ∈ (protect_model apps acc model).2.
Proof.
  intros Hin. unfold protect_model.
  assert (protected ∈ (foldl (protect_foreign_model apps) acc (_meta_fields apps model)).2)
    as Hfields.
  { by apply (foldl_grows _ snd), Hin; intros; apply protect_foreign_model_grows. }
  destruct (_ || _); [|done]. cbn. apply elem_of_app. by left.
Qed.

Lemma protect_model_seen (acc : gset Model * list Pattern) (model : Model) :
  seen_models_protected apps acc → seen_models_protected apps (protect_model apps acc model).
Proof.
  intros Hacc. unfold protect_model.
  destruct (foldl_established (protect_foreign_model apps) (seen_models_protected apps)
              (λ _ _, True) (_meta_fields apps model)) with (acc := acc) as [Hfields _];
    [apply protect_foreign_model_seen|done|done|done|].
  destruct (_ || _); [|done]. intros fk_model Hseen. cbn. apply elem_of_app. left.
  by apply Hfields.
Qed.

Lemma protect_model_protected (acc : gset Model * list Pattern) (model : Model) :
  seen_models_protected apps acc → model_protected apps model (protect_model apps acc model).
Proof.
  intros Hacc. unfold protect_model.
  destruct (foldl_established (protect_foreign_model apps) (seen_models_protected apps)
              (λ field acc, ∀ fk_model,
                 HybridCloudForeignKey field = Some (Some fk_model) →
                 protected_table (_meta_db_table apps fk_model) "delete" ∈ acc.2)
              (_meta_fields apps model)) with (acc := acc) as [_ Hfields].
  - apply protect_foreign_model_seen.
  - intros acc' field Hacc' fk_model. by apply protect_foreign_model_target.
  - intros acc' field other _ Hother fk_model Hfield.
    by apply protect_foreign_model_grows, Hother.
  - done.
  - split.
    + intros field fk_model Hfield Hforeign.
      destruct (_ || _); [|by apply (Hfields field)].
      cbn. apply elem_of_app. left. by apply (Hfields field).
    + intros ->. intros operation Hoperation. cbn. apply elem_of_app. right.
      set_unfold in Hoperation. destruct Hoperation as [->|[->|[->|[]]]]; set_solver.
Qed.

Lemma model_protected_grows (acc : gset Model * list Pattern) (model other : Model) :
  model_protected apps other acc → model_protected apps other (protect_model apps acc model).
Proof.
  intros [Hfields Hreplicated]. split.
  - intros field fk_model Hfield Hforeign. by apply protect_model_grows, (Hfields field).
  - intros Hother operation Hoperation. by apply protect_model_grows, Hreplicated.
Qed.

(** X12.  The compiled list covers the registry.  When the list is compiled
    from empty, for every model that [iter_models] yields for an installed
    app: the table of every foreign model of a HybridCloudForeignKey field of
    the model is protected from deletion, and when the model is a replicated
    control or region model its own table is protected from insertion,
    update and deletion. *)
Theorem protected_operations_cover_models (app_config : string) (model : Model) :
  app_config ∈ get_app_configs apps →
  model ∈ iter_models apps (Some app_config) →
  (∀ field fk_model,
     field ∈ _meta_fields apps model →
     HybridCloudForeignKey field = Some (Some fk_model) →
     protected_table (_meta_db_table apps fk_model) "delete"
     ∈ get_protected_operations apps [])
  ∧ (ReplicatedControlModel apps model || ReplicatedRegionModel apps model = true →
     ∀ operation, operation ∈ ["insert"; "update"; "delete"] →
       protected_table (_meta_db_table apps model) operation
       ∈ get_protected_operations apps []).
Proof.
  intros Happ Hmodel.
  assert (model_protected apps model
            (foldl (λ acc app_config, foldl (protect_model apps) acc
                                        (iter_models apps (Some app_config)))
                   (∅, []) (get_app_configs apps))) as [Hfields Hreplicated].
  { destruct (foldl_established
                (λ acc app_config, foldl (protect_model apps) acc
                                     (iter_models apps (Some app_config)))
                (seen_models_protected apps)
                (λ app_config acc, ∀ model, model ∈ iter_models apps (Some app_config) →
                                            model_protected apps model acc)
                (get_app_configs apps)) with (acc := (∅ : gset Model, [] : list Pattern))
      as [_ Hall].
    - intros acc app Hacc.
      by apply (foldl_established (protect_model apps) (seen_models_protected apps) (λ _ _, True));
        [apply protect_model_seen| | |].
    - intros acc app Hacc.
      apply (foldl_established (protect_model apps) (seen_models_protected apps) (model_protected apps));
        [apply protect_model_seen|apply protect_model_protected| |done].
      intros acc' item other _. apply model_protected_grows.
    - intros acc app other Hacc Hother model' Hmodel'.
      specialize (Hother model' Hmodel'). revert Hother.
      generalize (iter_models apps (Some app)). intros models. revert acc Hacc.
      induction models as [|first rest IH]; intros acc Hacc Hother; [done|].
      cbn [foldl]. apply IH; [by apply protect_model_seen|by apply model_protected_grows].
    - by intros fk_model ?%elem_of_empty.
    - by apply (Hall app_config). }
  unfold get_protected_operations, protected_by_models. cbn [bool_decide length].
  rewrite bool_decide_eq_false_2 by (intros Hne; by apply Hne).
  split.
  - intros field fk_model Hfield Hforeign. apply elem_of_app. left. by apply (Hfields field).
  - intros Hmodel_replicated operation Hoperation. apply elem_of_app. left.
    by apply Hreplicated.
Qed.

(** X13.  The list is compiled once.  What [get_protected_operations]
    returns when the module-level list is empty is never empty and ends with
    the seven patterns named in the source; and a later call returns that
    very list, even if the registry of models has changed in between. *)
Theorem protected_operations_memo (later : Apps Model) :
  get_protected_operations apps [] ≠ []
  ∧ (∀ protected, protected ∈ protected_by_name →
                  protected ∈ get_protected_operations apps [])
  ∧ get_protected_operations later (get_protected_operations apps [])
    = get_protected_operations apps [].
Proof.
  assert (get_protected_operations apps [] = protected_by_models apps ++ protected_by_name)
    as Hcompiled by done.
  split_and!.
  - rewrite Hcompiled. intros Hempty. apply app_eq_nil in Hempty as [_ Hempty]. discriminate.
  - intros protected Hin. rewrite Hcompiled. apply elem_of_app. by right.
  - unfold get_protected_operations at 1. rewrite bool_decide_eq_true_2; [done|].
    rewrite Hcompiled, length_app. unfold protected_by_name. simpl. lia.
Qed.

End ProtectedOperations.

Lemma protected_operations_cover_models_witness :
  protected_table "sentry_user" "delete" ∈ get_protected_operations sample_apps []
  ∧ protected_table "sentry_organizationmember" "insert" ∈ get_protected_operations sample_apps [].
Proof.
  destruct (protected_operations_cover_models sample_apps "sentry" "OrganizationMember")
    as [Hfields Hreplicated].
  - apply list_elem_of_singleton. reflexivity.
  - vm_compute. repeat constructor.
  - split.
    + apply (Hfields {| RelatedField := None; HybridCloudForeignKey := Some (Some "User") |}
               "User"); [|reflexivity].
      apply elem_of_cons. right. apply list_elem_of_singleton. reflexivity.
    + apply (Hreplicated eq_refl "insert"). apply elem_of_cons. by left.
Defined.

Lemma protected_operations_memo_witness :
  get_protected_operations crossing_apps (get_protected_operations sample_apps [])
  = get_protected_operations sample_apps []
  ∧ protected_table "sentry_organizationmembermapping" "insert"
    ∈ get_protected_operations sample_apps [].
Proof.
  destruct (protected_operations_memo sample_apps crossing_apps) as (_ & Hnamed & Hmemo).
  split; [exact Hmemo|]. apply Hnamed.
  vm_compute. repeat constructor.
Defined.

(** *** The validators of the model graph, as wholes *)

Lemma for_each_unit {E A : Type} (body : A → result E unit) (items : list A) :
  for_each (λ _ item, body item) () items = Return ()
  ↔ ∀ item, item ∈ items → body item = Return ().
Proof.
  induction items as [|first rest IH]; cbn [for_each].
  - split; [by intros _ item ?%elem_of_nil|done].
  - destruct (body first) as [[]|e] eqn:Hfirst; cbn [mbind result_bind].
    + rewrite IH. split.
      * intros Hrest item [->|Hin]%elem_of_cons; [done|by apply Hrest].
      * intros Hall item Hin. apply Hall. by right.
    + split; [done|]. intros Hall. specialize (Hall first ltac:(by left)). congruence.
Qed.

Lemma for_each_unit_raises {E A : Type} (body : A → result E unit) (items : list A) (e : E) :
  for_each (λ _ item, body item) () items = Raise e →
  ∃ item, item ∈ items ∧ body item = Raise e.
Proof.
  induction items as [|first rest IH]; cbn [for_each]; [done|].
  destruct (body first) as [[]|e'] eqn:Hfirst; cbn [mbind result_bind].
  - intros (item & Hin & Hitem)%IH. exists item. split; [by right|done].
  - intros [= ->]. exists first. split; [by left|done].
Qed.

Section ValidatorsAsWholes.
Context {Model : Type} `{Countable Model}.
Variable apps : Apps Model.

(** X14.  [validate_models_have_silos] returns exactly when every model
    that [iter_models] yields is exempted or has a silo limit that holds
    REGION or CONTROL.  When it raises, the error names a model that is not
    exempted: the error of the missing silo limit when the model has none,
    the error of the pending model when its limit holds neither mode. *)
Theorem validate_models_have_silos_returns
    (exemptions : gset Model) (app_name : option string) :
  (validate_models_have_silos apps exemptions app_name = Return ()
   ↔ ∀ model, model ∈ iter_models apps app_name →
       model ∈ exemptions
       ∨ (∃ modes, _meta_silo_limit apps model = Some modes
                   ∧ (REGION ∈ modes ∨ CONTROL ∈ modes)))
  ∧ ∀ e, validate_models_have_silos apps exemptions app_name = Raise e →
      ∃ model,
        model ∈ iter_models apps app_name
        ∧ (model ∉ exemptions)
        ∧ ((e = MissingSiloLimit model ∧ _meta_silo_limit apps model = None)
           ∨ (e = PendingModel model
              ∧ ∃ modes, _meta_silo_limit apps model = Some modes
                         ∧ (REGION ∉ modes) ∧ (CONTROL ∉ modes))).
Proof.
  unfold validate_models_have_silos. split.
  - rewrite for_each_unit. apply forall_proper. intros model.
    apply forall_proper. intros _.
    unfold _model_silo_limit. case_bool_decide as Hexempt; [naive_solver|].
    destruct (_meta_silo_limit apps model) as [modes|]; cbn [mbind result_bind].
    + repeat case_bool_decide; cbn [andb]; naive_solver.
    + naive_solver.
  - intros e (model & Hin & Hmodel)%for_each_unit_raises.
    exists model. split; [done|].
    unfold _model_silo_limit in Hmodel. case_bool_decide as Hexempt; [done|]. split; [done|].
    destruct (_meta_silo_limit apps model) as [modes|]; cbn [mbind result_bind] in Hmodel.
    + revert Hmodel. repeat case_bool_decide; cbn [andb]; try done.
      intros [= <-]. right. split; [done|]. by exists modes.
    + left. by injection Hmodel as <-.
Qed.

(** *** A graph without cross-silo relations *)

Lemma relation_not_cross_silo (model related : related Model) :
  validate_relation_does_not_cross_silo_foreign_keys apps model related = Return () →
  _is_relation_cross_silo apps model related = Return false.
Proof.
  unfold validate_relation_does_not_cross_silo_foreign_keys, _is_relation_cross_silo.
  destruct model as [|model], related as [|related]; try done.
  destruct (_model_silo_limit apps model) as [modes|e]; [|done]. cbn [mbind result_bind].
  by destruct (first_mode_outside apps (elements modes) related) as [[mode|]|e].
Qed.

Lemma validate_related_field_clean
    (model : Model) (exemptions seen seen' : gset (model_pair Model))
    (related_model : related Model) (continued : bool) :
  validate_related_field apps model ∅ seen related_model = Return (seen', continued) →
  seen' = seen ∧ continued = false
  ∧ validate_related_field apps model exemptions seen related_model = Return (seen, false).
Proof.
  unfold validate_related_field.
  rewrite !(bool_decide_eq_false_2 (_ ∈ (∅ : gset (model_pair Model))))
    by apply not_elem_of_empty.
  cbn [mbind result_bind].
  destruct (validate_relation_does_not_cross_silo_foreign_keys apps (model_class model)
              related_model) as [[]|e] eqn:Hforward; [|done].
  destruct (validate_relation_does_not_cross_silo_foreign_keys apps related_model
              (model_class model)) as [[]|e] eqn:Hbackward; [|done].
  cbn [mbind result_bind]. intros [= <- <-]. split_and!; [done|done|].
  apply relation_not_cross_silo in Hforward as Hforward'.
  apply relation_not_cross_silo in Hbackward as Hbackward'.
  rewrite Hforward', Hbackward'.
  by repeat case_bool_decide.
Qed.

Lemma validate_field_clean
    (model : Model) (exemptions seen seen' : gset (model_pair Model)) (field : Field Model) :
  validate_field apps model ∅ seen field = Return seen' →
  seen' = seen ∧ validate_field apps model exemptions seen field = Return seen.
Proof.
  unfold validate_field.
  destruct (RelatedField field) as [related_model|].
  - destruct (validate_related_field apps model ∅ seen related_model)
      as [[seen1 continued]|e] eqn:Hrelated; [|done].
    apply (validate_related_field_clean _ exemptions) in Hrelated as (-> & -> & ->).
    cbn [mbind result_bind].
    destruct (HybridCloudForeignKey field) as [foreign_model|]; [|by intros [= <-]].
    destruct (validate_hcfk_has_global_id apps model foreign_model) as [[]|e]; [|done].
    by intros [= <-].
  - cbn [mbind result_bind].
    destruct (HybridCloudForeignKey field) as [foreign_model|]; [|by intros [= <-]].
    destruct (validate_hcfk_has_global_id apps model foreign_model) as [[]|e]; [|done].
    by intros [= <-].
Qed.

Lemma validate_fields_clean
    (model : Model) (exemptions : gset (model_pair Model)) (fields : list (Field Model)) :
  ∀ acc seen : gset (model_pair Model),
    for_each (validate_field apps model ∅) acc fields = Return seen →
    seen = acc ∧ for_each (validate_field apps model exemptions) acc fields = Return acc.
Proof.
  induction fields as [|field fields IH]; intros acc seen; cbn [for_each].
  - by intros [= <-].
  - destruct (validate_field apps model ∅ acc field) as [acc1|e] eqn:Hfield; [|done].
    apply (validate_field_clean _ exemptions) in Hfield as [-> ->].
    cbn [mbind result_bind]. apply IH.
Qed.

Lemma validate_models_clean
    (exemptions : gset (model_pair Model)) (models : list Model) :
  ∀ acc seen : gset (model_pair Model),
    for_each (collect_seen apps ∅) acc models = Return seen →
    seen = acc ∧ for_each (collect_seen apps exemptions) acc models = Return acc.
Proof.
  induction models as [|model models IH]; intros acc seen; cbn [for_each].
  - by intros [= <-].
  - intros Hrun.
    assert (collect_seen apps ∅ acc model
            = (validate_model_no_cross_silo_foreign_keys apps model ∅
               ≫= λ seen_by_model, Return (acc ∪ seen_by_model))) as Hstep by done.
    rewrite Hstep in Hrun.
    destruct (validate_model_no_cross_silo_foreign_keys apps model ∅) as [by_model|e] eqn:Hmodel;
      [|done].
    unfold validate_model_no_cross_silo_foreign_keys in Hmodel.
    apply (validate_fields_clean _ exemptions) in Hmodel as [-> Hexempted].
    cbn [mbind result_bind] in Hrun. rewrite (union_empty_r_L acc) in Hrun.
    apply IH in Hrun as [-> Hrest]. split; [done|].
    assert (collect_seen apps exemptions acc model = Return acc) as ->; [|done].
    unfold collect_seen, validate_model_no_cross_silo_foreign_keys. rewrite Hexempted.
    cbn [mbind result_bind]. by rewrite (union_empty_r_L acc).
Qed.

(** X15.  A graph that passes without exemptions needs none.  When
    [validate_no_cross_silo_foreign_keys] returns for the empty set of
    exemptions, it returned the empty set, and for every set of exemptions it
    returns the empty set too: no exemption is used, so every one of them is
    reported as stale by a caller that compares the result with what it
    passed. *)
Theorem clean_graph_uses_no_exemption
    (exemptions seen : gset (model_pair Model)) (app_name : option string) :
  validate_no_cross_silo_foreign_keys apps ∅ app_name = Return seen →
  seen = ∅ ∧ validate_no_cross_silo_foreign_keys apps exemptions app_name = Return ∅.
Proof.
  unfold validate_no_cross_silo_foreign_keys. apply validate_models_clean.
Qed.

End ValidatorsAsWholes.

Lemma validate_models_have_silos_returns_witness :
  validate_models_have_silos sample_apps ∅ None = Return ().
Proof.
  apply (proj2 (proj1 (validate_models_have_silos_returns sample_apps ∅ None))).
  intros model Hin. right. vm_compute in Hin.
  repeat (apply elem_of_cons in Hin as [->|Hin]); [| | | |by apply elem_of_nil in Hin].
  - exists {[CONTROL]}. split; [reflexivity|]. right. by apply elem_of_singleton.
  - exists {[CONTROL]}. split; [reflexivity|]. right. by apply elem_of_singleton.
  - exists {[REGION]}. split; [reflexivity|]. left. by apply elem_of_singleton.
  - exists {[REGION]}. split; [reflexivity|]. left. by apply elem_of_singleton.
Defined.

Lemma clean_graph_uses_no_exemption_witness :
  validate_no_cross_silo_foreign_keys sample_apps
    {[ (model_class "ApiToken", model_class "User") ]} None
  = Return ∅.
Proof.
  apply (proj2 (clean_graph_uses_no_exemption sample_apps
                  {[ (model_class "ApiToken", model_class "User") ]} ∅ None
                  ltac:(by vm_compute))).
Defined.

Section ValidatorsByApp.
Context {Model : Type} `{Countable Model}.
Variable apps : Apps Model.

Lemma iter_models_all (app_name : option string) (model : Model) :
  model ∈ iter_models apps app_name → model ∈ iter_models apps None.
Proof.
  unfold iter_models. rewrite !list_elem_of_In, !in_flat_map.
  intros ([app app_models] & Hin & Hmodel). exists (app, app_models). split; [done|].
  rewrite (bool_decide_eq_true_2 (None = None)) by done. rewrite orb_true_r.
  by destruct (_ || _).
Qed.

Lemma iter_models_unknown (app : string) :
  app ∉ (all_models apps).*1 → iter_models apps (Some app) = [].
Proof.
  unfold iter_models. induction (all_models apps) as [|[other app_models] rest IH];
    cbn [flat_map fmap list_fmap fst]; [done|].
  intros [Hother Hrest]%not_elem_of_cons. rewrite IH by done.
  rewrite (bool_decide_eq_false_2 (Some other = Some app)) by congruence.
  by rewrite (bool_decide_eq_false_2 (Some app = None)).
Qed.

Lemma collect_seen_returns (exemptions : gset (model_pair Model)) (models : list Model) :
  ∀ acc seen : gset (model_pair Model),
    for_each (collect_seen apps exemptions) acc models = Return seen →
    acc ⊆ seen
    ∧ ∀ model, model ∈ models →
        ∃ by_model, validate_model_no_cross_silo_foreign_keys apps model exemptions
                    = Return by_model
                    ∧ by_model ⊆ seen.
Proof.
  induction models as [|first rest IH]; intros acc seen; cbn [for_each].
  - intros [= <-]. split; [done|]. by intros model ?%elem_of_nil.
  - assert (collect_seen apps exemptions acc first
            = (validate_model_no_cross_silo_foreign_keys apps first exemptions
               ≫= λ seen_by_model, Return (acc ∪ seen_by_model))) as -> by done.
    destruct (validate_model_no_cross_silo_foreign_keys apps first exemptions)
      as [by_first|e] eqn:Hfirst; [|done].
    cbn [mbind result_bind]. intros [Hacc Hrest]%IH. split; [set_solver|].
    intros model [->|Hin]%elem_of_cons; [|by apply Hrest].
    exists by_first. split; [done|set_solver].
Qed.

Lemma collect_seen_bounded (exemptions bound : gset (model_pair Model)) (models : list Model) :
  (∀ model, model ∈ models →
     ∃ by_model, validate_model_no_cross_silo_foreign_keys apps model exemptions
                 = Return by_model
                 ∧ by_model ⊆ bound) →
  ∀ acc, acc ⊆ bound →
    ∃ seen, for_each (collect_seen apps exemptions) acc models = Return seen ∧ seen ⊆ bound.
Proof.
  induction models as [|first rest IH]; intros Hmodels acc Hacc; cbn [for_each].
  - by exists acc.
  - destruct (Hmodels first ltac:(by left)) as (by_first & Hfirst & Hbound).
    assert (collect_seen apps exemptions acc first = Return (acc ∪ by_first)) as ->.
    { unfold collect_seen. by rewrite Hfirst. }
    cbn [mbind result_bind].
    apply IH; [|set_solver]. intros model Hin. apply Hmodels. by right.
Qed.

(** X16.  What passes for all apps passes for each app.  When
    [validate_no_cross_silo_foreign_keys] returns for [app_name=None], it
    returns for every app name too, and the exemptions it reports as used
    for one app are among those it reports for all apps. *)
Theorem all_apps_cover_each_app
    (exemptions seen : gset (model_pair Model)) (app_name : option string) :
  validate_no_cross_silo_foreign_keys apps exemptions None = Return seen →
  ∃ seen_by_app,
    validate_no_cross_silo_foreign_keys apps exemptions app_name = Return seen_by_app
    ∧ seen_by_app ⊆ seen.
Proof.
  unfold validate_no_cross_silo_foreign_keys. intros [_ Hall]%collect_seen_returns.
  apply collect_seen_bounded; [|done].
  intros model Hin. by apply Hall, (iter_models_all app_name).
Qed.

(** X17.  An app name that the registry does not know validates nothing:
    [iter_models] yields no model for it, so [validate_models_have_silos]
    returns and [validate_no_cross_silo_foreign_keys] returns the empty set,
    whatever the models of the registry are. *)
Theorem unknown_app_validates_nothing
    (app : string) (pending : gset Model) (exemptions : gset (model_pair Model)) :
  app ∉ (all_models apps).*1 →
  iter_models apps (Some app) = []
  ∧ validate_models_have_silos apps pending (Some app) = Return ()
  ∧ validate_no_cross_silo_foreign_keys apps exemptions (Some app) = Return ∅.
Proof.
  intros Hunknown%iter_models_unknown.
  unfold validate_models_have_silos, validate_no_cross_silo_foreign_keys.
  by rewrite Hunknown.
Qed.

End ValidatorsByApp.

Lemma all_apps_cover_each_app_witness :
  ∃ seen_by_app,
    validate_no_cross_silo_foreign_keys sample_apps ∅ (Some "sentry") = Return seen_by_app
    ∧ seen_by_app ⊆ ∅.
Proof.
  apply (all_apps_cover_each_app sample_apps ∅ ∅ (Some "sentry")).
  by vm_compute.
Defined.

Lemma unknown_app_validates_nothing_witness :
  iter_models crossing_apps (Some "sentri") = []
  ∧ validate_models_have_silos crossing_apps ∅ (Some "sentri") = Return ()
  ∧ validate_no_cross_silo_foreign_keys crossing_apps ∅ (Some "sentri") = Return ∅.
Proof.
  apply (unknown_app_validates_nothing crossing_apps "sentri" ∅ ∅).
  vm_compute. intros Hin. apply list_elem_of_singleton in Hin. discriminate Hin.
Defined.

(** *** What a decoration accepts *)

Lemma check_kinds_error (parameters : list parameter) :
  ∀ (top_kind : parameter_kind) (e : exception),
    check_kinds top_kind parameters = Raise e →
    ∃ rest, e = ValueError ("wrong parameter order: " +:+ rest).
Proof.
  induction parameters as [|[name kind] parameters IH]; intros top_kind e; cbn [check_kinds];
    [done|].
  destruct (kind_rank kind <? kind_rank top_kind)%nat; [|apply IH].
  intros [= <-]. by eexists.
Qed.

Lemma check_kinds_appended (parameters : list parameter) (name : string) (kind : parameter_kind) :
  ∀ top_kind,
    check_kinds top_kind parameters = Return () →
    check_kinds top_kind (parameters ++ [(name, kind)])
    = check_kinds (last_kind top_kind parameters) [(name, kind)].
Proof.
  induction parameters as [|[first first_kind] parameters IH]; intros top_kind; [done|].
  cbn [check_kinds app].
  destruct (kind_rank first_kind <? kind_rank top_kind)%nat; [done|].
  intros Hrest. rewrite (IH first_kind Hrest). unfold last_kind.
  destruct parameters as [|second parameters]; [done|].
  rewrite last_cons_cons.
  destruct (last (second :: parameters)) as [final|] eqn:Hfinal; [done|].
  by apply last_None in Hfinal.
Qed.

Section ApplyOutcomes.
Variable self_ : _SiloModeTestModification.
Variable SENTRY_USE_MONOLITH_DBS : bool.
Variable settings : Settings.

Lemma _mark_parameterized_returns (f : function_object) :
  "silo_mode" ∈ (function_parameters f).*1
  ∨ check_kinds POSITIONAL_ONLY (function_parameters f ++ [("silo_mode", KEYWORD_ONLY)])
    = Return () →
  _mark_parameterized_by_silo_mode self_ f
  = Return (parametrize "silo_mode" (sorted_by_str (silo_modes self_ ∪ {[MONOLITH]}))
              (replaced self_ f)).
Proof.
  intros Hsignature. unfold _mark_parameterized_by_silo_mode, replaced, Signature_replace.
  case_bool_decide as Hnamed; [done|].
  destruct Hsignature as [Hin|Hordered]; [done|]. by rewrite Hordered.
Qed.

Lemma _mark_parameterized_raises (f : function_object) (e : exception) :
  ("silo_mode" ∉ (function_parameters f).*1) →
  check_kinds POSITIONAL_ONLY (function_parameters f ++ [("silo_mode", KEYWORD_ONLY)])
  = Raise e →
  _mark_parameterized_by_silo_mode self_ f = Raise e.
Proof.
  intros Hnamed Hordered. unfold _mark_parameterized_by_silo_mode, Signature_replace.
  rewrite (bool_decide_eq_false_2 _ Hnamed). by rewrite Hordered.
Qed.

(** What the decoration of a function comes to *)
Lemma apply_function_cases (f : function_object) (st : interpreter) :
  apply self_ SENTRY_USE_MONOLITH_DBS settings (function_ref f) st
  = if SENTRY_USE_MONOLITH_DBS || negb (stable self_ || FORCE_SILOED_TESTS settings)
    then (Return (function_ref f), st)
    else if bool_decide ("silo_mode" ∈ (function_parameters f).*1)
    then (Return (parametrize "silo_mode" (sorted_by_str (silo_modes self_ ∪ {[MONOLITH]}))
                    (replaced self_ f)), st)
    else
      match check_kinds POSITIONAL_ONLY (function_parameters f ++ [("silo_mode", KEYWORD_ONLY)])
      with
      | Raise e => (Raise e, st)
      | Return _ =>
          (Return (parametrize "silo_mode" (sorted_by_str (silo_modes self_ ∪ {[MONOLITH]}))
                     (replaced self_ f)), st)
      end.
Proof.
  rewrite apply_function. destruct (_ || _); [done|].
  case_bool_decide as Hnamed.
  - by rewrite _mark_parameterized_returns by by left.
  - destruct (check_kinds _ _) as [[]|e] eqn:Hordered.
    + by rewrite _mark_parameterized_returns by by right.
    + by rewrite (_mark_parameterized_raises f e).
Qed.

(** X18.  A rejected decoration leaves no trace.  [apply] raises its own
    ValueError exactly on what is neither a function nor a subclass of
    TestCase.  The only other ValueError comes from [inspect]: it is raised
    exactly when a decoration that does not collapse has to append
    [silo_mode] to the signature of a function and the signature does not
    take one more keyword-only parameter, as when it ends with [**kwargs].
    Whenever [apply] raises a ValueError or the error of the decorated
    ancestor, the store of classes is as it was: the object is not marked,
    no class is made and no name is bound. *)
Theorem rejected_decoration_leaves_no_trace (decorated_obj : object) (st : interpreter) :
  ((apply self_ SENTRY_USE_MONOLITH_DBS settings decorated_obj st).1
   = Raise (ValueError "@SiloModeTest must decorate a function or TestCase class")
   ↔ match decorated_obj with
     | class_ref cls => issubclass st cls (TestCase st) = false
     | function_ref _ => False
     | _ => True
     end)
  ∧ ((∃ msg, (apply self_ SENTRY_USE_MONOLITH_DBS settings decorated_obj st).1
             = Raise (ValueError msg))
     ↔ match decorated_obj with
       | class_ref cls => issubclass st cls (TestCase st) = false
       | function_ref f =>
           SENTRY_USE_MONOLITH_DBS || negb (stable self_ || FORCE_SILOED_TESTS settings) = false
           ∧ ("silo_mode" ∉ (function_parameters f).*1)
           ∧ raises (check_kinds POSITIONAL_ONLY
                       (function_parameters f ++ [("silo_mode", KEYWORD_ONLY)]))
       | _ => True
       end)
  ∧ ∀ msg,
      (apply self_ SENTRY_USE_MONOLITH_DBS settings decorated_obj st).1 = Raise (ValueError msg)
      ∨ (apply self_ SENTRY_USE_MONOLITH_DBS settings decorated_obj st).1
        = Raise (AncestorAlreadySiloDecoratedException msg) →
      (apply self_ SENTRY_USE_MONOLITH_DBS settings decorated_obj st).2 = st.
Proof.
  destruct decorated_obj as [cls|f|argnames argvalues f|].
  - destruct (issubclass st cls (TestCase st)) eqn:Hsub.
    + destruct (ancestor_walk st [cls]) eqn:Hwalk.
      * assert (¬ undecorated_ancestry st cls) as Hdecorated.
        { rewrite <- ancestor_walk_false. by rewrite Hwalk. }
        rewrite (apply_decorated_ancestor self_ _ _ st cls Hsub Hdecorated). cbn [fst snd].
        split_and!; [done|split; [by intros [msg Hmsg]|done]|done].
      * apply ancestor_walk_false in Hwalk as Hclean.
        rewrite (apply_test_case_class self_ _ _ st cls Hsub Hclean).
        destruct (_ || _); cbn [fst snd].
        -- split_and!; [done|split; [by intros [msg Hmsg]|done]|by intros msg [?|?]].
        -- destruct (_add_siloed_test_classes_to_module self_ _ cls) as [[new_class|e] st']
             eqn:Hadd; cbn [fst snd].
           ++ split_and!; [done|split; [by intros [msg Hmsg]|done]|by intros msg [?|?]].
           ++ apply add_siloed_raises in Hadd as [name ->].
              split_and!; [done|split; [by intros [msg Hmsg]|done]|by intros msg [?|?]].
    + unfold apply. rewrite Hsub. cbn. split_and!; [done|split; [done|by eexists]|done].
  - rewrite apply_function_cases.
    destruct (SENTRY_USE_MONOLITH_DBS || negb (stable self_ || FORCE_SILOED_TESTS settings)).
    { cbn [fst snd]. split_and!; [done| |done].
      split; [by intros [msg Hmsg]|by intros [? _]]. }
    case_bool_decide as Hnamed.
    { cbn [fst snd]. split_and!; [done| |done].
      split; [by intros [msg Hmsg]|]. by intros (_ & Hnot & _). }
    destruct (check_kinds _ _) as [[]|e] eqn:Hordered; cbn [fst snd].
    + split_and!; [done| |done].
      split; [by intros [msg Hmsg]|]. by intros (_ & _ & [e He]).
    + destruct (check_kinds_error _ _ _ Hordered) as [rest ->].
      split_and!; [split; [|done]|split|done].
      * by intros [=].
      * intros _. split_and!; [done|done|by eexists].
      * intros _. by eexists.
  - cbn. split_and!; [done|split; [done|by eexists]|done].
  - cbn. split_and!; [done|split; [done|by eexists]|done].
Qed.

(** X19.  A stable decoration of a test function parametrizes it and makes
    no class.  For a function that is not named [<lambda>] and whose
    signature has a parameter [silo_mode] or takes one more keyword-only
    parameter: the function that [apply] returns keeps the name and the marks
    of the test function and gains one parametrization of [silo_mode]; the
    signature has the parameter [silo_mode], appended as a keyword-only
    parameter unless the test function had a parameter of that name; the
    parametrized modes have no duplicates and are the modes of the decoration
    together with MONOLITH, which is always among them; the store of classes
    is as it was. *)
Theorem stable_function_decoration (f : function_object) (st : interpreter) :
  stable self_ || FORCE_SILOED_TESTS settings = true →
  function_name f ≠ "<lambda>" →
  "silo_mode" ∈ (function_parameters f).*1
  ∨ check_kinds POSITIONAL_ONLY (function_parameters f ++ [("silo_mode", KEYWORD_ONLY)])
    = Return () →
  ∃ g modes,
    apply self_ false settings (function_ref f) st = (Return (function_ref g), st)
    ∧ function_name g = function_name f
    ∧ "silo_mode" ∈ (function_parameters g).*1
    ∧ (function_parameters g = function_parameters f
       ∨ (("silo_mode" ∉ (function_parameters f).*1)
          ∧ function_parameters g = function_parameters f ++ [("silo_mode", KEYWORD_ONLY)]))
    ∧ function_pytestmark g = function_pytestmark f ++ [("silo_mode", modes)]
    ∧ NoDup modes
    ∧ MONOLITH ∈ modes
    ∧ ∀ silo_mode, silo_mode ∈ modes ↔ silo_mode ∈ silo_modes self_ ∨ silo_mode = MONOLITH.
Proof.
  intros Hexpand Hname Hsignature. rewrite apply_function, Hexpand. cbn [orb negb].
  rewrite (_mark_parameterized_returns f Hsignature).
  unfold parametrize. rewrite (bool_decide_eq_false_2 _ Hname).
  exists (store_mark (replaced self_ f)
            ("silo_mode", sorted_by_str (silo_modes self_ ∪ {[MONOLITH]}))),
         (sorted_by_str (silo_modes self_ ∪ {[MONOLITH]})).
  assert (∀ silo_mode,
            silo_mode ∈ sorted_by_str (silo_modes self_ ∪ {[MONOLITH]})
            ↔ silo_mode ∈ silo_modes self_ ∨ silo_mode = MONOLITH) as Hmodes.
  { intros silo_mode. unfold sorted_by_str.
    rewrite list_elem_of_filter, elem_of_union, elem_of_singleton.
    split; [tauto|]. intros Hin. split; [done|]. destruct silo_mode; set_solver. }
  split_and!; [done|done| | |done| | |done].
  - cbn. case_bool_decide; [done|]. rewrite fmap_app. apply elem_of_app. right. by left.
  - cbn. case_bool_decide; [by left|by right].
  - unfold sorted_by_str. apply NoDup_filter.
    repeat (constructor; [set_solver|]). constructor.
  - apply Hmodes. by right.
Qed.

(** X23.  The two decorations of a function that do not parametrize it.
    When the decoration does not collapse: a function named [<lambda>] is not
    given the mark; [apply] returns the mark decorator of pytest, which holds
    the modes and the replacement of the function, whose marks are those of
    the function.  And a function without a parameter [silo_mode] whose
    signature ends with a variadic keyword parameter makes [apply] raise the
    ValueError of [inspect], wrong parameter order.  The store of classes is
    as it was in both cases. *)
Theorem unparametrized_function_decorations (f : function_object) (st : interpreter) :
  stable self_ || FORCE_SILOED_TESTS settings = true →
  (function_name f = "<lambda>" →
   "silo_mode" ∈ (function_parameters f).*1
   ∨ check_kinds POSITIONAL_ONLY (function_parameters f ++ [("silo_mode", KEYWORD_ONLY)])
     = Return () →
   apply self_ false settings (function_ref f) st
   = (Return (mark_decorator "silo_mode" (sorted_by_str (silo_modes self_ ∪ {[MONOLITH]}))
                (replaced self_ f)), st)
   ∧ function_pytestmark (replaced self_ f) = function_pytestmark f)
  ∧ (("silo_mode" ∉ (function_parameters f).*1) →
     check_kinds POSITIONAL_ONLY (function_parameters f) = Return () →
     snd <$> last (function_parameters f) = Some VAR_KEYWORD →
     apply self_ false settings (function_ref f) st
     = (Raise (ValueError
                 "wrong parameter order: variadic keyword parameter before keyword-only parameter"),
        st)).
Proof.
  intros Hexpand. split.
  - intros Hname Hsignature. rewrite apply_function, Hexpand. cbn [orb negb].
    rewrite (_mark_parameterized_returns f Hsignature).
    unfold parametrize. by rewrite (bool_decide_eq_true_2 _ Hname).
  - intros Hnamed Hordered Hlast. rewrite apply_function, Hexpand. cbn [orb negb].
    rewrite (_mark_parameterized_raises f
               (ValueError
                  "wrong parameter order: variadic keyword parameter before keyword-only parameter"));
      [done|done|].
    rewrite (check_kinds_appended _ _ _ _ Hordered). unfold last_kind. by rewrite Hlast.
Qed.

End ApplyOutcomes.

(** X20.  The walk over the ancestry accepts exactly the classes without a
    decorated ancestor.  For every store, with single or multiple
    inheritance, [_validate_that_no_ancestor_is_silo_decorated] terminates;
    it returns when no class reached from the class through base classes,
    the class itself included, answers [getattr(cls, '_silo_modes', None)]
    with a non-empty set, and otherwise raises the exception whose message
    names the class given to it. *)
Theorem ancestry_check_accepts_exactly (st : interpreter) (cls : addr) :
  (_validate_that_no_ancestor_is_silo_decorated st cls = Return ()
   ↔ ∀ ancestor, in_ancestry st cls ancestor → silo_decorated st ancestor = false)
  ∧ (_validate_that_no_ancestor_is_silo_decorated st cls
     = Raise (AncestorAlreadySiloDecoratedException (cannot_decorate st cls))
     ↔ ∃ ancestor, in_ancestry st cls ancestor ∧ silo_decorated st ancestor = true).
Proof.
  split; [apply validate_ancestry_returns|].
  unfold _validate_that_no_ancestor_is_silo_decorated.
  destruct (ancestor_walk st [cls]) eqn:Hwalk.
  - split; [intros _|done]. apply ancestor_walk_true in Hwalk
      as (first & ancestor & Hfirst & Hancestor & Hdecorated).
    apply list_elem_of_singleton in Hfirst as ->. by exists ancestor.
  - split; [done|]. intros (ancestor & Hancestor & Hdecorated).
    apply ancestor_walk_false in Hwalk. by rewrite (Hwalk ancestor Hancestor) in Hdecorated.
Qed.

Lemma rejected_decoration_leaves_no_trace_witness :
  (apply (__call__ region_silo_test true []) false monolith_settings
     (class_ref 0%nat) sample_store).2
  = sample_store.
Proof.
  destruct (rejected_decoration_leaves_no_trace (__call__ region_silo_test true []) false
              monolith_settings (class_ref 0%nat) sample_store) as (_ & _ & Hsame).
  apply (Hsame "@SiloModeTest must decorate a function or TestCase class").
  left. reflexivity.
Defined.

Lemma stable_function_decoration_witness :
  ∃ g modes,
    apply (__call__ control_silo_test true []) false monolith_settings
      (function_ref test_function) sample_store
    = (Return (function_ref g), sample_store)
    ∧ function_parameters g = [("client", POSITIONAL_OR_KEYWORD); ("silo_mode", KEYWORD_ONLY)]
    ∧ function_pytestmark g = [("silo_mode", modes)]
    ∧ MONOLITH ∈ modes.
Proof.
  destruct (stable_function_decoration (__call__ control_silo_test true []) monolith_settings
              test_function sample_store eq_refl)
    as (g & modes & Happly & _ & _ & Hparameters & Hmarks & _ & Hmonolith & _).
  - discriminate.
  - right. reflexivity.
  - exists g, modes. split_and!; [exact Happly| |exact Hmarks|exact Hmonolith].
    destruct Hparameters as [Hsame|[_ Hadded]]; [|exact Hadded].
    exfalso. injection Happly as <-. discriminate Hsame.
Defined.

Lemma unparametrized_function_decorations_witness :
  (∃ g, apply (__call__ control_silo_test true []) false monolith_settings
          (function_ref lambda_function) sample_store
        = (Return (mark_decorator "silo_mode" [CONTROL; MONOLITH] g), sample_store)
        ∧ function_pytestmark g = [])
  ∧ apply (__call__ control_silo_test true []) false monolith_settings
      (function_ref kwargs_function) sample_store
    = (Raise (ValueError
                "wrong parameter order: variadic keyword parameter before keyword-only parameter"),
       sample_store).
Proof.
  destruct (unparametrized_function_decorations (__call__ control_silo_test true [])
              monolith_settings lambda_function sample_store eq_refl) as [Hlambda _].
  destruct (unparametrized_function_decorations (__call__ control_silo_test true [])
              monolith_settings kwargs_function sample_store eq_refl) as [_ Hkwargs].
  split.
  - destruct (Hlambda eq_refl (or_intror eq_refl)) as [Happly Hmarks].
    eexists. split; [exact Happly|exact Hmarks].
  - apply Hkwargs; [|reflexivity|reflexivity].
    vm_compute. intros Hin. apply list_elem_of_In in Hin. cbn in Hin. intuition discriminate.
Defined.

Lemma ancestry_check_accepts_exactly_witness :
  ∃ ancestor,
    in_ancestry child_of_control_decorated 5%nat ancestor
    ∧ silo_decorated child_of_control_decorated ancestor = true.
Proof.
  apply (proj1 (proj2 (ancestry_check_accepts_exactly child_of_control_decorated 5%nat))).
  by vm_compute.
Defined.

(** *** The validator of the deletions *)

Section DeletionFacts.
Context {Model : Type} `{Countable Model}.
Variable apps : Apps Model.
Variable has_silo_limit : Model → bool.
Variable get_child_relations : Model → list Model.

Lemma first_mode_outside_none (modes : gset SiloMode) (to_model : Model) :
  first_mode_outside apps (elements modes) to_model = Return None
  ↔ modes = ∅
    ∨ (∃ to_modes, _meta_silo_limit apps to_model = Some to_modes ∧ modes ⊆ to_modes).
Proof.
  destruct (_meta_silo_limit apps to_model) as [to_modes|] eqn:Hlimit.
  - rewrite (first_mode_outside_limit apps _ _ _ Hlimit).
    fold (mode_outside modes to_modes). split.
    + intros [= Hnone]. right. exists to_modes. split; [done|].
      by apply mode_outside_None.
    + intros Hcases. f_equal. apply mode_outside_None.
      destruct Hcases as [->|(to_modes' & [= <-] & Hsub)]; [set_solver|done].
  - destruct (elements modes) as [|mode rest] eqn:Helements.
    + apply elements_empty_inv, leibniz_equiv in Helements. split; [by left|done].
    + cbn [first_mode_outside]. unfold _model_silo_limit. rewrite Hlimit.
      cbn [mbind result_bind]. split; [done|].
      intros [->|(to_modes' & [=] & _)]. by rewrite elements_empty in Helements.
Qed.

Lemma validate_child_relation_returns
    (exemptions : gset (Model * Model)) (model_class to_model : Model) :
  validate_child_relation apps exemptions model_class to_model = Return ()
  ↔ (model_class, to_model) ∈ exemptions
    ∨ (to_model, model_class) ∈ exemptions
    ∨ (∃ modes,
         _meta_silo_limit apps model_class = Some modes
         ∧ (modes = ∅
            ∨ (∃ to_modes, _meta_silo_limit apps to_model = Some to_modes
                           ∧ modes ⊆ to_modes))).
Proof.
  unfold validate_child_relation.
  destruct (bool_decide ((model_class, to_model) ∈ exemptions)) eqn:Hforward.
  { apply bool_decide_eq_true in Hforward. cbn [orb]. split; [by left|done]. }
  destruct (bool_decide ((to_model, model_class) ∈ exemptions)) eqn:Hbackward.
  { apply bool_decide_eq_true in Hbackward. cbn [orb]. split; [by right; left|done]. }
  apply bool_decide_eq_false in Hforward, Hbackward. cbn [orb].
  unfold _model_silo_limit at 1.
  destruct (_meta_silo_limit apps model_class) as [modes|];
    cbn [with_deletion_error mbind result_bind].
  - pose proof (first_mode_outside_none modes to_model) as Hnone.
    destruct (first_mode_outside apps (elements modes) to_model) as [[mode|]|e];
      cbn [with_deletion_error mbind result_bind].
    + split; [done|]. intros [?|[?|(modes' & [= <-] & Hmodes)]]; [done|done|].
      by apply Hnone in Hmodes.
    + split; [intros _|done]. right. right. exists modes. split; [done|]. by apply Hnone.
    + split; [done|]. intros [?|[?|(modes' & [= <-] & Hmodes)]]; [done|done|].
      by apply Hnone in Hmodes.
  - split; [done|]. by intros [?|[?|(modes' & [=] & _)]].
Qed.

(** X21.  [validate_no_cross_silo_deletions] returns exactly when, for
    every model that [iter_models] yields and that has a [silo_limit]
    attribute, every model its deletion cascades to is exempted with it, in
    either order, or runs in every mode the model runs in.  Only the modes of
    the model whose deletion cascades are looked for in the other model: a
    model the deletion cascades to may run in more modes. *)
Theorem validate_no_cross_silo_deletions_returns
    (exemptions : gset (Model * Model)) (app_name : option string) :
  validate_no_cross_silo_deletions apps has_silo_limit get_child_relations exemptions app_name
  = Return ()
  ↔ ∀ model_class to_model,
      model_class ∈ iter_models apps app_name →
      has_silo_limit model_class = true →
      to_model ∈ get_child_relations model_class →
      (model_class, to_model) ∈ exemptions
      ∨ (to_model, model_class) ∈ exemptions
      ∨ (∃ modes,
           _meta_silo_limit apps model_class = Some modes
           ∧ (modes = ∅
              ∨ (∃ to_modes, _meta_silo_limit apps to_model = Some to_modes
                             ∧ modes ⊆ to_modes))).
Proof.
  unfold validate_no_cross_silo_deletions. rewrite for_each_unit. split.
  - intros Hall model_class to_model Hin Hlimit Hchild.
    specialize (Hall model_class Hin). rewrite Hlimit in Hall. cbn [negb] in Hall.
    rewrite for_each_unit in Hall. by apply validate_child_relation_returns, Hall.
  - intros Hall model_class Hin.
    destruct (has_silo_limit model_class) eqn:Hlimit; cbn [negb]; [|done].
    apply for_each_unit. intros to_model Hchild.
    by apply validate_child_relation_returns, Hall.
Qed.

End DeletionFacts.

Lemma validate_no_cross_silo_deletions_returns_witness :
  validate_no_cross_silo_deletions sample_apps (λ _, true) sample_child_relations ∅ None
  = Return ().
Proof.
  apply (validate_no_cross_silo_deletions_returns sample_apps (λ _, true)
           sample_child_relations ∅ None).
  intros model_class to_model Hin _ Hchild. right. right.
  vm_compute in Hin.
  repeat (apply elem_of_cons in Hin as [->|Hin]); [| | | |by apply elem_of_nil in Hin];
    vm_compute in Hchild;
    repeat (apply elem_of_cons in Hchild as [->|Hchild]);
    try (by apply elem_of_nil in Hchild).
  - exists {[CONTROL]}. split; [reflexivity|]. right. exists {[CONTROL]}. by split.
  - exists {[REGION]}. split; [reflexivity|]. right. exists {[REGION]}. by split.
Defined.

(** *** The context manager [assume_test_silo_mode], in every mode *)

(** X22.  Inside [assume_test_silo_mode] the process is in the assumed
    mode, and in REGION mode it has a region.  When [get_current_mode] reads
    the setting SILO_MODE: the body runs under settings whose SILO_MODE is
    the desired mode, or MONOLITH when the process is in MONOLITH mode and
    [can_be_monolith] holds; SENTRY_REGION is set to [na] when that mode is
    REGION and the setting was empty, and is untouched otherwise, so that it
    is never empty in REGION mode; no other setting changes.  When these are
    the settings of the process nothing is overridden and the body runs
    directly; otherwise the settings of the process are put back after the
    body, whether it returns or raises. *)
Theorem assume_test_silo_mode_settings
    (get_current_mode : Settings → SiloMode) (desired_silo : SiloMode)
    (can_be_monolith : bool) (s : Settings) :
  (∀ s', get_current_mode s' = SILO_MODE s') →
  ∃ s',
    SILO_MODE s' = assumed_silo get_current_mode desired_silo can_be_monolith s
    ∧ SENTRY_REGION s'
      = (if bool_decide (SILO_MODE s' = REGION) && negb (truthy (SENTRY_REGION s))
         then Some "na" else SENTRY_REGION s)
    ∧ (SILO_MODE s' = REGION → truthy (SENTRY_REGION s') = true)
    ∧ SENTRY_SUBNET_SECRET s' = SENTRY_SUBNET_SECRET s
    ∧ SENTRY_CONTROL_ADDRESS s' = SENTRY_CONTROL_ADDRESS s
    ∧ SENTRY_MONOLITH_REGION s' = SENTRY_MONOLITH_REGION s
    ∧ FORCE_SILOED_TESTS s' = FORCE_SILOED_TESTS s
    ∧ regions_in_force s' = regions_in_force s
    ∧ ∀ (A : Type) (body : block A),
        (s' = s →
         assume_test_silo_mode get_current_mode desired_silo can_be_monolith body s = body s)
        ∧ (s' ≠ s →
           assume_test_silo_mode get_current_mode desired_silo can_be_monolith body s
           = ((body s').1, s)).
Proof.
  intros Hcurrent.
  exists (foldl assign s (assumed_overrides get_current_mode desired_silo can_be_monolith s)).
  unfold assume_test_silo_mode, assumed_overrides. rewrite Hcurrent.
  set (target := assumed_silo get_current_mode desired_silo can_be_monolith s).
  destruct (bool_decide (target ≠ SILO_MODE s)) eqn:Hmode;
    destruct (bool_decide (target = REGION) && negb (truthy (SENTRY_REGION s))) eqn:Hregion;
    cbn [app foldl assign SILO_MODE SENTRY_REGION SENTRY_SUBNET_SECRET SENTRY_CONTROL_ADDRESS
         SENTRY_MONOLITH_REGION FORCE_SILOED_TESTS regions_in_force].
  - apply bool_decide_eq_true in Hmode.
    apply andb_true_iff in Hregion as [Htarget Hempty]. rewrite Htarget, Hempty. cbn [andb].
    split_and!; try done. intros A body. split.
    + intros Hsame. destruct Hmode. by rewrite <- Hsame.
    + intros _. unfold override_settings. cbn [foldl assign]. by destruct (body _).
  - apply bool_decide_eq_true in Hmode. rewrite Hregion.
    split_and!; try done.
    + intros Htarget. rewrite (bool_decide_eq_true_2 _ Htarget) in Hregion.
      cbn [andb] in Hregion. by apply negb_false_iff in Hregion.
    + intros A body. split.
      * intros Hsame. destruct Hmode. by rewrite <- Hsame.
      * intros _. unfold override_settings. cbn [foldl assign]. by destruct (body _).
  - apply bool_decide_eq_false in Hmode. apply dec_stable in Hmode.
    apply andb_true_iff in Hregion as [Htarget Hempty].
    rewrite <- Hmode, Htarget, Hempty. cbn [andb].
    split_and!; try done. intros A body. split.
    + intros Hsame. apply negb_true_iff in Hempty. rewrite <- Hsame in Hempty. done.
    + intros _. unfold override_settings. cbn [foldl assign]. rewrite <- Hmode.
      by destruct (body _).
  - apply bool_decide_eq_false in Hmode. apply dec_stable in Hmode.
    rewrite <- Hmode, Hregion.
    split_and!; try done.
    intros Htarget. rewrite (bool_decide_eq_true_2 _ Htarget) in Hregion.
    cbn [andb] in Hregion. by apply negb_false_iff in Hregion.
Qed.

Lemma assume_test_silo_mode_settings_witness :
  ∃ s',
    SILO_MODE s' = REGION
    ∧ SENTRY_REGION s' = Some "na"
    ∧ ∀ (A : Type) (body : block A),
        assume_test_silo_mode SILO_MODE REGION false body monolith_settings
        = ((body s').1, monolith_settings).
Proof.
  destruct (assume_test_silo_mode_settings SILO_MODE REGION false monolith_settings
              (λ s', eq_refl))
    as (s' & Hmode & Hregion & _ & _ & _ & _ & _ & _ & Hrun).
  exists s'. split_and!; [exact Hmode| |].
  - rewrite Hregion, Hmode. reflexivity.
  - intros A body. apply (Hrun A body). intros Hsame. rewrite Hsame in Hmode.
    discriminate Hmode.
Defined.
